(** * Captcha_Solver: a shallow embedding of the solver's core logic

    The development follows the layout of the [captcha_solver] package:
    - [Py]           the few Python built-ins the code relies on
                     ([str.strip], exceptions, slicing);
    - [Solver]       [solver.py]: the orchestrator, its history and batch mode;
    - [Ocr]          [ocr.py]: confidence scoring and the multi-configuration
                     search;
    - [Preprocessor] [preprocessor.py]: grayscale conversion and skew
                     correction;
    - [Extractor]    [extractor.py]: data URI decoding;
    - [Config]       [config.py]: the configuration store, with the object
                     heap on which its dictionaries live.

    Third-party libraries (PIL, OpenCV, pytesseract, pathlib, the file
    system) are not part of the package; they enter as [Variable]s of the
    section that models their caller. *)

From Stdlib Require Import ZArith QArith Qabs Qminmax List String Ascii Bool Lia.
From stdpp Require Import gmap strings list.
Import ListNotations.
Local Open Scope string_scope.
Local Open Scope list_scope.

(** ** Python built-ins *)

Module Py.

(** Exceptions, by class; the payload is what [str(e)] prints. *)
Inductive exn : Type :=
| FileNotFoundError (msg : string)
| ValueError (msg : string)
| KeyError (key : string)
| TypeError (msg : string)
| OSError (msg : string)
| Exception (msg : string).

Definition str_of_exn (e : exn) : string :=
  match e with
  | FileNotFoundError m | ValueError m | TypeError m | OSError m
  | Exception m => m
  | KeyError k => "'" ++ k ++ "'"
  end.

(** The outcome of a call: a value, or a raised exception. *)
Inductive result (A : Type) : Type :=
| Ok (a : A)
| Raise (e : exn).
Arguments Ok {A} a.
Arguments Raise {A} e.

Definition is_ok {A} (r : result A) : bool :=
  match r with Ok _ => true | Raise _ => false end.

(** [str.isspace] on the ASCII range: tab, LF, VT, FF, CR, FS, GS, RS, US
    and space. *)
Definition isspace (c : ascii) : bool :=
  let n := nat_of_ascii c in
  (Nat.leb 9 n && Nat.leb n 13) || (Nat.leb 28 n && Nat.leb n 32).

Fixpoint lstrip (s : string) : string :=
  match s with
  | String c s' => if isspace c then lstrip s' else s
  | EmptyString => EmptyString
  end.

(** [rstrip] drops the trailing run of whitespace. *)
Fixpoint rstrip (s : string) : string :=
  match s with
  | String c s' =>
      match rstrip s' with
      | EmptyString => if isspace c then EmptyString else String c EmptyString
      | r => String c r
      end
  | EmptyString => EmptyString
  end.

Definition strip (s : string) : string := rstrip (lstrip s).

(** Truth value of a string: non-empty. *)
Definition truthy (s : string) : bool :=
  match s with EmptyString => false | _ => true end.

(** [l[-n:]] for [n > 0]: the last [n] elements, the whole list when it is
    shorter. *)
Definition last_n {A} (n : nat) (l : list A) : list A :=
  skipn (length l - n) l.

End Py.
Export Py.

(** ** solver.py: the orchestrator *)

Module Solver.

Inductive level : Type := DEBUG | INFO | WARNING | ERROR.

(** One entry of [processing_history] (the dictionary built by
    [_record_processing]). *)
Record processing_record : Type := mk_record {
  timestamp : Q;
  source : string;
  image_hash : string;
  result_text : string;
  confidence : Q;
  preprocessing_steps : list string
}.

(** One entry of the list returned by [solve_batch]; [error] is [None]
    when the dictionary has no ["error"] key. *)
Record batch_entry : Type := mk_entry {
  entry_path : string;
  entry_result : string;
  entry_confidence : Q;
  success : bool;
  error : option string;
  processing_time : Q
}.

(** utils.validate_image_path: the extensions accepted. *)
Definition valid_extensions : list string :=
  [".png"; ".jpg"; ".jpeg"; ".gif"; ".bmp"; ".tiff"; ".webp"].

Definition in_list (x : string) (l : list string) : bool :=
  existsb (String.eqb x) l.

Section Orchestrator.

(** PIL images, Selenium elements and drivers are opaque here. *)
Variable Image : Type.
Variable WebElement : Type.

(** pathlib and the file system: [Path_of p] is [str(Path(p))]. *)
Variable Path_of : string -> string.
Variable path_exists : string -> bool.
Variable path_is_file : string -> bool.
Variable path_suffix_lower : string -> string.

(** PIL, hashlib. *)
Variable Image_open : string -> result Image.
Variable Image_tobytes : Image -> result (list Byte.byte).
Variable Image_save : Image -> string -> result unit.
Variable md5_hexdigest : list Byte.byte -> string.

(** The other components of the package, as the orchestrator calls
    them: the preprocessor run on its current step list, the recognizer,
    the extractor. *)
Variable preprocess : list string -> Image -> result Image.
Variable recognize_with_multiple_configs : Image -> result (string * Q).
Variable extract_from_url :
  string -> option (list string) -> result (option Image).
Variable extract_from_element :
  WebElement -> option (result string) -> result (option Image).

(** [time.time()], by the number of earlier readings of the clock. *)
Variable time_time : nat -> Q.

(** [self.config.get("ocr.confidence_threshold", 60)]. *)
Variable min_confidence : Q.

(** The mutable attributes of a [CAPTCHASolver], with the step list of
    its preprocessor, the clock and the log it writes to. *)
Record solver : Type := mk_solver {
  last_processed_image : option Image;
  last_confidence : Q;
  last_result : string;
  processing_history : list processing_record;
  processing_steps : list string;
  clock : nat;
  log : list (level * string)
}.

(** Statements of a method: they read and write the solver and may
    raise; what was written before a raise stays written. *)
Definition M (A : Type) : Type := solver -> result A * solver.

Definition ret {A} (a : A) : M A := fun s => (Ok a, s).

Definition bind {A B} (m : M A) (k : A -> M B) : M B :=
  fun s =>
    match m s with
    | (Ok a, s') => k a s'
    | (Raise e, s') => (Raise e, s')
    end.

Definition lift {A} (r : result A) : M A := fun s => (r, s).

(** [try: body  except Exception as e: handler(e)]. *)
Definition try_except {A} (body : M A) (handler : exn -> M A) : M A :=
  fun s =>
    match body s with
    | (Ok a, s') => (Ok a, s')
    | (Raise e, s') => handler e s'
    end.

Notation "x <- c1 ;; c2" := (bind c1 (fun x => c2))
  (at level 100, c1 at next level, right associativity).
Notation "c1 ;;; c2" := (bind c1 (fun _ => c2))
  (at level 100, right associativity).

Definition logger (l : level) (msg : string) : M unit :=
  fun s =>
    (Ok tt,
     mk_solver (last_processed_image s) (last_confidence s)
       (last_result s) (processing_history s) (processing_steps s)
       (clock s) (log s ++ [(l, msg)])).

Definition now : M Q :=
  fun s =>
    (Ok (time_time (clock s)),
     mk_solver (last_processed_image s) (last_confidence s)
       (last_result s) (processing_history s) (processing_steps s)
       (S (clock s)) (log s)).

(** [with Timer(...) as timer: body]: the clock is read on entry and on
    every exit, normal or not. *)
Definition with_Timer {A} (body : Q -> M A) : M A :=
  fun s =>
    match now s with
    | (Ok start, s1) =>
        let '(r, s2) := body start s1 in (r, snd (now s2))
    | (Raise e, s1) => (Raise e, s1)
    end.

(** [timer.elapsed] inside the block. *)
Definition elapsed (start : Q) : M Q :=
  t <- now ;; ret (t - start)%Q.

Definition set_last_processed_image (i : Image) : M unit :=
  fun s =>
    (Ok tt,
     mk_solver (Some i) (last_confidence s) (last_result s)
       (processing_history s) (processing_steps s) (clock s) (log s)).

Definition set_last_ocr (r : string) (c : Q) : M unit :=
  fun s =>
    (Ok tt,
     mk_solver (last_processed_image s) c r (processing_history s)
       (processing_steps s) (clock s) (log s)).

Definition set_history (h : list processing_record) : M unit :=
  fun s =>
    (Ok tt,
     mk_solver (last_processed_image s) (last_confidence s)
       (last_result s) h (processing_steps s) (clock s) (log s)).

Definition get {A} (f : solver -> A) : M A := fun s => (Ok (f s), s).

(** utils.validate_image_path *)
Definition validate_image_path (image_path : string) : result string :=
  let path := Path_of image_path in
  if negb (path_exists path) then
    Raise (FileNotFoundError ("Image file not found: " ++ path))
  else if negb (path_is_file path) then
    Raise (ValueError ("Path is not a file: " ++ path))
  else if negb (in_list (path_suffix_lower path) valid_extensions) then
    Raise (ValueError ("Invalid image format: " ++ path_suffix_lower path))
  else Ok path.

(** utils.calculate_image_hash, on a PIL image. *)
Definition calculate_image_hash (image : Image) : result string :=
  match Image_tobytes image with
  | Ok image_bytes => Ok (md5_hexdigest image_bytes)
  | Raise e => Raise e
  end.

Definition cache_dir : string := "captcha_cache".

(** CAPTCHASolver._record_processing *)
Definition _record_processing (src hash res : string) (conf : Q) : M unit :=
  t <- now ;;
  steps <- get processing_steps ;;
  let record := mk_record t src hash res conf steps in
  h <- get processing_history ;;
  let h' := h ++ [record] in
  if Nat.ltb 100 (length h') then set_history (last_n 100 h')
  else set_history h'.

(** CAPTCHASolver._validate_result *)
Definition _validate_result (res : string) (conf : Q) : M bool :=
  if Qlt_le_dec conf min_confidence then ret false
  else if negb (truthy res) || negb (truthy (strip res)) then ret false
  else
    (if Nat.ltb (String.length res) 3 || Nat.ltb 10 (String.length res)
     then logger WARNING "Unusual CAPTCHA length"
     else ret tt) ;;;
    ret true.

(** CAPTCHASolver._solve_image *)
Definition _solve_image (image : Image) (src : string)
    (save_processed : bool) : M string :=
  try_except
    (hash <- lift (calculate_image_hash image) ;;
     (if save_processed then
        let original_path :=
          (cache_dir ++ "/original_" ++ hash ++ ".png")%string in
        lift (Image_save image original_path) ;;;
        logger DEBUG ("Saved original image: " ++ original_path)
      else ret tt) ;;;
     processed_image <- with_Timer (fun _ =>
       steps <- get processing_steps ;;
       p <- lift (preprocess steps image) ;;
       set_last_processed_image p ;;;
       ret p) ;;
     logger DEBUG "Image preprocessed" ;;;
     (if save_processed then
        let processed_path :=
          (cache_dir ++ "/processed_" ++ hash ++ ".png")%string in
        lift (Image_save processed_image processed_path) ;;;
        logger DEBUG ("Saved processed image: " ++ processed_path)
      else ret tt) ;;;
     rc <- with_Timer (fun _ =>
       rc <- lift (recognize_with_multiple_configs processed_image) ;;
       set_last_ocr (fst rc) (snd rc) ;;;
       ret rc) ;;
     logger DEBUG "OCR completed" ;;;
     _record_processing src hash (fst rc) (snd rc) ;;;
     valid <- _validate_result (fst rc) (snd rc) ;;
     (if negb valid then
        logger WARNING ("Low confidence result: '" ++ fst rc ++ "'")
      else ret tt) ;;;
     ret (fst rc))
    (fun e =>
       logger ERROR ("Failed to solve CAPTCHA image: " ++ str_of_exn e) ;;;
       ret "").

(** CAPTCHASolver.solve_from_file *)
Definition solve_from_file (image_path : string) (save_processed : bool)
    : M string :=
  try_except
    (with_Timer (fun start =>
       validated_path <- lift (validate_image_path image_path) ;;
       image <- lift (Image_open validated_path) ;;
       logger INFO ("Loaded image: " ++ validated_path) ;;;
       res <- _solve_image image validated_path save_processed ;;
       elapsed start ;;;
       logger INFO ("CAPTCHA solved: '" ++ res ++ "'") ;;;
       ret res))
    (fun e =>
       logger ERROR ("Failed to solve CAPTCHA from file " ++ image_path
                     ++ ": " ++ str_of_exn e) ;;;
       ret "").

(** CAPTCHASolver.solve_from_url *)
Definition solve_from_url (url : string)
    (captcha_selectors : option (list string)) (save_processed : bool)
    : M string :=
  try_except
    (with_Timer (fun start =>
       image <- lift (extract_from_url url captcha_selectors) ;;
       match image with
       | None =>
           logger ERROR ("Failed to extract CAPTCHA from URL: " ++ url) ;;;
           ret ""
       | Some image =>
           logger INFO "Extracted CAPTCHA image" ;;;
           res <- _solve_image image url save_processed ;;
           elapsed start ;;;
           logger INFO ("CAPTCHA solved: '" ++ res ++ "'") ;;;
           ret res
       end))
    (fun e =>
       logger ERROR ("Failed to solve CAPTCHA from URL " ++ url
                     ++ ": " ++ str_of_exn e) ;;;
       ret "").

(** CAPTCHASolver.solve_from_element; a driver is given by what reading
    its [current_url] yields. *)
Definition solve_from_element (web_element : WebElement)
    (driver : option (result string)) (save_processed : bool) : M string :=
  try_except
    (with_Timer (fun start =>
       image <- lift (extract_from_element web_element driver) ;;
       match image with
       | None =>
           logger ERROR "Failed to extract CAPTCHA from WebElement" ;;;
           ret ""
       | Some image =>
           logger INFO "Extracted CAPTCHA image" ;;;
           src <- lift (match driver with
                        | Some current_url => current_url
                        | None => Ok "WebElement"
                        end) ;;
           res <- _solve_image image src save_processed ;;
           elapsed start ;;;
           logger INFO ("CAPTCHA solved: '" ++ res ++ "'") ;;;
           ret res
       end))
    (fun e =>
       logger ERROR ("Failed to solve CAPTCHA from WebElement: "
                     ++ str_of_exn e) ;;;
       ret "").

(** The loop of CAPTCHASolver.solve_batch: one iteration per path, the
    entries appended to [results]. *)
Fixpoint solve_batch_loop (start : Q) (image_paths : list string)
    (save_processed : bool) (results : list batch_entry)
    : M (list batch_entry) :=
  match image_paths with
  | [] => ret results
  | image_path :: rest =>
      logger INFO ("Processing image: " ++ image_path) ;;;
      entry <- try_except
        (res <- solve_from_file image_path save_processed ;;
         conf <- get last_confidence ;;
         t <- elapsed start ;;
         ret (mk_entry image_path res conf (truthy (strip res)) None t))
        (fun e =>
           logger ERROR ("Failed to process " ++ image_path ++ ": "
                         ++ str_of_exn e) ;;;
           t <- elapsed start ;;
           ret (mk_entry image_path "" 0 false (Some (str_of_exn e)) t)) ;;
      solve_batch_loop start rest save_processed (results ++ [entry])
  end.

(** CAPTCHASolver.solve_batch *)
Definition solve_batch (image_paths : list string) (save_processed : bool)
    : M (list batch_entry) :=
  results <- with_Timer (fun start =>
    solve_batch_loop start image_paths save_processed []) ;;
  logger INFO "Batch completed" ;;;
  ret results.

(** *** The stages of a solve, as pure calls

    [stages image save_processed steps] runs the fallible calls of
    [_solve_image] in its order and yields the fingerprint and the
    recognizer's answer; it is [Raise] exactly when one of them raises. *)
Definition stages (image : Image) (save_processed : bool)
    (steps : list string) : result (string * (string * Q)) :=
  match calculate_image_hash image with
  | Raise e => Raise e
  | Ok hash =>
      match (if save_processed
             then Image_save image
                    (cache_dir ++ "/original_" ++ hash ++ ".png")
             else Ok tt) with
      | Raise e => Raise e
      | Ok _ =>
          match preprocess steps image with
          | Raise e => Raise e
          | Ok processed =>
              match (if save_processed
                     then Image_save processed
                            (cache_dir ++ "/processed_" ++ hash ++ ".png")
                     else Ok tt) with
              | Raise e => Raise e
              | Ok _ =>
                  match recognize_with_multiple_configs processed with
                  | Raise e => Raise e
                  | Ok rc => Ok (hash, rc)
                  end
              end
          end
      end
  end.

(** The text a solve returns, from the outcome of its stages. *)
Definition text_of (r : result (string * (string * Q))) : string :=
  match r with
  | Ok (_, (text, _)) => text
  | Raise _ => ""
  end.

(** The record a completed solve appends. *)
Definition record_of (s : solver) (src : string)
    (r : string * (string * Q)) : processing_record :=
  mk_record (time_time (clock s + 4)) src (fst r) (fst (snd r))
    (snd (snd r)) (processing_steps s).

(** An error was logged between [s] and [s']. *)
Definition logged_error (s s' : solver) : Prop :=
  exists msg, In (ERROR, msg) (drop (length (log s)) (log s')).

(** The history after one more record: the last 100. *)
Definition push_history (h : list processing_record)
    (r : processing_record) : list processing_record :=
  last_n 100 (h ++ [r]).

(** *** Facts about the combinators *)

Lemma last_n_short {A} (n : nat) (l : list A) :
  length l <= n -> last_n n l = l.
Proof.
  intros H. unfold last_n.
  replace (length l - n) with 0 by lia. reflexivity.
Qed.


Lemma drop_log (l k : list (level * string)) :
  drop (length l) (l ++ k) = k.
Proof. apply drop_app_length. Qed.

Lemma _record_processing_spec (src hash res : string) (conf : Q)
    (s : solver) :
  _record_processing src hash res conf s
  = (Ok tt,
     mk_solver (last_processed_image s) (last_confidence s)
       (last_result s)
       (push_history (processing_history s)
          (mk_record (time_time (clock s)) src hash res conf
             (processing_steps s)))
       (processing_steps s) (S (clock s)) (log s)).
Proof.
  unfold _record_processing, bind, now, get, set_history, push_history.
  simpl.
  destruct (Nat.ltb 100 _) eqn:E; simpl; [reflexivity|].
  apply Nat.ltb_ge in E. rewrite last_n_short by exact E. reflexivity.
Qed.

Lemma _validate_result_spec (res : string) (conf : Q) (s : solver) :
  exists b l,
    _validate_result res conf s
    = (Ok b,
       mk_solver (last_processed_image s) (last_confidence s)
         (last_result s) (processing_history s) (processing_steps s)
         (clock s) (log s ++ l)).
Proof.
  unfold _validate_result, bind, ret, logger.
  destruct s as [i c r h st ck lg]; simpl.
  destruct (Qlt_le_dec conf min_confidence);
    [exists false, []; rewrite app_nil_r; reflexivity|].
  destruct (negb (truthy res) || negb (truthy (strip res)));
    [exists false, []; rewrite app_nil_r; reflexivity|].
  destruct (_ || _); simpl.
  - eexists true, [_]. reflexivity.
  - exists true, []. rewrite app_nil_r. reflexivity.
Qed.

Ltac log_grows :=
  simpl; rewrite <- ?app_assoc; simpl;
  first [ reflexivity | symmetry; apply app_nil_r ].

Ltac failed_case :=
  eexists; split; [reflexivity|]; split; [reflexivity|];
  split;
  [ eexists; split; [log_grows | intros _; eexists; simpl; eauto 12]
  | reflexivity ].

Lemma _solve_image_spec (image : Image) (src : string)
    (save_processed : bool) (s : solver) :
  exists s',
    _solve_image image src save_processed s
    = (Ok (text_of (stages image save_processed (processing_steps s))), s')
    /\ processing_steps s' = processing_steps s
    /\ (exists l, log s' = log s ++ l
          /\ (is_ok (stages image save_processed (processing_steps s))
              = false -> exists msg, In (ERROR, msg) l))
    /\ processing_history s'
       = match stages image save_processed (processing_steps s) with
         | Ok r => push_history (processing_history s) (record_of s src r)
         | Raise _ => processing_history s
         end.
Proof.
  unfold _solve_image, stages, try_except, bind, lift, with_Timer.
  destruct s as [i0 c0 r0 h0 st0 ck0 lg0]; simpl.
  destruct (calculate_image_hash image) as [hash|e]; simpl;
    [|failed_case].
  destruct save_processed; simpl.
  - destruct (Image_save image _) as [[]|e]; simpl; [|failed_case].
    destruct (preprocess st0 image) as [p|e]; simpl; [|failed_case].
    destruct (Image_save p _) as [[]|e]; simpl; [|failed_case].
    destruct (recognize_with_multiple_configs p) as [[text conf]|e];
      simpl; [|failed_case].
    rewrite _record_processing_spec; simpl.
    edestruct _validate_result_spec as (b & l & ->); simpl.
    unfold record_of; simpl.
    replace (ck0 + 4) with (S (S (S (S ck0)))) by lia.
    destruct b; simpl;
      (eexists; split; [reflexivity|]; split; [reflexivity|]; split;
       [eexists; split; [log_grows | discriminate] | reflexivity]).
  - destruct (preprocess st0 image) as [p|e]; simpl; [|failed_case].
    destruct (recognize_with_multiple_configs p) as [[text conf]|e];
      simpl; [|failed_case].
    rewrite _record_processing_spec; simpl.
    edestruct _validate_result_spec as (b & l & ->); simpl.
    unfold record_of; simpl.
    replace (ck0 + 4) with (S (S (S (S ck0)))) by lia.
    destruct b; simpl;
      (eexists; split; [reflexivity|]; split; [reflexivity|]; split;
       [eexists; split; [log_grows | discriminate] | reflexivity]).
Qed.

(** *** Outcomes of the three entry points

    [Some] when every stage went through, [None] when one failed: the
    path was refused, the image could not be opened or extracted, or a
    stage of [_solve_image] raised. *)
Definition to_option {A} (r : result A) : option A :=
  match r with Ok a => Some a | Raise _ => None end.

Definition file_outcome (image_path : string) (save_processed : bool)
    (steps : list string) : option (string * (string * Q)) :=
  match validate_image_path image_path with
  | Raise _ => None
  | Ok validated_path =>
      match Image_open validated_path with
      | Raise _ => None
      | Ok image => to_option (stages image save_processed steps)
      end
  end.

Definition url_outcome (url : string) (selectors : option (list string))
    (save_processed : bool) (steps : list string)
    : option (string * (string * Q)) :=
  match extract_from_url url selectors with
  | Raise _ | Ok None => None
  | Ok (Some image) => to_option (stages image save_processed steps)
  end.

Definition element_outcome (web_element : WebElement)
    (driver : option (result string)) (save_processed : bool)
    (steps : list string) : option (string * (string * Q)) :=
  match extract_from_element web_element driver with
  | Raise _ | Ok None => None
  | Ok (Some image) =>
      match driver with
      | Some (Raise _) => None
      | _ => to_option (stages image save_processed steps)
      end
  end.

Definition solved_text (o : option (string * (string * Q))) : string :=
  match o with
  | Some (_, (text, _)) => text
  | None => ""
  end.

Ltac swallowed :=
  eexists; split; [reflexivity|]; split;
  [ intros _; eexists; simpl; rewrite <- ?app_assoc;
    rewrite drop_log; simpl; eauto 12
  | simpl; try reflexivity ].

Lemma solve_from_file_spec (image_path : string) (save_processed : bool)
    (s : solver) :
  exists s',
    solve_from_file image_path save_processed s
    = (Ok (solved_text
             (file_outcome image_path save_processed (processing_steps s))),
       s')
    /\ (file_outcome image_path save_processed (processing_steps s) = None
        -> logged_error s s')
    /\ processing_steps s' = processing_steps s.
Proof.
  unfold solve_from_file, file_outcome, logged_error, try_except,
    with_Timer, bind, lift.
  destruct s as [i0 c0 r0 h0 st0 ck0 lg0]; simpl.
  destruct (validate_image_path image_path) as [vp|e]; simpl;
    [|swallowed].
  destruct (Image_open vp) as [image|e]; simpl; [|swallowed].
  edestruct (_solve_image_spec image vp save_processed)
    as (s1 & -> & Hst & (l & Hl & Herr) & _).
  simpl in *. destruct s1 as [i1 c1 r1 h1 st1 ck1 lg1]; simpl in *.
  subst st1 lg1.
  destruct (stages image save_processed st0) as [[hash [text conf]]|e];
    simpl in *.
  - eexists; split; [reflexivity|]; split; [discriminate|reflexivity].
  - destruct (Herr eq_refl) as [msg Hmsg].
    eexists; split; [reflexivity|]; split; [|reflexivity].
    intros _. exists msg. simpl. rewrite <- !app_assoc, drop_log.
    apply in_or_app. right. apply in_or_app. left. exact Hmsg.
Qed.

Ltac through_solve_image image src save_processed st0 :=
  let s1 := fresh "s1" in
  let Hst := fresh "Hst" in
  let l := fresh "l" in
  let Hl := fresh "Hl" in
  let Herr := fresh "Herr" in
  let msg := fresh "msg" in
  let Hmsg := fresh "Hmsg" in
  edestruct (_solve_image_spec image src save_processed)
    as (s1 & -> & Hst & (l & Hl & Herr) & _);
  simpl in *; destruct s1; simpl in *; subst;
  destruct (stages image save_processed st0) as [[? [? ?]]|?]; simpl in *;
  [ eexists; split; [reflexivity|discriminate]
  | destruct (Herr eq_refl) as [msg Hmsg];
    eexists; split; [reflexivity|];
    intros _; exists msg; simpl; rewrite <- !app_assoc, drop_log;
    apply in_or_app; right; apply in_or_app; left; exact Hmsg ].

Lemma solve_from_url_spec (url : string) (selectors : option (list string))
    (save_processed : bool) (s : solver) :
  exists s',
    solve_from_url url selectors save_processed s
    = (Ok (solved_text
             (url_outcome url selectors save_processed (processing_steps s))),
       s')
    /\ (url_outcome url selectors save_processed (processing_steps s) = None
        -> logged_error s s').
Proof.
  unfold solve_from_url, url_outcome, logged_error, try_except,
    with_Timer, bind, lift.
  destruct s as [i0 c0 r0 h0 st0 ck0 lg0]; simpl.
  destruct (extract_from_url url selectors) as [[image|]|e]; simpl.
  - through_solve_image image url save_processed st0.
  - eexists; split; [reflexivity|]. intros _; eexists; simpl.
    rewrite <- ?app_assoc, drop_log; simpl; eauto.
  - eexists; split; [reflexivity|]. intros _; eexists; simpl.
    rewrite <- ?app_assoc, drop_log; simpl; eauto.
Qed.

Lemma solve_from_element_spec (web_element : WebElement)
    (driver : option (result string)) (save_processed : bool) (s : solver) :
  exists s',
    solve_from_element web_element driver save_processed s
    = (Ok (solved_text
             (element_outcome web_element driver save_processed
                (processing_steps s))),
       s')
    /\ (element_outcome web_element driver save_processed (processing_steps s)
        = None -> logged_error s s').
Proof.
  unfold solve_from_element, element_outcome, logged_error, try_except,
    with_Timer, bind, lift.
  destruct s as [i0 c0 r0 h0 st0 ck0 lg0]; simpl.
  destruct (extract_from_element web_element driver) as [[image|]|e]; simpl.
  - destruct driver as [[current_url|e]|]; simpl.
    + through_solve_image image current_url save_processed st0.
    + eexists; split; [reflexivity|]. intros _; eexists; simpl.
      rewrite <- ?app_assoc, drop_log; simpl; eauto.
    + through_solve_image image "WebElement" save_processed st0.
  - eexists; split; [reflexivity|]. intros _; eexists; simpl.
    rewrite <- ?app_assoc, drop_log; simpl; eauto.
  - eexists; split; [reflexivity|]. intros _; eexists; simpl.
    rewrite <- ?app_assoc, drop_log; simpl; eauto.
Qed.


Lemma file_outcome_missing (image_path : string) (save_processed : bool)
    (steps : list string) :
  path_exists (Path_of image_path) = false ->
  file_outcome image_path save_processed steps = None.
Proof.
  intros H. unfold file_outcome, validate_image_path. rewrite H. reflexivity.
Qed.

(** What [solve_batch] reports for one path. *)
Definition reported (image_path : string) (e : batch_entry) : Prop :=
  entry_path e = image_path
  /\ error e = None
  /\ (path_exists (Path_of image_path) = false ->
      success e = false /\ entry_result e = "").

Lemma solve_batch_loop_spec (save_processed : bool) (start : Q)
    (image_paths : list string) :
  forall (results : list batch_entry) (s : solver),
  exists entries s',
    solve_batch_loop start image_paths save_processed results s
    = (Ok (results ++ entries), s')
    /\ Forall2 reported image_paths entries.
Proof.
  induction image_paths as [|image_path rest IH]; intros results s.
  - exists [], s. simpl. rewrite app_nil_r. split; [reflexivity|constructor].
  - simpl. unfold bind at 1. simpl. unfold bind at 1.
    unfold try_except at 1. unfold bind at 1.
    match goal with
    | |- context [solve_from_file image_path save_processed ?st] =>
        destruct (solve_from_file_spec image_path save_processed st)
          as (s1 & Hsolve & _ & Hsteps)
    end.
    simpl in Hsolve. rewrite Hsolve. simpl.
    match goal with
    | |- context [solve_batch_loop start rest save_processed ?r ?st] =>
        destruct (IH r st) as (entries & s' & -> & Hall)
    end.
    eexists (_ :: entries), s'. split.
    + rewrite <- app_assoc. reflexivity.
    + constructor; [|exact Hall].
      repeat split; simpl.
      * rewrite file_outcome_missing by assumption. reflexivity.
      * rewrite file_outcome_missing by assumption. reflexivity.
Qed.

(** C1. Whatever the image source, [solve_from_file], [solve_from_url] and
    [solve_from_element] return a string and never raise; when a stage fails
    (the path is refused, the image cannot be opened or extracted, hashing,
    saving, preprocessing or recognition raises) the string is empty and an
    error has been logged; when every stage goes through it is the
    recognized text. *)
Theorem solve_never_raises (save_processed : bool) (s : solver) :
  (forall image_path,
     let outcome :=
       file_outcome image_path save_processed (processing_steps s) in
     exists text s',
       solve_from_file image_path save_processed s = (Ok text, s')
       /\ (outcome = None -> text = "" /\ logged_error s s')
       /\ (forall hash t conf, outcome = Some (hash, (t, conf)) -> text = t))
  /\ (forall url selectors,
        let outcome :=
          url_outcome url selectors save_processed (processing_steps s) in
        exists text s',
          solve_from_url url selectors save_processed s = (Ok text, s')
          /\ (outcome = None -> text = "" /\ logged_error s s')
          /\ (forall hash t conf,
                outcome = Some (hash, (t, conf)) -> text = t))
  /\ (forall web_element driver,
        let outcome :=
          element_outcome web_element driver save_processed
            (processing_steps s) in
        exists text s',
          solve_from_element web_element driver save_processed s
          = (Ok text, s')
          /\ (outcome = None -> text = "" /\ logged_error s s')
          /\ (forall hash t conf,
                outcome = Some (hash, (t, conf)) -> text = t)).
Proof.
  split; [|split].
  - intros image_path outcome.
    destruct (solve_from_file_spec image_path save_processed s)
      as (s' & Hrun & Hlog & _).
    fold outcome in Hrun, Hlog. exists (solved_text outcome), s'.
    split; [exact Hrun|]. split.
    + intros Hnone. split; [rewrite Hnone; reflexivity|auto].
    + intros hash t conf ->. reflexivity.
  - intros url selectors outcome.
    destruct (solve_from_url_spec url selectors save_processed s)
      as (s' & Hrun & Hlog).
    fold outcome in Hrun, Hlog. exists (solved_text outcome), s'.
    split; [exact Hrun|]. split.
    + intros Hnone. split; [rewrite Hnone; reflexivity|auto].
    + intros hash t conf ->. reflexivity.
  - intros web_element driver outcome.
    destruct (solve_from_element_spec web_element driver save_processed s)
      as (s' & Hrun & Hlog).
    fold outcome in Hrun, Hlog. exists (solved_text outcome), s'.
    split; [exact Hrun|]. split.
    + intros Hnone. split; [rewrite Hnone; reflexivity|auto].
    + intros hash t conf ->. reflexivity.
Qed.

(** C5. [solve_batch] returns one entry per input path, in order, and does
    not raise; but no entry ever carries an error: [solve_from_file] has
    already swallowed the exception, so the [except] branch that would fill
    ["error"] is never taken.  The entry of a missing file has
    [success = false], an empty result and no error field. *)
Theorem solve_batch_never_reports_error (image_paths : list string)
    (save_processed : bool) (s : solver) :
  exists entries s',
    solve_batch image_paths save_processed s = (Ok entries, s')
    /\ length entries = length image_paths
    /\ Forall2 reported image_paths entries.
Proof.
  unfold solve_batch, bind, with_Timer. simpl.
  match goal with
  | |- context [solve_batch_loop ?st image_paths save_processed [] ?s0] =>
      destruct (solve_batch_loop_spec save_processed st image_paths [] s0)
        as (entries & s' & -> & Hall)
  end.
  simpl. eexists entries, _. split; [reflexivity|]. split; [|exact Hall].
  symmetry. eapply Forall2_length. exact Hall.
Qed.

(** *** The history after a solve from an entry point *)












(** *** What the getters return after a solve *)

Definition get_confidence (s : solver) : Q := last_confidence s.
Definition get_processed_image (s : solver) : option Image :=
  last_processed_image s.









End Orchestrator.

(** *** A concrete world: every stage succeeds, the recognizer reads
    ["HELLO"] at confidence 90, and no file exists on disk. *)

Definition demo_solver : solver unit :=
  mk_solver unit None 0 "" [] ["grayscale"; "denoise"; "threshold"] 0 [].

Definition demo_solve_image : M unit string :=
  _solve_image unit (fun _ => Ok []) (fun _ _ => Ok tt) (fun _ => "d41d8cd9")
    (fun _ i => Ok i) (fun _ => Ok ("HELLO", 90%Q))
    (fun n => inject_Z (Z.of_nat n)) 60%Q tt "captcha.png" false.

Example demo_solve_image_history :
  map source (processing_history unit (snd (demo_solve_image demo_solver)))
  = ["captcha.png"].
Proof. reflexivity. Qed.

(** *** A small pathlib (POSIX flavour): [str(Path(p))] *)

(** [p.split('/')] *)
Fixpoint components (p : string) : list string :=
  match p with
  | EmptyString => [EmptyString]
  | String c p' =>
      if Ascii.eqb c "/" then EmptyString :: components p'
      else
        match components p' with
        | [] => [String c EmptyString]
        | first :: rest => String c first :: rest
        end
  end.

Fixpoint leading_slashes (p : string) : nat :=
  match p with
  | String c p' => if Ascii.eqb c "/" then S (leading_slashes p') else 0
  | EmptyString => 0
  end.

(** The root: one slash, or two when the path starts with exactly two. *)
Definition root_of (p : string) : string :=
  match leading_slashes p with
  | 0 => ""
  | 2 => "//"
  | _ => "/"
  end.

(** Empty components and single dots are dropped. *)
Definition kept (component : string) : bool :=
  negb (String.eqb component "" || String.eqb component ".").

Definition posix_path_str (p : string) : string :=
  let parts := List.filter kept (components p) in
  match root_of p, parts with
  | EmptyString, [] => "."
  | root, _ => (root ++ String.concat "/" parts)%string
  end.

Example posix_path_str_examples :
  map posix_path_str
    ["img.png"; "./img.png"; "a//b/./c.png"; "/tmp/x.png"; "//srv/x"; "";
     "a/../b"]
  = ["img.png"; "img.png"; "a/b/c.png"; "/tmp/x.png"; "//srv/x"; ".";
     "a/../b"].
Proof. reflexivity. Qed.

(** *** A concrete world for the entry point: the disk holds one file,
    [img.png], and the recognizer reads ["HELLO"] at confidence 90 *)

Definition on_disk (path : string) : bool := String.eqb path "img.png".

Definition demo_solve_from_file (image_path : string) : M unit string :=
  solve_from_file unit posix_path_str on_disk on_disk
    (fun path => if on_disk path then ".png" else "")
    (fun _ => Ok tt) (fun _ => Ok []) (fun _ _ => Ok tt)
    (fun _ => "d41d8cd9") (fun _ i => Ok i) (fun _ => Ok ("HELLO", 90%Q))
    (fun n => inject_Z (Z.of_nat n)) 60%Q image_path false.

(** A solver whose history is full: 100 records, stamped 0 to 99. *)
Definition old_record (n : nat) : processing_record :=
  mk_record (inject_Z (Z.of_nat n)) "old.png" "0cc175b9" "OLD" 80 [].

Definition full_solver : solver unit :=
  mk_solver unit None 80 "OLD" (map old_record (seq 0 100))
    ["grayscale"; "denoise"; "threshold"] 200 [].

(** The full history after one more solve: still 100 records, the one
    stamped 0 gone, the new one last. *)
Example full_history_drops_oldest :
  processing_history unit
    (snd (demo_solve_from_file "./img.png" full_solver))
  = map old_record (seq 1 99)
    ++ [mk_record (inject_Z 205) "img.png" "d41d8cd9" "HELLO" 90
          ["grayscale"; "denoise"; "threshold"]].
Proof. reflexivity. Qed.



(** [solve_batch(["missing.png"])] where no file exists. *)
Definition demo_batch_missing : result (list batch_entry) :=
  fst (solve_batch unit (fun p => p) (fun _ => false) (fun _ => true)
         (fun _ => ".png") (fun _ => Ok tt) (fun _ => Ok [])
         (fun _ _ => Ok tt) (fun _ => "d41d8cd9") (fun _ i => Ok i)
         (fun _ => Ok ("HELLO", 90%Q)) (fun _ => 0%Q) 60%Q
         ["missing.png"] false demo_solver).

Example demo_batch_missing_entry :
  demo_batch_missing
  = Ok [mk_entry "missing.png" "" 0 false None (0 - 0)].
Proof. reflexivity. Qed.

End Solver.

(** ** ocr.py: confidence scoring and the multi-configuration search *)

Module Ocr.

Local Open Scope Q_scope.

(** The two columns of [pytesseract.image_to_data(..., Output.DICT)] the
    handler reads: [data['text']] and [data['conf']].  Confidences are
    numbers; they are kept exact here (rationals), where Python has ints or
    floats. *)
Record tess_data : Type := mk_data {
  text : list string;
  conf : list Q
}.

(** [str.isprintable] on the ASCII range. *)
Definition isprintable (c : ascii) : bool :=
  let n := nat_of_ascii c in Nat.leb 32 n && Nat.leb n 126.

Fixpoint filter_chars (keep : ascii -> bool) (s : string) : string :=
  match s with
  | EmptyString => EmptyString
  | String c s' =>
      if keep c then String c (filter_chars keep s') else filter_chars keep s'
  end.

(** [re.sub(r'\s+', ' ', text)]: every maximal run of whitespace becomes one
    space. *)
Fixpoint collapse_whitespace (s : string) : string :=
  match s with
  | EmptyString => EmptyString
  | String c s' =>
      if isspace c then String " " (lstrip (collapse_whitespace s'))
      else String c (collapse_whitespace s')
  end.

Definition is_artifact (c : ascii) : bool :=
  existsb (Ascii.eqb c) (list_ascii_of_string "|\/_~`").

(** utils.clean_text *)
Definition clean_text (s : string) : string :=
  if negb (truthy s) then ""
  else
    let s := filter_chars isprintable s in
    let s := strip (collapse_whitespace s) in
    filter_chars (fun c => negb (is_artifact c)) s.

(** [' '.join(parts)] *)
Fixpoint join_spaces (parts : list string) : string :=
  match parts with
  | [] => ""
  | [p] => p
  | p :: rest => (p ++ " " ++ join_spaces rest)%string
  end.

(** [sum(...)] and the mean the handler computes. *)
Definition Qsum (l : list Q) : Q := fold_right Qplus 0 l.

(** [a > b] on numbers. *)
Definition Qgt_bool (a b : Q) : bool :=
  if Qlt_le_dec b a then true else false.

Definition positive (c : Q) : bool := Qgt_bool c 0.

Definition non_negative (c : Q) : bool := Qle_bool 0 c.

(** The arithmetic mean of a list, 0 for the empty list. *)
Definition mean (l : list Q) : Q :=
  match l with
  | [] => 0
  | _ => Qsum l / inject_Z (Z.of_nat (length l))
  end.

(** The attributes of an [OCRHandler]. *)
Record handler : Type := mk_handler {
  default_config : string;
  last_confidence : Q;
  last_result : string
}.

(** OCRHandler.get_confidence *)
Definition get_confidence (h : handler) : Q := last_confidence h.

(** The fixed list tried by [recognize_with_multiple_configs]. *)
Definition configs : list string :=
  [ "--psm 8 -c tessedit_char_whitelist=0123456789ABCDEFGHIJKLMNOPQRSTUVWXYZabcdefghijklmnopqrstuvwxyz";
    "--psm 7 -c tessedit_char_whitelist=0123456789ABCDEFGHIJKLMNOPQRSTUVWXYZabcdefghijklmnopqrstuvwxyz";
    "--psm 6 -c tessedit_char_whitelist=0123456789ABCDEFGHIJKLMNOPQRSTUVWXYZabcdefghijklmnopqrstuvwxyz";
    "--psm 8";
    "--psm 7";
    "--psm 13" ].

Section Recognizer.

Variable Image : Type.

(** [pytesseract.image_to_data(image, config=config, output_type=DICT)]. *)
Variable image_to_data : Image -> string -> result tess_data.

(** [unicodedata.normalize('NFKD', text).encode('ascii', 'ignore')
    .decode('ascii')]. *)
Variable nfkd_ascii : string -> string.

(** OCRHandler._clean_ocr_result; the replacement table it builds is never
    applied. *)
Definition _clean_ocr_result (s : string) : string :=
  if negb (truthy s) then ""
  else
    let s := nfkd_ascii s in
    let s := clean_text s in
    filter_chars (fun c => negb (Ascii.eqb c " ")) s.

(** The loop over [enumerate(data['text'])]: the words that are not blank
    and, for each, [data['conf'][i]]; an index past the end of
    [data['conf']] raises. *)
Fixpoint collect (words : list string) (i : nat) (confs : list Q)
    (text_parts : list string) (confidences : list Q)
    : result (list string * list Q) :=
  match words with
  | [] => Ok (text_parts, confidences)
  | word :: rest =>
      if truthy (strip word) then
        match nth_error confs i with
        | Some c =>
            collect rest (S i) confs (text_parts ++ [word])
              (confidences ++ [c])
        | None => Raise (Exception "list index out of range")
        end
      else collect rest (S i) confs text_parts confidences
  end.

(** The confidence assignment of [recognize_text]. *)
Definition average_confidence (confidences : list Q) : Q :=
  match confidences with
  | [] => 0
  | _ =>
      if existsb positive confidences then
        Qsum (List.filter positive confidences)
        / inject_Z (Z.of_nat (length (List.filter positive confidences)))
      else 0
  end.

(** [custom_config or self.default_config] *)
Definition config_of (custom_config : option string) (h : handler) : string :=
  match custom_config with
  | Some c => if truthy c then c else default_config h
  | None => default_config h
  end.

(** OCRHandler.recognize_text: the [try] body as a fallible computation, the
    [except] branch resetting both attributes. *)
Definition recognize_text (image : Image) (custom_config : option string)
    (h : handler) : string * handler :=
  let attempt :=
    match image_to_data image (config_of custom_config h) with
    | Raise e => Raise e
    | Ok data =>
        match collect (text data) 0 (conf data) [] [] with
        | Raise e => Raise e
        | Ok (text_parts, confidences) =>
            let raw_text := join_spaces text_parts in
            Ok (_clean_ocr_result raw_text, average_confidence confidences)
        end
    end in
  match attempt with
  | Ok (cleaned_text, confidence) =>
      (cleaned_text, mk_handler (default_config h) confidence cleaned_text)
  | Raise _ => ("", mk_handler (default_config h) 0 "")
  end.

(** The loop of [recognize_with_multiple_configs]; [recognize_text] catches
    every exception itself, so the loop's own [except] is never entered. *)
Fixpoint try_configs (image : Image) (cfgs : list string)
    (best_text : string) (best_confidence : Q) (h : handler)
    : (string * Q) * handler :=
  match cfgs with
  | [] => ((best_text, best_confidence), h)
  | config :: rest =>
      let '(t, h1) := recognize_text image (Some config) h in
      let confidence := last_confidence h1 in
      if Qgt_bool confidence best_confidence && truthy (strip t)
      then try_configs image rest t confidence h1
      else try_configs image rest best_text best_confidence h1
  end.

(** OCRHandler.recognize_with_multiple_configs *)
Definition recognize_with_multiple_configs (image : Image) (h : handler)
    : (string * Q) * handler :=
  let '((best_text, best_confidence), h1) :=
    try_configs image configs "" 0 h in
  ((best_text, best_confidence),
   mk_handler (default_config h1) best_confidence best_text).

(** *** What a call of [recognize_text] yields, handler apart *)

(** The words that are not blank, with their confidences. *)
Definition tokens (data : tess_data) : result (list string * list Q) :=
  collect (text data) 0 (conf data) [] [].

(** The text and confidence one configuration yields. *)
Definition attempt (image : Image) (config : string) : string * Q :=
  match image_to_data image config with
  | Raise _ => ("", 0)
  | Ok data =>
      match tokens data with
      | Raise _ => ("", 0)
      | Ok (text_parts, confidences) =>
          (_clean_ocr_result (join_spaces text_parts),
           mean (List.filter positive confidences))
      end
  end.

Definition attempts (image : Image) : list (string * Q) :=
  map (attempt image) configs.

(** The scan of [recognize_with_multiple_configs] over the attempts. *)
Fixpoint scan (l : list (string * Q)) (best : string * Q) : string * Q :=
  match l with
  | [] => best
  | a :: rest =>
      if Qgt_bool (snd a) (snd best) && truthy (strip (fst a))
      then scan rest a else scan rest best
  end.

(** [r] is the earliest of the eligible attempts of highest confidence, or
    the empty result when no attempt is eligible. *)
Definition selects (eligible : string * Q -> bool) (l : list (string * Q))
    (r : string * Q) : Prop :=
  (r = ("", 0) /\ forall a, In a l -> eligible a = false)
  \/ (exists pre post,
        l = pre ++ r :: post
        /\ eligible r = true
        /\ (forall a, In a pre -> eligible a = true -> snd a < snd r)
        /\ (forall a, In a post -> eligible a = true -> snd a <= snd r)).

(** Eligibility as the specification words it: the text is not empty. *)
Definition has_text (a : string * Q) : bool := truthy (fst a).

(** Eligibility as the loop tests it: the text is not blank and the
    confidence is above zero. *)
Definition has_text_and_confidence (a : string * Q) : bool :=
  truthy (strip (fst a)) && positive (snd a).

Lemma average_confidence_mean (confidences : list Q) :
  average_confidence confidences = mean (List.filter positive confidences).
Proof.
  unfold average_confidence, mean.
  destruct confidences as [|c l]; [reflexivity|].
  destruct (existsb positive (c :: l)) eqn:E.
  - destruct (List.filter positive (c :: l)) eqn:F; [|reflexivity].
    apply existsb_exists in E. destruct E as (x & Hin & Hx).
    assert (Hf : In x (List.filter positive (c :: l))).
    { apply filter_In. split; assumption. }
    rewrite F in Hf. destruct Hf.
  - destruct (List.filter positive (c :: l)) as [|y l'] eqn:F; [reflexivity|].
    assert (Hy : In y (List.filter positive (c :: l))) by (rewrite F; left; reflexivity).
    apply filter_In in Hy. destruct Hy as [Hin Hy].
    assert (existsb positive (c :: l) = true).
    { apply existsb_exists. exists y. split; assumption. }
    congruence.
Qed.

Lemma recognize_text_attempt (image : Image) (custom_config : option string)
    (h : handler) :
  recognize_text image custom_config h
  = (fst (attempt image (config_of custom_config h)),
     mk_handler (default_config h)
       (snd (attempt image (config_of custom_config h)))
       (fst (attempt image (config_of custom_config h)))).
Proof.
  unfold recognize_text, attempt, tokens.
  destruct (image_to_data image (config_of custom_config h)) as [data|e];
    [|reflexivity].
  destruct (collect (text data) 0 (conf data) [] []) as [[tp cs]|e];
    [|reflexivity].
  simpl. rewrite average_confidence_mean. reflexivity.
Qed.

Lemma try_configs_scan (image : Image) (cfgs : list string) :
  Forall (fun c => truthy c = true) cfgs ->
  forall best_text best_confidence h,
    fst (try_configs image cfgs best_text best_confidence h)
    = scan (map (attempt image) cfgs) (best_text, best_confidence).
Proof.
  induction 1 as [|config rest Hc _ IH]; intros bt bc h; simpl.
  - reflexivity.
  - rewrite recognize_text_attempt. simpl. rewrite Hc. simpl.
    destruct (Qgt_bool _ bc && _).
    + rewrite IH. destruct (attempt image config). reflexivity.
    + apply IH.
Qed.

Lemma configs_not_empty : Forall (fun c => truthy c = true) configs.
Proof. repeat constructor. Qed.

Lemma Qgt_bool_true (a b : Q) : Qgt_bool a b = true -> b < a.
Proof. unfold Qgt_bool. destruct (Qlt_le_dec b a); [auto|discriminate]. Qed.

Lemma Qgt_bool_false (a b : Q) : Qgt_bool a b = false -> a <= b.
Proof. unfold Qgt_bool. destruct (Qlt_le_dec b a); [discriminate|auto]. Qed.

Lemma scan_earliest_maximum (l : list (string * Q)) :
  forall best,
    let r := scan l best in
    (r = best
     /\ forall a, In a l -> truthy (strip (fst a)) = true -> snd a <= snd best)
    \/ (exists pre post,
          l = pre ++ r :: post
          /\ truthy (strip (fst r)) = true
          /\ snd best < snd r
          /\ (forall a, In a pre -> truthy (strip (fst a)) = true ->
                snd a < snd r)
          /\ (forall a, In a post -> truthy (strip (fst a)) = true ->
                snd a <= snd r)).
Proof.
  induction l as [|a rest IH]; intros best; simpl.
  - left. split; [reflexivity|]. intros a [].
  - destruct (Qgt_bool (snd a) (snd best)) eqn:Hgt; simpl.
    + apply Qgt_bool_true in Hgt.
      destruct (truthy (strip (fst a))) eqn:Hts.
      * destruct (IH a) as [[Hr Hall]|(pre & post & Hl & Ht & Hlt & Hpre & Hpost)].
        -- right. exists [], rest. rewrite Hr. simpl.
           repeat split; try assumption. intros x [].
        -- right. exists (a :: pre), post. rewrite Hl at 1. simpl.
           repeat split; try assumption.
           ++ eapply Qlt_trans; eassumption.
           ++ intros x [<-|Hin] Hx; [assumption|auto].
      * destruct (IH best) as [[Hr Hall]|(pre & post & Hl & Ht & Hlt & Hpre & Hpost)].
        -- left. split; [assumption|].
           intros x [<-|Hin] Hx; [congruence|auto].
        -- right. exists (a :: pre), post. rewrite Hl at 1. simpl.
           repeat split; try assumption.
           intros x [<-|Hin] Hx; [congruence|auto].
    + apply Qgt_bool_false in Hgt.
      destruct (IH best) as [[Hr Hall]|(pre & post & Hl & Ht & Hlt & Hpre & Hpost)].
      * left. split; [assumption|].
        intros x [<-|Hin] Hx; [assumption|auto].
      * right. exists (a :: pre), post. rewrite Hl at 1. simpl.
        repeat split; try assumption.
        intros x [<-|Hin] Hx; [|auto].
        eapply Qle_lt_trans; eassumption.
Qed.

(** *** The confidence, from what the engine reported *)

(** A token is blank when its text has no character other than
    whitespace. *)
Definition blank (word : string) : bool :=
  forallb isspace (list_ascii_of_string word).

(** The tokens the engine reported: each text with its confidence. *)
Definition reported_tokens (data : tess_data) : list (string * Q) :=
  combine (text data) (conf data).

(** A token that is not blank lies past the end of the confidence
    column. *)
Definition confidence_missing (data : tess_data) : bool :=
  existsb (fun word => negb (blank word))
    (skipn (length (conf data)) (text data)).

(** The tokens that count: not blank, confidence above zero. *)
Definition counted (token : string * Q) : bool :=
  negb (blank (fst token)) && positive (snd token).

Lemma truthy_lstrip (s : string) : truthy (lstrip s) = negb (blank s).
Proof.
  unfold blank. induction s as [|c s IH]; [reflexivity|].
  cbn [lstrip list_ascii_of_string forallb].
  destruct (isspace c); [exact IH|reflexivity].
Qed.

Lemma truthy_rstrip (s : string) : truthy (rstrip s) = negb (blank s).
Proof.
  unfold blank. induction s as [|c s IH]; [reflexivity|].
  cbn [rstrip list_ascii_of_string forallb].
  destruct (rstrip s) as [|a r].
  - destruct (isspace c); [exact IH|reflexivity].
  - cbn [truthy] in *.
    destruct (forallb isspace (list_ascii_of_string s));
      [discriminate IH|].
    rewrite andb_false_r. reflexivity.
Qed.

Lemma blank_lstrip (s : string) : blank (lstrip s) = blank s.
Proof.
  unfold blank. induction s as [|c s IH]; [reflexivity|].
  cbn [lstrip]. destruct (isspace c) eqn:E.
  - rewrite IH. cbn [list_ascii_of_string forallb]. rewrite E. reflexivity.
  - reflexivity.
Qed.

Lemma truthy_strip (word : string) :
  truthy (strip word) = negb (blank word).
Proof. unfold strip. rewrite truthy_rstrip, blank_lstrip. reflexivity. Qed.

Lemma nth_error_head_skipn {A} (l : list A) :
  forall i, nth_error l i = hd_error (skipn i l).
Proof.
  induction l as [|x l IH]; intros [|i]; try reflexivity. apply IH.
Qed.

Lemma skipn_succ_tail {A} (l : list A) :
  forall i, skipn (S i) l = tl (skipn i l).
Proof.
  induction l as [|x l IH]; intros [|i]; try reflexivity.
  change (skipn (S (S i)) (x :: l)) with (skipn (S i) l).
  change (skipn (S i) (x :: l)) with (skipn i l). apply IH.
Qed.

(** The loop of [recognize_text], read off the two columns: it raises when
    a token that is not blank has no confidence, and otherwise keeps the
    texts that are not blank and the confidences beside them. *)
Lemma collect_tokens (confs : list Q) (words : list string) :
  forall i text_parts confidences,
    collect words i confs text_parts confidences
    = if existsb (fun word => negb (blank word))
           (skipn (length (skipn i confs)) words)
      then Raise (Exception "list index out of range")
      else
        Ok (text_parts ++ List.filter (fun word => negb (blank word)) words,
            confidences
            ++ map snd
                 (List.filter (fun token => negb (blank (fst token)))
                    (combine words (skipn i confs)))).
Proof.
  induction words as [|word rest IH]; intros i tp cs.
  - cbn [collect]. rewrite skipn_nil. cbn. rewrite !app_nil_r. reflexivity.
  - cbn [collect]. rewrite truthy_strip, nth_error_head_skipn.
    specialize (IH (S i)). rewrite skipn_succ_tail in IH.
    destruct (skipn i confs) as [|c later]; cbn [hd_error tl length] in *.
    + rewrite skipn_O in *. rewrite combine_nil in IH.
      cbn [existsb combine List.filter].
      destruct (blank word) eqn:B; cbn [negb orb]; [|reflexivity].
      exact (IH tp cs).
    + rewrite skipn_cons. cbn [combine List.filter fst].
      destruct (blank word) eqn:B; cbn [negb]; rewrite IH.
      * reflexivity.
      * destruct (existsb _ (skipn (length later) rest)); [reflexivity|].
        cbn [map snd]. rewrite <- !app_assoc. reflexivity.
Qed.

Lemma filter_positive_counted (l : list (string * Q)) :
  List.filter positive
    (map snd (List.filter (fun token => negb (blank (fst token))) l))
  = map snd (List.filter counted l).
Proof.
  induction l as [|[word c] l IH]; [reflexivity|].
  unfold counted in *. cbn [List.filter fst snd].
  destruct (blank word); cbn [negb andb]; [exact IH|].
  cbn [map snd List.filter]. destruct (positive c); cbn [map snd];
    rewrite IH; reflexivity.
Qed.

(** C3 (as the code has it). The confidence [recognize_text] records is the
    arithmetic mean of the confidences that are strictly above zero among
    the tokens the engine reported whose text is not blank; it is 0 when
    there is none, when the engine reports no confidence at all, when a
    token that is not blank has no confidence, and when the engine raises. *)
Theorem recorded_confidence_is_mean_of_positive (image : Image)
    (custom_config : option string) (h : handler) :
  let recorded :=
    get_confidence (snd (recognize_text image custom_config h)) in
  recorded
  = match image_to_data image (config_of custom_config h) with
    | Raise _ => 0
    | Ok data =>
        if confidence_missing data then 0
        else mean (map snd (List.filter counted (reported_tokens data)))
    end
  /\ (forall data,
        image_to_data image (config_of custom_config h) = Ok data ->
        conf data = [] -> recorded = 0).
Proof.
  intros recorded.
  assert (Hrecorded :
    recorded
    = match image_to_data image (config_of custom_config h) with
      | Raise _ => 0
      | Ok data =>
          if confidence_missing data then 0
          else mean (map snd (List.filter counted (reported_tokens data)))
      end).
  { subst recorded. rewrite recognize_text_attempt.
    unfold get_confidence, attempt, tokens. cbn [snd last_confidence].
    destruct (image_to_data image (config_of custom_config h)) as [data|e];
      [|reflexivity].
    rewrite collect_tokens, skipn_O. cbn [app].
    unfold confidence_missing, reported_tokens.
    destruct (existsb _ (skipn (length (conf data)) (text data)));
      [reflexivity|].
    cbn [snd]. rewrite filter_positive_counted. reflexivity. }
  split; [exact Hrecorded|].
  intros data Hdata Hconf. rewrite Hrecorded, Hdata.
  unfold reported_tokens. rewrite Hconf.
  destruct (confidence_missing data); [reflexivity|].
  destruct (text data); reflexivity.
Qed.

(** C4 (as the code has it). [recognize_with_multiple_configs] returns the
    attempt, over its six configurations in order, whose text is not blank
    and whose confidence is above zero and highest; of several with that
    confidence it returns the earliest; when no attempt has both, it returns
    the empty text with confidence 0. *)
Theorem best_attempt_with_positive_confidence (image : Image) (h : handler) :
  length (attempts image) = 6%nat
  /\ selects has_text_and_confidence (attempts image)
       (fst (recognize_with_multiple_configs image h)).
Proof.
  split; [reflexivity|].
  unfold recognize_with_multiple_configs.
  pose proof (try_configs_scan image configs configs_not_empty "" 0 h) as Hs.
  destruct (try_configs image configs "" 0 h) as [[bt bc] h1].
  cbn [fst] in Hs. cbn [fst]. rewrite Hs. fold (attempts image).
  pose proof (scan_earliest_maximum (attempts image) ("", 0)) as Hsel.
  cbv zeta in Hsel. remember (scan (attempts image) ("", 0)) as r eqn:Er.
  clear Er Hs.
  destruct Hsel as [[Hr Hall]|(pre & post & Hl & Ht & Hlt & Hpre & Hpost)].
  - left. split; [exact Hr|].
    intros a Hin. unfold has_text_and_confidence.
    destruct (truthy (strip (fst a))) eqn:Hta; [|reflexivity].
    simpl. unfold positive, Qgt_bool.
    destruct (Qlt_le_dec 0 (snd a)) as [Hpos|]; [|reflexivity].
    exfalso. apply (Qlt_irrefl 0).
    eapply Qlt_le_trans; [exact Hpos|]. apply (Hall a Hin Hta).
  - right. exists pre, post. split; [exact Hl|].
    unfold has_text_and_confidence. split.
    + rewrite Ht. simpl. unfold positive, Qgt_bool.
      simpl in Hlt. destruct (Qlt_le_dec 0 _) as [|Hle]; [reflexivity|].
      exfalso. apply (Qlt_irrefl 0). eapply Qlt_le_trans; eassumption.
    + split.
      * intros a Hin Ha. apply andb_prop in Ha. apply Hpre; tauto.
      * intros a Hin Ha. apply andb_prop in Ha. apply Hpost; tauto.
Qed.
End Recognizer.

(** *** Two engines to run the handler on *)

Definition fresh_handler : handler := mk_handler "--psm 8" 0 "".

(** Two words, the first reported at confidence 0, the second at 50. *)
Definition engine_zero_and_fifty (_ : unit) (_ : string) : result tess_data :=
  Ok (mk_data ["ab"; "cd"] [0; 50]).

(** One word, reported at confidence 0, under every configuration. *)
Definition engine_zero (_ : unit) (_ : string) : result tess_data :=
  Ok (mk_data ["ab"] [0]).

(** The confidence the specification words: the mean of the reported values
    that are not negative. *)
Definition mean_of_non_negative (data : tess_data) : Q :=
  mean (List.filter non_negative (conf data)).

Example recognize_zero_and_fifty :
  recognize_text unit engine_zero_and_fifty (fun s => s) tt None fresh_handler
  = ("abcd", mk_handler "--psm 8" ((50 + 0) / inject_Z 1) "abcd").
Proof. reflexivity. Qed.

(** A blank token reported at confidence 90, then a word at 50. *)
Definition engine_blank_and_fifty (_ : unit) (_ : string)
    : result tess_data :=
  Ok (mk_data [" "; "cd"] [90; 50]).

Example recognize_blank_and_fifty :
  recognize_text unit engine_blank_and_fifty (fun s => s) tt None
    fresh_handler
  = ("cd", mk_handler "--psm 8" ((50 + 0) / inject_Z 1) "cd").
Proof. reflexivity. Qed.

(** C3, as stated, fails twice over.  With confidences 0 and 50 the handler
    records 50, where the mean of the non-negative values is 25: a token
    reported at 0 is left out.  With a blank token at 90 and a word at 50
    the handler records 50, where the mean of the non-negative values is
    70: the confidence of a blank token is left out. *)
Lemma confidence_is_not_mean_of_non_negative :
  (let recorded :=
     get_confidence
       (snd (recognize_text unit engine_zero_and_fifty (fun s => s) tt None
               fresh_handler)) in
   recorded == 50
   /\ mean_of_non_negative (mk_data ["ab"; "cd"] [0; 50]) == 25
   /\ ~ recorded == mean_of_non_negative (mk_data ["ab"; "cd"] [0; 50]))
  /\ (let recorded :=
        get_confidence
          (snd (recognize_text unit engine_blank_and_fifty (fun s => s) tt
                  None fresh_handler)) in
      recorded == 50
      /\ mean_of_non_negative (mk_data [" "; "cd"] [90; 50]) == 70
      /\ ~ recorded == mean_of_non_negative (mk_data [" "; "cd"] [90; 50])).
Proof.
  cbv zeta. split.
  - split; [reflexivity|]. split; [reflexivity|].
    intros H. vm_compute in H. discriminate H.
  - split; [reflexivity|]. split; [reflexivity|].
    intros H. vm_compute in H. discriminate H.
Qed.

Example attempts_engine_zero :
  attempts unit engine_zero (fun s => s) tt
  = [("ab", 0); ("ab", 0); ("ab", 0); ("ab", 0); ("ab", 0); ("ab", 0)].
Proof. reflexivity. Qed.

(** C4, as stated, fails: every attempt has the text ["ab"], at confidence
    0, so the earliest of them should be returned; the handler returns the
    empty text. *)
Lemma zero_confidence_text_is_dropped :
  fst (recognize_with_multiple_configs unit engine_zero (fun s => s) tt
         fresh_handler) = ("", 0)
  /\ ~ selects has_text (attempts unit engine_zero (fun s => s) tt)
         (fst (recognize_with_multiple_configs unit engine_zero (fun s => s)
                 tt fresh_handler)).
Proof.
  split; [reflexivity|].
  change (fst (recognize_with_multiple_configs unit engine_zero (fun s => s)
                 tt fresh_handler)) with ("", 0).
  rewrite attempts_engine_zero.
  intros [[_ Hnone]|(pre & post & _ & Hel & _)].
  - specialize (Hnone ("ab", 0) (or_introl eq_refl)). discriminate Hnone.
  - discriminate Hel.
Qed.

End Ocr.

(** ** preprocessor.py: grayscale conversion and skew correction *)

Module Preprocessor.

(** OpenCV's flags, as far as [correct_skew] names them. *)
Inductive interpolation : Type := INTER_NEAREST | INTER_LINEAR | INTER_CUBIC.
Inductive border_mode : Type :=
  BORDER_CONSTANT | BORDER_REPLICATE | BORDER_REFLECT.

(** [for m in computation] on fallible calls. *)
Definition and_then {A B} (r : result A) (k : A -> result B) : result B :=
  match r with
  | Ok a => k a
  | Raise e => Raise e
  end.

Section Grayscale.

(** PIL images: their mode, and [Image.convert]. *)
Variable Image : Type.
Variable mode : Image -> string.
Variable Image_convert : Image -> string -> result Image.

(** ImagePreprocessor.convert_to_grayscale *)
Definition convert_to_grayscale (image : Image) : result Image :=
  if negb (String.eqb (mode image) "L") then Image_convert image "L"
  else Ok image.

(** What PIL promises of [convert]: the image it returns has the mode asked
    for. *)
Hypothesis convert_sets_mode :
  forall image m image',
    Image_convert image m = Ok image' -> mode image' = m.

Lemma convert_to_grayscale_mode (image gray : Image) :
  convert_to_grayscale image = Ok gray -> mode gray = "L".
Proof.
  unfold convert_to_grayscale.
  destruct (String.eqb (mode image) "L") eqn:E; simpl; intros H.
  - injection H as <-. apply String.eqb_eq. exact E.
  - eapply convert_sets_mode. exact H.
Qed.

(** C8. Grayscale conversion is idempotent: converting the result of a
    conversion again gives that same result; a conversion that raises,
    raises the same way when composed. *)
Theorem convert_to_grayscale_idempotent (image : Image) :
  and_then (convert_to_grayscale image) convert_to_grayscale
  = convert_to_grayscale image.
Proof.
  destruct (convert_to_grayscale image) as [gray|e] eqn:E; simpl;
    [|reflexivity].
  apply convert_to_grayscale_mode in E.
  unfold convert_to_grayscale. rewrite E. reflexivity.
Qed.

End Grayscale.

Section Skew.

(** PIL images and numpy arrays. *)
Variable Image : Type.
Variable ndarray : Type.
Variable np_array : Image -> ndarray.
Variable shape : ndarray -> list nat.
Variable Image_fromarray : ndarray -> result Image.

(** Floating-point numbers and the operations [correct_skew] applies to
    them; [np_median] is [np.median]. *)
Variable float : Type.
Variable of_int : Z -> float.
Variable np_pi : float.
Variable fmul fdiv fsub : float -> float -> float.
Variable fabs : float -> float.
Variable fgt : float -> float -> bool.
Variable np_median : list float -> float.

(** OpenCV. [HoughLines] yields [None] or the (rho, theta) pairs of
    [lines[:, 0]]. *)
Variable matrix : Type.
Variable Canny : ndarray -> Z -> Z -> Z -> result ndarray.
Variable HoughLines :
  ndarray -> Z -> float -> Z -> result (option (list (float * float))).
Variable getRotationMatrix2D : nat * nat -> float -> float -> matrix.
Variable warpAffine :
  ndarray -> matrix -> nat * nat -> interpolation -> border_mode ->
  result ndarray.

(** The rotation angle of one detected line, in degrees. *)
Definition rotation_angle (line : float * float) : float :=
  let angle := fdiv (fmul (snd line) (of_int 180)) np_pi in
  if fgt angle (of_int 90) then fsub angle (of_int 180) else angle.

(** [height, width = img_array.shape] *)
Definition unpack_shape (a : ndarray) : result (nat * nat) :=
  match shape a with
  | [height; width] => Ok (height, width)
  | [] | [_] => Raise (ValueError "not enough values to unpack")
  | _ => Raise (ValueError "too many values to unpack (expected 2)")
  end.

(** The rotation of [correct_skew]. *)
Definition rotate (img_array : ndarray) (median_angle : float)
    : result Image :=
  and_then (unpack_shape img_array) (fun '(height, width) =>
    let center := (Nat.div width 2, Nat.div height 2) in
    let rotation_matrix :=
      getRotationMatrix2D center median_angle (of_int 1) in
    and_then
      (warpAffine img_array rotation_matrix (width, height) INTER_CUBIC
         BORDER_REPLICATE)
      Image_fromarray).

(** ImagePreprocessor.correct_skew *)
Definition correct_skew (image : Image) : result Image :=
  let img_array := np_array image in
  and_then (Canny img_array 50 150 3) (fun edges =>
  and_then (HoughLines edges 1 (fdiv np_pi (of_int 180)) 100) (fun lines =>
    match lines with
    | Some ((_ :: _) as detected) =>
        let angles := map rotation_angle detected in
        match angles with
        | [] => Ok image
        | _ =>
            let median_angle := np_median angles in
            if fgt (fabs median_angle) (of_int 1)
            then rotate img_array median_angle
            else Ok image
        end
    | _ => Ok image
    end)).

(** The median line angle detected in an image: [None] when no line is
    found. *)
Definition detected_angle (image : Image) : result (option float) :=
  and_then (Canny (np_array image) 50 150 3) (fun edges =>
  and_then (HoughLines edges 1 (fdiv np_pi (of_int 180)) 100) (fun lines =>
    match lines with
    | Some ((_ :: _) as detected) =>
        Ok (Some (np_median (map rotation_angle detected)))
    | _ => Ok None
    end)).

(** The angle is significant: above one degree in absolute value. *)
Definition significant (median_angle : float) : bool :=
  fgt (fabs median_angle) (of_int 1).

(** The image rotated about its center [(width // 2, height // 2)] by
    [median_angle], borders replicated. *)
Definition rotated_about_center (image : Image) (height width : nat)
    (median_angle : float) : result Image :=
  and_then
    (warpAffine (np_array image)
       (getRotationMatrix2D (Nat.div width 2, Nat.div height 2) median_angle
          (of_int 1))
       (width, height) INTER_CUBIC BORDER_REPLICATE)
    Image_fromarray.

(** C6. What [correct_skew] does once edge and line detection have gone
    through: it returns the image itself when no line is detected or the
    median angle is not above one degree in absolute value; when it is, and
    the pixel array has two dimensions (one channel), it returns the image
    rotated about its center by the median angle, with cubic interpolation
    and replicated borders; for an array of any other rank, that of a colour
    image for one, it does not return the rotated image: unpacking the shape
    into height and width raises. *)
Theorem correct_skew_by_median_angle (image : Image) :
  match detected_angle image with
  | Raise e => correct_skew image = Raise e
  | Ok None => correct_skew image = Ok image
  | Ok (Some median_angle) =>
      if significant median_angle then
        match shape (np_array image) with
        | [height; width] =>
            correct_skew image
            = rotated_about_center image height width median_angle
        | _ => is_ok (correct_skew image) = false
        end
      else correct_skew image = Ok image
  end.
Proof.
  unfold detected_angle, correct_skew, significant.
  destruct (Canny (np_array image) 50 150 3) as [edges|e]; simpl;
    [|reflexivity].
  destruct (HoughLines edges 1 (fdiv np_pi (of_int 180)) 100)
    as [[[|line detected]|]|e]; simpl; try reflexivity.
  destruct (fgt _ (of_int 1)); [|reflexivity].
  unfold rotate, unpack_shape, rotated_about_center.
  destruct (shape (np_array image)) as [|h [|w [|c rest]]]; reflexivity.
Qed.

End Skew.

(** *** A small PIL: an image is its mode and its pixels, one list of
    channel values per pixel *)

Definition demo_image : Type := string * list (list Z).

Definition demo_mode (image : demo_image) : string := fst image.

(** ITU-R 601-2 luma, as [Image.convert('L')] computes it from RGB. *)
Definition luma (pixel : list Z) : list Z :=
  match pixel with
  | [r; g; b] => [((r * 299 + g * 587 + b * 114) / 1000)%Z]
  | _ => pixel
  end.

Definition demo_convert (image : demo_image) (m : string)
    : result demo_image :=
  if String.eqb m "L" then Ok (m, map luma (snd image))
  else Ok (m, snd image).

Definition rgb_image : demo_image :=
  ("RGB", [[255; 0; 0]; [10; 20; 30]; [255; 255; 255]]%Z).

Example rgb_image_grayscale :
  convert_to_grayscale demo_image demo_mode demo_convert rgb_image
  = Ok ("L", [[76]; [18]; [255]]%Z).
Proof. reflexivity. Qed.

Lemma demo_convert_sets_mode (image : demo_image) (m : string)
    (image' : demo_image) :
  demo_convert image m = Ok image' -> demo_mode image' = m.
Proof.
  unfold demo_convert. destruct (String.eqb m "L"); intros H;
    injection H as <-; reflexivity.
Qed.

Lemma convert_to_grayscale_idempotent_witness :
  (forall image m image',
     demo_convert image m = Ok image' -> demo_mode image' = m)
  /\ and_then
       (convert_to_grayscale demo_image demo_mode demo_convert rgb_image)
       (convert_to_grayscale demo_image demo_mode demo_convert)
     = convert_to_grayscale demo_image demo_mode demo_convert rgb_image.
Proof.
  split.
  - exact demo_convert_sets_mode.
  - exact (convert_to_grayscale_idempotent demo_image demo_mode demo_convert
             demo_convert_sets_mode rgb_image).
Defined.

(** *** A small OpenCV: an array is its shape and the angle it was rotated
    by, if any; every image shows one line at theta = 1/2 radian; numbers
    are rationals, pi is 355/113 *)

Definition demo_array : Type := list nat * option Q.

Definition demo_median (l : list Q) : Q :=
  nth (Nat.div (length l) 2) l 0%Q.

Definition demo_correct_skew (image : demo_array) : result demo_array :=
  correct_skew demo_array demo_array (fun i => i) fst
    (fun a => Ok a) Q inject_Z (355 # 113)%Q Qmult Qdiv Qminus Qabs
    Ocr.Qgt_bool demo_median Q (fun a _ _ _ => Ok a)
    (fun _ _ _ _ => Ok (Some [(0%Q, (1 # 2)%Q)])) (fun _ angle _ => angle)
    (fun a m _ _ _ => Ok (fst a, Some m)) image.

Definition demo_detected_angle (image : demo_array) : result (option Q) :=
  detected_angle demo_array demo_array (fun i => i) Q inject_Z (355 # 113)%Q
    Qmult Qdiv Qminus Ocr.Qgt_bool demo_median (fun a _ _ _ => Ok a)
    (fun _ _ _ _ => Ok (Some [(0%Q, (1 # 2)%Q)])) image.

(** A grayscale image, 70 rows by 160 columns, is rotated. *)
Example gray_image_is_rotated :
  exists angle,
    demo_correct_skew ([70; 160]%nat, None)
    = Ok ([70; 160]%nat, Some angle).
Proof. eexists. reflexivity. Qed.

(** C6 on a colour image (70 by 160 pixels, 3 channels): the median angle,
    about 28.6 degrees, is significant, and the image is not rotated:
    unpacking the three-element shape raises. *)
Lemma correct_skew_raises_on_colour_image :
  (exists median_angle,
     demo_detected_angle ([70; 160; 3]%nat, None) = Ok (Some median_angle)
     /\ (1 < Qabs median_angle)%Q)
  /\ demo_correct_skew ([70; 160; 3]%nat, None)
     = Raise (ValueError "too many values to unpack (expected 2)").
Proof.
  split; [|reflexivity].
  eexists. split; [reflexivity|]. vm_compute. reflexivity.
Qed.

End Preprocessor.

(** ** extractor.py: images embedded as data URIs *)

Module Extractor.

(** *** base64, as [base64.b64encode] and [base64.b64decode] (binascii)

    A byte string is a [string]: a sequence of 8-bit characters.  A sextet
    is written most significant bit first. *)

Definition sextet : Type := bool * bool * bool * bool * bool * bool.

Definition nat_of_sextet (s : sextet) : nat :=
  let '(b5, b4, b3, b2, b1, b0) := s in
  Nat.b2n b5 * 32 + Nat.b2n b4 * 16 + Nat.b2n b3 * 8 + Nat.b2n b2 * 4
  + Nat.b2n b1 * 2 + Nat.b2n b0.

Definition sextet_of_nat (n : nat) : sextet :=
  (Nat.testbit n 5, Nat.testbit n 4, Nat.testbit n 3, Nat.testbit n 2,
   Nat.testbit n 1, Nat.testbit n 0).

Definition table_b2a_base64 : string :=
  "ABCDEFGHIJKLMNOPQRSTUVWXYZabcdefghijklmnopqrstuvwxyz0123456789+/".

Definition BASE64_PAD : ascii := "=".

Definition char_of_sextet (s : sextet) : ascii :=
  match String.get (nat_of_sextet s) table_b2a_base64 with
  | Some c => c
  | None => BASE64_PAD
  end.

(** [table_a2b_base64]: the value of a character of the alphabet, [None]
    for any other character. *)
Definition sextet_of_char (c : ascii) : option sextet :=
  let n := nat_of_ascii c in
  if Nat.leb 65 n && Nat.leb n 90 then Some (sextet_of_nat (n - 65))
  else if Nat.leb 97 n && Nat.leb n 122 then Some (sextet_of_nat (n - 71))
  else if Nat.leb 48 n && Nat.leb n 57 then Some (sextet_of_nat (n + 4))
  else if Nat.eqb n 43 then Some (sextet_of_nat 62)
  else if Nat.eqb n 47 then Some (sextet_of_nat 63)
  else None.

(** The four sextets of three bytes, and the three bytes of four sextets:
    [Ascii] lists the bits of a byte least significant first. *)
Definition sextet0 (a : ascii) : sextet :=
  let 'Ascii a0 a1 a2 a3 a4 a5 a6 a7 := a in (a7, a6, a5, a4, a3, a2).

Definition sextet1 (a b : ascii) : sextet :=
  let 'Ascii a0 a1 a2 a3 a4 a5 a6 a7 := a in
  let 'Ascii b0 b1 b2 b3 b4 b5 b6 b7 := b in (a1, a0, b7, b6, b5, b4).

Definition sextet2 (b c : ascii) : sextet :=
  let 'Ascii b0 b1 b2 b3 b4 b5 b6 b7 := b in
  let 'Ascii c0 c1 c2 c3 c4 c5 c6 c7 := c in (b3, b2, b1, b0, c7, c6).

Definition sextet3 (c : ascii) : sextet :=
  let 'Ascii c0 c1 c2 c3 c4 c5 c6 c7 := c in (c5, c4, c3, c2, c1, c0).

(** binascii.b2a_base64 without the newline: three bytes give four
    characters; one or two bytes left over are padded with zero bits and
    [=]. *)
Fixpoint b64encode (s : string) : string :=
  match s with
  | EmptyString => EmptyString
  | String a EmptyString =>
      String (char_of_sextet (sextet0 a))
        (String (char_of_sextet (sextet1 a zero))
           (String BASE64_PAD (String BASE64_PAD EmptyString)))
  | String a (String b EmptyString) =>
      String (char_of_sextet (sextet0 a))
        (String (char_of_sextet (sextet1 a b))
           (String (char_of_sextet (sextet2 b zero))
              (String BASE64_PAD EmptyString)))
  | String a (String b (String c rest)) =>
      String (char_of_sextet (sextet0 a))
        (String (char_of_sextet (sextet1 a b))
           (String (char_of_sextet (sextet2 b c))
              (String (char_of_sextet (sextet3 c)) (b64encode rest))))
  end.

(** The decoder's position in a quad, with the bits left over from the
    characters read so far ([quad_pos] and [leftchar]). *)
Inductive quad : Type :=
| Quad0
| Quad1 (left : sextet)
| Quad2 (left : bool * bool * bool * bool)
| Quad3 (left : bool * bool).

Definition quad_pos (q : quad) : nat :=
  match q with Quad0 => 0 | Quad1 _ => 1 | Quad2 _ => 2 | Quad3 _ => 3 end.

Definition emit (byte : ascii) (r : result string) : result string :=
  match r with
  | Ok bytes => Ok (String byte bytes)
  | Raise e => Raise e
  end.

(** binascii.a2b_base64 in its lenient mode, the one [base64.b64decode]
    uses by default: characters outside the alphabet are skipped, enough
    padding after two or three characters of a quad ends the data, and data
    that stops inside a quad is refused. *)
Fixpoint a2b_base64 (s : string) (q : quad) (pads : nat) : result string :=
  match s with
  | EmptyString =>
      match q with
      | Quad0 => Ok EmptyString
      | Quad1 _ =>
          Raise (Exception "Invalid base64-encoded string")
      | _ => Raise (Exception "Incorrect padding")
      end
  | String this_ch rest =>
      if Ascii.eqb this_ch BASE64_PAD then
        if Nat.leb 2 (quad_pos q) then
          if Nat.leb 4 (quad_pos q + S pads) then Ok EmptyString
          else a2b_base64 rest q (S pads)
        else a2b_base64 rest q pads
      else
        match sextet_of_char this_ch with
        | None => a2b_base64 rest q pads
        | Some (x5, x4, x3, x2, x1, x0) =>
            match q with
            | Quad0 => a2b_base64 rest (Quad1 (x5, x4, x3, x2, x1, x0)) 0
            | Quad1 (l5, l4, l3, l2, l1, l0) =>
                emit (Ascii x4 x5 l0 l1 l2 l3 l4 l5)
                  (a2b_base64 rest (Quad2 (x3, x2, x1, x0)) 0)
            | Quad2 (l3, l2, l1, l0) =>
                emit (Ascii x2 x3 x4 x5 l0 l1 l2 l3)
                  (a2b_base64 rest (Quad3 (x1, x0)) 0)
            | Quad3 (l1, l0) =>
                emit (Ascii x0 x1 x2 x3 x4 x5 l0 l1)
                  (a2b_base64 rest Quad0 0)
            end
        end
  end.

(** base64.b64decode *)
Definition b64decode (s : string) : result string := a2b_base64 s Quad0 0.

(** *** The regular expression of [_decode_data_uri] *)

(** The longest prefix whose characters all satisfy [p], and what follows
    it: a greedy [x+] or [x*] over a class of single characters. *)
Fixpoint span (p : ascii -> bool) (s : string) : string * string :=
  match s with
  | String c s' =>
      if p c then let '(run, rest) := span p s' in (String c run, rest)
      else (EmptyString, s)
  | EmptyString => (EmptyString, EmptyString)
  end.

(** [s] without its prefix [pre], when it starts with it. *)
Fixpoint strip_prefix (pre s : string) : option string :=
  match pre, s with
  | EmptyString, _ => Some s
  | String a pre', String b s' =>
      if Ascii.eqb a b then strip_prefix pre' s' else None
  | String _ _, EmptyString => None
  end.

Definition LF : ascii := ascii_of_nat 10.

(** [re.match(r'data:image/[^;]+;base64,(.+)', data_uri)], giving
    [group(1)].  The class [[^;]+] is followed by a literal [;], so only its
    longest run can match; [.] is any character but a line feed, and the
    greedy [(.+)] takes its longest run. *)
Definition match_data_uri (data_uri : string) : option string :=
  match strip_prefix "data:image/" data_uri with
  | None => None
  | Some s1 =>
      let '(subtype, s2) := span (fun c => negb (Ascii.eqb c ";")) s1 in
      if negb (truthy subtype) then None
      else
        match strip_prefix ";base64," s2 with
        | None => None
        | Some s3 =>
            let '(payload, _) := span (fun c => negb (Ascii.eqb c LF)) s3 in
            if negb (truthy payload) then None else Some payload
        end
  end.

Example b64encode_Man : b64encode "Man" = "TWFu".
Proof. reflexivity. Qed.

Example b64encode_Ma : b64encode "Ma" = "TWE=".
Proof. reflexivity. Qed.

Example b64encode_M : b64encode "M" = "TQ==".
Proof. reflexivity. Qed.

Example b64decode_skips_line_feed :
  b64decode (String "T" (String "W" (String LF "Fu"))) = Ok "Man".
Proof. reflexivity. Qed.

Example b64decode_incomplete : is_ok (b64decode "TWF") = false.
Proof. reflexivity. Qed.

Ltac each_sextet s :=
  destruct s as [[[[[[] []] []] []] []] []].

Lemma sextet_of_char_of_sextet (s : sextet) :
  sextet_of_char (char_of_sextet s) = Some s.
Proof. each_sextet s; vm_compute; reflexivity. Qed.

Lemma char_of_sextet_not_pad (s : sextet) :
  Ascii.eqb (char_of_sextet s) BASE64_PAD = false.
Proof. each_sextet s; vm_compute; reflexivity. Qed.

Lemma char_of_sextet_not_LF (s : sextet) :
  Ascii.eqb (char_of_sextet s) LF = false.
Proof. each_sextet s; vm_compute; reflexivity. Qed.

(** Reading one character of the alphabet. *)
Lemma a2b_base64_char (s : sextet) (rest : string) (q : quad) (pads : nat) :
  a2b_base64 (String (char_of_sextet s) rest) q pads
  = let '(x5, x4, x3, x2, x1, x0) := s in
    match q with
    | Quad0 => a2b_base64 rest (Quad1 (x5, x4, x3, x2, x1, x0)) 0
    | Quad1 (l5, l4, l3, l2, l1, l0) =>
        emit (Ascii x4 x5 l0 l1 l2 l3 l4 l5)
          (a2b_base64 rest (Quad2 (x3, x2, x1, x0)) 0)
    | Quad2 (l3, l2, l1, l0) =>
        emit (Ascii x2 x3 x4 x5 l0 l1 l2 l3)
          (a2b_base64 rest (Quad3 (x1, x0)) 0)
    | Quad3 (l1, l0) =>
        emit (Ascii x0 x1 x2 x3 x4 x5 l0 l1) (a2b_base64 rest Quad0 0)
    end.
Proof.
  cbn [a2b_base64]. rewrite char_of_sextet_not_pad, sextet_of_char_of_sextet.
  destruct s as [[[[[x5 x4] x3] x2] x1] x0]. reflexivity.
Qed.

(** Four characters encoding three bytes decode to these bytes. *)
Lemma a2b_base64_group (a b c : ascii) (rest : string) (pads : nat) :
  a2b_base64
    (String (char_of_sextet (sextet0 a))
       (String (char_of_sextet (sextet1 a b))
          (String (char_of_sextet (sextet2 b c))
             (String (char_of_sextet (sextet3 c)) rest)))) Quad0 pads
  = emit a (emit b (emit c (a2b_base64 rest Quad0 0))).
Proof.
  destruct a as [a0 a1 a2 a3 a4 a5 a6 a7].
  destruct b as [b0 b1 b2 b3 b4 b5 b6 b7].
  destruct c as [c0 c1 c2 c3 c4 c5 c6 c7].
  rewrite a2b_base64_char. cbn [sextet0].
  rewrite a2b_base64_char. cbn [sextet1].
  rewrite a2b_base64_char. cbn [sextet2].
  rewrite a2b_base64_char. cbn [sextet3].
  reflexivity.
Qed.

(** Induction three bytes at a time. *)
Lemma string_ind3 (P : string -> Prop) :
  P EmptyString ->
  (forall a, P (String a EmptyString)) ->
  (forall a b, P (String a (String b EmptyString))) ->
  (forall a b c rest, P rest -> P (String a (String b (String c rest)))) ->
  forall s, P s.
Proof.
  intros H0 H1 H2 H3.
  assert (H : forall s, P s /\ (forall a, P (String a s))
                        /\ (forall a b, P (String a (String b s)))).
  { induction s as [|c s (IH0 & IH1 & IH2)].
    - repeat split; auto.
    - repeat split; auto. }
  intros s. apply H.
Qed.

Lemma b64decode_b64encode (b : string) : b64decode (b64encode b) = Ok b.
Proof.
  unfold b64decode. induction b as [|a|a b|a b c rest IH] using string_ind3.
  - reflexivity.
  - destruct a as [a0 a1 a2 a3 a4 a5 a6 a7]. cbn [b64encode].
    rewrite a2b_base64_char. cbn [sextet0].
    rewrite a2b_base64_char. cbn [sextet1 zero]. reflexivity.
  - destruct a as [a0 a1 a2 a3 a4 a5 a6 a7].
    destruct b as [b0 b1 b2 b3 b4 b5 b6 b7]. cbn [b64encode].
    rewrite a2b_base64_char. cbn [sextet0].
    rewrite a2b_base64_char. cbn [sextet1].
    rewrite a2b_base64_char. cbn [sextet2 zero]. reflexivity.
  - cbn [b64encode]. rewrite a2b_base64_group, IH. reflexivity.
Qed.

Section Download.

Variable Image : Type.

(** [Image.open(BytesIO(data))]. *)
Variable Image_open : string -> result Image.

(** [urllib.parse.urljoin], and the retrieval of an http(s) source by the
    rest of [_download_image_from_src]. *)
Variable urljoin : string -> string -> string.
Variable fetch_image : string -> result Image.

(** [try: ... except Exception: return None] *)
Definition or_none {A} (r : result (option A)) : option A :=
  match r with
  | Ok o => o
  | Raise _ => None
  end.

(** CAPTCHAExtractor._decode_data_uri *)
Definition _decode_data_uri (data_uri : string) : option Image :=
  or_none
    match match_data_uri data_uri with
    | None => Ok None
    | Some base64_data =>
        match b64decode base64_data with
        | Raise e => Raise e
        | Ok image_data =>
            match Image_open image_data with
            | Raise e => Raise e
            | Ok image => Ok (Some image)
            end
        end
    end.

Definition startswith (pre s : string) : bool :=
  match strip_prefix pre s with Some _ => true | None => false end.

Definition is_http (s : string) : bool :=
  startswith "http://" s || startswith "https://" s.

Definition truthy_opt (o : option string) : bool :=
  match o with Some s => truthy s | None => false end.

(** CAPTCHAExtractor._download_image_from_src *)
Definition _download_image_from_src (src : string) (base_url : option string)
    : option Image :=
  or_none
    (if startswith "data:" src then Ok (_decode_data_uri src)
     else
       let src :=
         match base_url with
         | Some base =>
             if truthy base && negb (is_http src) then urljoin base src
             else src
         | None => src
         end in
       match fetch_image src with
       | Raise e => Raise e
       | Ok image => Ok (Some image)
       end).

(** CAPTCHAExtractor.download_image *)
Definition download_image (image_url : string) (base_url : option string)
    : option Image :=
  let image_url :=
    match base_url with
    | Some base =>
        if truthy base && negb (is_http image_url)
        then urljoin base image_url else image_url
    | None => image_url
    end in
  _download_image_from_src image_url base_url.

(** *** The round trip through a data URI *)

Definition data_uri_of (b : string) : string :=
  "data:image/png;base64," ++ b64encode b.

(** The image opened from the bytes [b], [None] when PIL refuses them. *)
Definition opened (b : string) : option Image :=
  match Image_open b with
  | Ok image => Some image
  | Raise _ => None
  end.

(** Extraction from the data URI of [b] reproduces [b]: the payload the
    extractor isolates decodes to [b], and what it returns is the image
    opened from [b]. *)
Definition round_trips (b : string) : Prop :=
  (exists payload,
     match_data_uri (data_uri_of b) = Some payload
     /\ b64decode payload = Ok b)
  /\ _decode_data_uri (data_uri_of b) = opened b
  /\ (forall base_url,
        _download_image_from_src (data_uri_of b) base_url = opened b)
  /\ download_image (data_uri_of b) None = opened b.

Fixpoint all_chars (p : ascii -> bool) (s : string) : bool :=
  match s with
  | EmptyString => true
  | String c s' => p c && all_chars p s'
  end.

Lemma span_all (p : ascii -> bool) (s : string) :
  all_chars p s = true -> span p s = (s, EmptyString).
Proof.
  induction s as [|c s IH]; cbn [all_chars span]; [reflexivity|].
  intros H. apply andb_prop in H. destruct H as [Hc Hs].
  rewrite Hc, (IH Hs). reflexivity.
Qed.

Lemma b64encode_no_LF (b : string) :
  all_chars (fun c => negb (Ascii.eqb c LF)) (b64encode b) = true.
Proof.
  induction b as [|a|a b|a b c rest IH] using string_ind3;
    cbn [b64encode all_chars]; rewrite ?char_of_sextet_not_LF;
    try rewrite IH; reflexivity.
Qed.

Lemma span_b64encode (b : string) :
  span (fun c => negb (Ascii.eqb c LF)) (b64encode b)
  = (b64encode b, EmptyString).
Proof. apply span_all, b64encode_no_LF. Qed.

Lemma b64encode_not_empty (b : string) :
  b <> EmptyString -> truthy (b64encode b) = true.
Proof.
  destruct b as [|a [|b [|c rest]]]; [congruence| | |]; reflexivity.
Qed.

Lemma match_data_uri_of (b : string) :
  b <> EmptyString -> match_data_uri (data_uri_of b) = Some (b64encode b).
Proof.
  intros Hb. unfold match_data_uri, data_uri_of. simpl.
  change (String.append EmptyString (b64encode b)) with (b64encode b).
  rewrite span_b64encode, (b64encode_not_empty b Hb). reflexivity.
Qed.

(** C9 (as the code has it). For every byte string [b] that is not empty,
    extraction from ['data:image/png;base64,' ++ base64(b)] reproduces [b]:
    the payload isolated from the URI is [base64(b)], it decodes to [b], and
    [_decode_data_uri], [_download_image_from_src] and [download_image]
    return the image opened from exactly the bytes [b]. *)
Theorem data_uri_round_trip (b : string) :
  b <> EmptyString -> round_trips b.
Proof.
  intros Hb.
  assert (Hdec : _decode_data_uri (data_uri_of b) = opened b).
  { unfold _decode_data_uri, opened.
    rewrite (match_data_uri_of b Hb), b64decode_b64encode.
    destruct (Image_open b); reflexivity. }
  assert (Hsrc : forall base_url,
            _download_image_from_src (data_uri_of b) base_url = opened b).
  { intros base_url. unfold _download_image_from_src.
    change (startswith "data:" (data_uri_of b)) with true.
    cbn [or_none]. exact Hdec. }
  repeat split.
  - exists (b64encode b). split.
    + apply match_data_uri_of, Hb.
    + apply b64decode_b64encode.
  - exact Hdec.
  - exact Hsrc.
  - unfold download_image. apply Hsrc.
Qed.

End Download.

(** *** A permissive opener: every byte string is an image *)

Definition keep_bytes (data : string) : result string := Ok data.

Example decode_Man :
  _decode_data_uri string keep_bytes "data:image/png;base64,TWFu"
  = Some "Man".
Proof. reflexivity. Qed.

Lemma data_uri_round_trip_witness :
  "Man" <> EmptyString
  /\ round_trips string keep_bytes (fun _ u => u) keep_bytes "Man".
Proof.
  assert (H : "Man" <> EmptyString) by discriminate.
  split; [exact H|].
  exact (data_uri_round_trip string keep_bytes (fun _ u => u) keep_bytes
           "Man" H).
Defined.

(** C9, as stated, fails for the empty byte string: its data URI is
    ['data:image/png;base64,'], in which [(.+)] finds no payload, so
    nothing is decoded and no image is returned. *)
Lemma empty_payload_is_refused :
  match_data_uri "data:image/png;base64," = None
  /\ _decode_data_uri string keep_bytes "data:image/png;base64," = None
  /\ ~ round_trips string keep_bytes (fun _ u => u) keep_bytes EmptyString.
Proof.
  split; [reflexivity|]. split; [reflexivity|].
  intros [(payload & Hm & _) _]. discriminate Hm.
Qed.

(** *** The data URIs the extractor accepts *)

Lemma append_cons (c : ascii) (a b : string) :
  (String c a ++ b)%string = String c (a ++ b)%string.
Proof. reflexivity. Qed.

Lemma strip_prefix_spec (pre : string) :
  forall s r, strip_prefix pre s = Some r <-> s = (pre ++ r)%string.
Proof.
  induction pre as [|a pre IH]; intros s r.
  - cbn [strip_prefix]. split.
    + intros [= ->]. reflexivity.
    + intros ->. reflexivity.
  - rewrite append_cons. destruct s as [|b s]; cbn [strip_prefix].
    + split; discriminate.
    + destruct (Ascii.eqb a b) eqn:E.
      * apply Ascii.eqb_eq in E. subst b. rewrite IH. split.
        -- intros ->. reflexivity.
        -- intros [= ->]. reflexivity.
      * split; [discriminate|]. intros [= -> _].
        rewrite Ascii.eqb_refl in E. discriminate E.
Qed.

(** What follows a greedy run: nothing, or a character the run does not
    take. *)
Definition stops (p : ascii -> bool) (rest : string) : Prop :=
  match rest with
  | EmptyString => True
  | String c _ => p c = false
  end.

Lemma span_spec (p : ascii -> bool) :
  forall s run rest,
    span p s = (run, rest)
    <-> s = (run ++ rest)%string /\ all_chars p run = true /\ stops p rest.
Proof.
  induction s as [|c s IH]; intros run rest; cbn [span].
  - split.
    + intros [= <- <-]. repeat split.
    + intros (Hs & _ & _). destruct run as [|x run]; [|discriminate Hs].
      change (EmptyString = rest) in Hs. subst rest. reflexivity.
  - destruct (p c) eqn:E.
    + destruct (span p s) as [run' rest'] eqn:Hspan.
      pose proof (proj1 (IH run' rest') eq_refl) as (Hs & Hall & Hstop).
      split.
      * intros [= <- <-]. rewrite append_cons, <- Hs.
        cbn [all_chars]. rewrite E, Hall. repeat split. exact Hstop.
      * intros (Hs' & Hall' & Hstop'). destruct run as [|x run].
        -- change (String c s = rest) in Hs'. subst rest.
           cbn [stops] in Hstop'. congruence.
        -- rewrite append_cons in Hs'. injection Hs' as <- Hs'.
           cbn [all_chars] in Hall'. apply andb_prop in Hall'.
           destruct Hall' as [_ Hall'].
           pose proof (proj2 (IH run rest) (conj Hs' (conj Hall' Hstop')))
             as Heq.
           injection Heq as -> ->. reflexivity.
    + split.
      * intros [= <- <-]. repeat split. exact E.
      * intros (Hs' & Hall' & Hstop'). destruct run as [|x run].
        -- change (String c s = rest) in Hs'. subst rest. reflexivity.
        -- rewrite append_cons in Hs'. injection Hs' as <- Hs'.
           cbn [all_chars] in Hall'. rewrite E in Hall'. discriminate Hall'.
Qed.

Lemma truthy_not_empty (s : string) :
  truthy s = true <-> s <> EmptyString.
Proof. destruct s; cbn; split; congruence. Qed.

(** The shape [_decode_data_uri] asks of a data URI. *)
Definition data_uri_shape (data_uri payload : string) : Prop :=
  exists subtype rest,
    data_uri
    = ("data:image/" ++ subtype ++ ";base64," ++ payload ++ rest)%string
    /\ subtype <> EmptyString
    /\ all_chars (fun c => negb (Ascii.eqb c ";")) subtype = true
    /\ payload <> EmptyString
    /\ all_chars (fun c => negb (Ascii.eqb c LF)) payload = true
    /\ stops (fun c => negb (Ascii.eqb c LF)) rest.

(** X25. The payload [_decode_data_uri] takes from a data URI: the
    URI must read data:image/, a subtype that is not empty and has no
    semicolon, then at once ;base64, (so a media type with a parameter such
    as ;charset=utf-8 is refused), then a payload that is not empty; the
    payload taken ends at the first line feed or at the end of the URI, and
    what follows a line feed is ignored. *)
Theorem match_data_uri_shape (data_uri payload : string) :
  match_data_uri data_uri = Some payload <-> data_uri_shape data_uri payload.
Proof.
  unfold match_data_uri, data_uri_shape. split.
  - destruct (strip_prefix "data:image/" data_uri) as [s1|] eqn:H1;
      [|discriminate].
    apply strip_prefix_spec in H1.
    destruct (span (fun c => negb (Ascii.eqb c ";")) s1) as [subtype s2]
      eqn:H2.
    apply span_spec in H2. destruct H2 as (Hs1 & Hsub & _).
    destruct (truthy subtype) eqn:Ht; cbn [negb]; [|discriminate].
    destruct (strip_prefix ";base64," s2) as [s3|] eqn:H3; [|discriminate].
    apply strip_prefix_spec in H3.
    destruct (span (fun c => negb (Ascii.eqb c LF)) s3) as [payload' rest]
      eqn:H4.
    apply span_spec in H4. destruct H4 as (Hs3 & Hpay & Hstop).
    destruct (truthy payload') eqn:Hp; cbn [negb]; [|discriminate].
    intros [= <-]. exists subtype, rest.
    split; [subst; reflexivity|].
    split; [apply truthy_not_empty, Ht|]. split; [exact Hsub|].
    split; [apply truthy_not_empty, Hp|]. split; [exact Hpay|exact Hstop].
  - intros (subtype & rest & -> & Hne & Hsub & Hpne & Hpay & Hstop).
    rewrite (proj2 (strip_prefix_spec "data:image/" _ _) eq_refl).
    rewrite (proj2 (span_spec _ _ subtype
                      (";base64," ++ payload ++ rest)%string)
               (conj eq_refl (conj Hsub eq_refl))).
    rewrite (proj2 (truthy_not_empty subtype) Hne). cbn [negb].
    rewrite (proj2 (strip_prefix_spec ";base64," _ _) eq_refl).
    rewrite (proj2 (span_spec _ _ payload rest)
               (conj eq_refl (conj Hpay Hstop))).
    rewrite (proj2 (truthy_not_empty payload) Hpne). reflexivity.
Qed.

Example parameter_is_refused :
  match_data_uri "data:image/png;charset=utf-8;base64,TWFu" = None.
Proof. reflexivity. Qed.

Example payload_ends_at_line_feed :
  match_data_uri
    ("data:image/png;base64,TWFu" ++ String LF "ignored")%string
  = Some "TWFu".
Proof. reflexivity. Qed.

End Extractor.

(** ** config.py: the configuration store *)

Module Config.

(** *** Values

    Python values as [json.load] and the literals of [DEFAULT_CONFIG] build
    them.  A dictionary is kept in place ([VDict], in insertion order) when
    one reference leads to it, and behind a named cell of the store
    ([VRef]) when several do: the five dictionaries [DEFAULT_CONFIG] refers
    to are reached from the class attribute and from the top-level copy
    every instance makes of it. *)
#[warnings="-register-all"]
Inductive pyval : Type :=
| VNone
| VBool (b : bool)
| VNum (q : Q)
| VStr (s : string)
| VList (l : list pyval)
| VDict (d : dict)
| VRef (cell : string)
with dict : Type :=
| DNil
| DCons (key : string) (value : pyval) (rest : dict).

#[warnings="-register-all"]
Scheme pyval_dict_ind := Induction for pyval Sort Prop
  with dict_pyval_ind := Induction for dict Sort Prop.

(** The store: the contents of the shared dictionaries. *)
Abbreviation store := (gmap string pyval).

(** [d[key]], [None] when the key is absent. *)
Fixpoint dict_get (key : string) (d : dict) : option pyval :=
  match d with
  | DNil => None
  | DCons k v rest => if String.eqb key k then Some v else dict_get key rest
  end.

(** [d[key] = value]: in place when the key is there, at the end when not. *)
Fixpoint dict_set (key : string) (value : pyval) (d : dict) : dict :=
  match d with
  | DNil => DCons key value DNil
  | DCons k v rest =>
      if String.eqb key k then DCons k value rest
      else DCons k v (dict_set key value rest)
  end.

Fixpoint dict_keys (d : dict) : list string :=
  match d with
  | DNil => []
  | DCons k _ rest => k :: dict_keys rest
  end.

(** The object a value denotes: the content of its cell for a reference. *)
Definition deref (st : store) (v : pyval) : option pyval :=
  match v with
  | VRef cell => st !! cell
  | _ => Some v
  end.

(** [Config._deep_merge(base, update)].  [base] is returned as the loop
    leaves it, with the store; a dictionary reached through a reference is
    merged into in its cell, one held in place is merged into in place. *)
Fixpoint _deep_merge (base : dict) (update : dict) (st : store)
    {struct update} : dict * store :=
  match update with
  | DNil => (base, st)
  | DCons key value rest =>
      let assigned := (dict_set key value base, st) in
      let '(base1, st1) :=
        match value with
        | VDict u =>
            match dict_get key base with
            | Some (VDict b) =>
                let '(b', st') := _deep_merge b u st in
                (dict_set key (VDict b') base, st')
            | Some (VRef cell) =>
                match st !! cell with
                | Some (VDict b) =>
                    let '(b', st') := _deep_merge b u st in
                    (base, <[cell := VDict b']> st')
                | _ => assigned
                end
            | _ => assigned
            end
        | _ => assigned
        end in
      _deep_merge base1 rest st1
  end.

(** *** The defaults *)

Fixpoint dict_of_list (l : list (string * pyval)) : dict :=
  match l with
  | [] => DNil
  | (k, v) :: rest => DCons k v (dict_of_list rest)
  end.

Definition num (z : Z) : pyval := VNum (inject_Z z).

Definition default_tesseract : pyval :=
  VDict (dict_of_list
    [("cmd", VStr "/usr/bin/tesseract");
     ("config", VStr "--psm 8 -c tessedit_char_whitelist=0123456789ABCDEFGHIJKLMNOPQRSTUVWXYZabcdefghijklmnopqrstuvwxyz")]).

Definition default_preprocessing : pyval :=
  VDict (dict_of_list
    [("steps", VList [VStr "grayscale"; VStr "denoise"; VStr "threshold";
                      VStr "morphology"]);
     ("gaussian_blur", VDict (dict_of_list
        [("kernel_size", VList [num 5; num 5]); ("sigma", num 0)]));
     ("threshold", VDict (dict_of_list
        [("type", VStr "adaptive"); ("max_value", num 255);
         ("block_size", num 11); ("c", num 2)]));
     ("morphology", VDict (dict_of_list
        [("kernel_size", VList [num 3; num 3]); ("iterations", num 1)]))]).

Definition default_selenium : pyval :=
  VDict (dict_of_list
    [("driver", VStr "chrome"); ("headless", VBool true);
     ("timeout", num 10); ("window_size", VList [num 1920; num 1080])]).

Definition default_ocr : pyval :=
  VDict (dict_of_list
    [("confidence_threshold", num 60); ("dpi", num 300);
     ("language", VStr "eng")]).

Definition default_extraction : pyval :=
  VDict (dict_of_list
    [("timeout", num 30); ("retry_attempts", num 3);
     ("user_agent", VStr "Mozilla/5.0 (Windows NT 10.0; Win64; x64) AppleWebKit/537.36")]).

(** The store when the class has just been defined. *)
Definition initial_store : store :=
  <["tesseract" := default_tesseract]>
    (<["preprocessing" := default_preprocessing]>
       (<["selenium" := default_selenium]>
          (<["ocr" := default_ocr]>
             (<["extraction" := default_extraction]> ∅)))).

(** [Config.DEFAULT_CONFIG]: each section refers to its dictionary. *)
Definition DEFAULT_CONFIG : dict :=
  dict_of_list
    [("tesseract", VRef "tesseract"); ("preprocessing", VRef "preprocessing");
     ("selenium", VRef "selenium"); ("ocr", VRef "ocr");
     ("extraction", VRef "extraction")].

(** [dict.copy()]: a new top-level dictionary with the same entries, hence
    the same references. *)
Definition copy (d : dict) : dict := d.

(** *** Validation *)

Definition required_sections : list string :=
  ["tesseract"; "preprocessing"; "selenium"; "ocr"; "extraction"].

Definition valid_steps : list string :=
  ["grayscale"; "denoise"; "threshold"; "morphology"; "skew_correction"].

(** [container[key]] for a string key. *)
Definition subscript (st : store) (container : pyval) (key : string)
    : result pyval :=
  match deref st container with
  | Some (VDict d) =>
      match dict_get key d with
      | Some v => Ok v
      | None => Raise (KeyError key)
      end
  | _ => Raise (TypeError "object is not subscriptable by a string")
  end.

(** The number a value compares as against an [int]; [bool] is a subclass
    of [int]. *)
Definition as_number (st : store) (v : pyval) : result Q :=
  match deref st v with
  | Some (VNum q) => Ok q
  | Some (VBool b) => Ok (if b then 1 else 0)%Q
  | _ => Raise (TypeError "'<=' not supported between these instances")
  end.

Definition in_valid_steps (step : pyval) : bool :=
  match step with
  | VStr s => existsb (String.eqb s) valid_steps
  | _ => false
  end.

Definition str_of (v : pyval) : string :=
  match v with
  | VStr s => s
  | _ => "<object>"
  end.

(** [for step in steps: if step not in valid_steps: raise ValueError]. *)
Fixpoint check_steps (steps : list pyval) : result unit :=
  match steps with
  | [] => Ok tt
  | step :: rest =>
      if negb (in_valid_steps step) then
        Raise (ValueError ("Invalid preprocessing step: " ++ str_of step))
      else check_steps rest
  end.

(** What iterating over a value yields. *)
Definition iterate (st : store) (v : pyval) : result (list pyval) :=
  match deref st v with
  | Some (VList l) => Ok l
  | Some (VStr s) =>
      Ok (map (fun c => VStr (String c EmptyString)) (list_ascii_of_string s))
  | Some (VDict d) => Ok (map VStr (dict_keys d))
  | _ => Raise (TypeError "object is not iterable")
  end.

Fixpoint check_sections (sections : list string) (config : dict)
    : result unit :=
  match sections with
  | [] => Ok tt
  | section :: rest =>
      match dict_get section config with
      | None =>
          Raise (ValueError
                   ("Missing required configuration section: " ++ section))
      | Some _ => check_sections rest config
      end
  end.

Definition and_then {A B} (r : result A) (k : A -> result B) : result B :=
  match r with
  | Ok a => k a
  | Raise e => Raise e
  end.

(** Config.validate_config *)
Definition validate_config (config : dict) (st : store) : result unit :=
  and_then (check_sections required_sections config) (fun _ =>
  and_then (subscript st (VDict config) "selenium") (fun selenium_config =>
  and_then (subscript st selenium_config "timeout") (fun timeout =>
  and_then (as_number st timeout) (fun timeout =>
  if Qle_bool timeout 0 then
    Raise (ValueError "Selenium timeout must be positive")
  else
  and_then (subscript st (VDict config) "ocr") (fun ocr_config =>
  and_then (subscript st ocr_config "confidence_threshold") (fun threshold =>
  and_then (as_number st threshold) (fun threshold =>
  if negb (Qle_bool 0 threshold && Qle_bool threshold 100) then
    Raise (ValueError "OCR confidence threshold must be between 0 and 100")
  else
  and_then (subscript st (VDict config) "preprocessing")
    (fun preprocessing_config =>
  and_then (subscript st preprocessing_config "steps") (fun steps =>
  and_then (iterate st steps) check_steps))))))))).

(** *** Construction *)

Section Files.

(** The file system as [__init__] sees it: [None] when [os.path.exists] is
    false; the parsed document, or the error of [open]/[json.load]. *)
Variable read_json : string -> option (result pyval).

(** [os.path.exists] *)
Definition path_exists (f : string) : bool :=
  match read_json f with Some _ => true | None => false end.

(** Config._load_from_file; only [JSONDecodeError] and [FileNotFoundError]
    are turned into [ValueError], and a document that is not an object has
    no [items]. *)
Definition _load_from_file (config : dict) (config_file : string)
    (st : store) : result unit * (dict * store) :=
  match read_json config_file with
  | Some (Ok (VDict file_config)) =>
      (Ok tt, _deep_merge config file_config st)
  | Some (Ok _) =>
      (Raise (Exception "object has no attribute 'items'"), (config, st))
  | Some (Raise e) =>
      (Raise (ValueError ("Error loading config file " ++ config_file ++ ": "
                          ++ str_of_exn e)), (config, st))
  | None =>
      (Raise (ValueError ("Error loading config file " ++ config_file)),
       (config, st))
  end.

(** [Config.__init__]: the instance's [config] when construction goes
    through, and the store it leaves in either case. *)
Definition __init__ (config_file : option string) (st : store)
    : result dict * store :=
  let config := copy DEFAULT_CONFIG in
  let '(loaded, (config, st)) :=
    match config_file with
    | Some f =>
        if truthy f && path_exists f
        then _load_from_file config f st
        else (Ok tt, (config, st))
    | None => (Ok tt, (config, st))
    end in
  match loaded with
  | Raise e => (Raise e, st)
  | Ok _ =>
      match validate_config config st with
      | Raise e => (Raise e, st)
      | Ok _ => (Ok config, st)
      end
  end.

End Files.

(** [str.split('.')] *)
Fixpoint split_dots (s : string) : list string :=
  match s with
  | EmptyString => [EmptyString]
  | String c s' =>
      if Ascii.eqb c "." then EmptyString :: split_dots s'
      else
        match split_dots s' with
        | [] => [String c EmptyString]
        | part :: parts => String c part :: parts
        end
  end.

(** The loop of [Config.get]: [value = value[k]] for each key. *)
Fixpoint get_path (st : store) (value : pyval) (keys : list string)
    : result pyval :=
  match keys with
  | [] => Ok value
  | k :: rest =>
      match subscript st value k with
      | Ok v => get_path st v rest
      | Raise e => Raise e
      end
  end.

(** Config.get *)
Definition get (config : dict) (st : store) (key : string) (default : pyval)
    : pyval :=
  match get_path st (VDict config) (split_dots key) with
  | Ok v => v
  | Raise _ => default
  end.


(** *** Documents and shared cells *)

(** A value with no reference in it and no key twice in a dictionary: what
    [json.load] returns, and what [DEFAULT_CONFIG]'s sections are made of.
    Lists are not looked into: nothing here reaches inside one. *)
Fixpoint plain (v : pyval) : bool :=
  match v with
  | VDict d => plain_dict d
  | VRef _ => false
  | _ => true
  end
with plain_dict (d : dict) : bool :=
  match d with
  | DNil => true
  | DCons k v rest =>
      negb (existsb (String.eqb k) (dict_keys rest))
      && plain v && plain_dict rest
  end.

(** A value with no reference in it. *)
Fixpoint ref_free (v : pyval) : bool :=
  match v with
  | VDict d => ref_free_dict d
  | VRef _ => false
  | _ => true
  end
with ref_free_dict (d : dict) : bool :=
  match d with
  | DNil => true
  | DCons _ v rest => ref_free v && ref_free_dict rest
  end.

Definition is_dict (v : pyval) : bool :=
  match v with VDict _ => true | _ => false end.

(** A top-level dictionary of an instance: each entry is the reference to
    the cell of its own name, or a value without references. *)
Fixpoint top_level (d : dict) : Prop :=
  match d with
  | DNil => True
  | DCons k v rest => (v = VRef k \/ ref_free v = true) /\ top_level rest
  end.

(** Every cell of the store holds a value without references. *)
Definition cells_ref_free (st : gmap string pyval) : Prop :=
  forall cell v, st !! cell = Some v -> ref_free v = true.

Lemma plain_ref_free :
  forall v, plain v = true -> ref_free v = true.
Proof.
  apply (pyval_dict_ind
           (fun v => plain v = true -> ref_free v = true)
           (fun d => plain_dict d = true -> ref_free_dict d = true));
    simpl; auto.
  intros key value IHv rest IHr H.
  apply andb_prop in H. destruct H as [H Hr].
  apply andb_prop in H. destruct H as [_ Hv].
  rewrite (IHv Hv), (IHr Hr). reflexivity.
Qed.

Lemma dict_get_set_eq (key : string) (value : pyval) (d : dict) :
  dict_get key (dict_set key value d) = Some value.
Proof.
  induction d as [|k v rest IH]; simpl.
  - rewrite String.eqb_refl. reflexivity.
  - destruct (String.eqb key k) eqn:E; simpl; rewrite E; auto.
Qed.

Lemma dict_get_set_ne (key key' : string) (value : pyval) (d : dict) :
  key' <> key ->
  dict_get key' (dict_set key value d) = dict_get key' d.
Proof.
  intros Hne. induction d as [|k v rest IH]; simpl.
  - apply String.eqb_neq in Hne. rewrite Hne. reflexivity.
  - destruct (String.eqb key k) eqn:E; simpl.
    + apply String.eqb_eq in E. subst k.
      apply String.eqb_neq in Hne. rewrite Hne. reflexivity.
    + destruct (String.eqb key' k); auto.
Qed.

Lemma ref_free_dict_set (key : string) (value : pyval) (d : dict) :
  ref_free value = true -> ref_free_dict d = true ->
  ref_free_dict (dict_set key value d) = true.
Proof.
  intros Hv. induction d as [|k v rest IH]; simpl.
  - rewrite Hv. auto.
  - intros H. apply andb_prop in H. destruct H as [H1 H2].
    destruct (String.eqb key k); simpl.
    + rewrite Hv, H2. reflexivity.
    + rewrite H1, (IH H2). reflexivity.
Qed.

Lemma ref_free_dict_get (key : string) (d : dict) (v : pyval) :
  ref_free_dict d = true -> dict_get key d = Some v -> ref_free v = true.
Proof.
  induction d as [|k x rest IH]; simpl; [discriminate|].
  intros H. apply andb_prop in H. destruct H as [H1 H2].
  destruct (String.eqb key k).
  - intros [= <-]. exact H1.
  - apply IH, H2.
Qed.

(** Merging into a dictionary without references leaves the store alone
    and gives a dictionary without references. *)
Lemma _deep_merge_ref_free :
  forall update base st,
    ref_free_dict update = true -> ref_free_dict base = true ->
    snd (_deep_merge base update st) = st
    /\ ref_free_dict (fst (_deep_merge base update st)) = true.
Proof.
  apply (dict_pyval_ind
           (fun v => forall u, v = VDict u ->
              forall base st,
                ref_free_dict u = true -> ref_free_dict base = true ->
                snd (_deep_merge base u st) = st
                /\ ref_free_dict (fst (_deep_merge base u st)) = true)
           (fun update => forall base st,
              ref_free_dict update = true -> ref_free_dict base = true ->
              snd (_deep_merge base update st) = st
              /\ ref_free_dict (fst (_deep_merge base update st)) = true));
    try discriminate.
  - intros d IH u [= <-]. exact IH.
  - intros base st _ Hb. simpl. auto.
  - intros key value IHv rest IHr base st Hu Hb.
    simpl in Hu. apply andb_prop in Hu. destruct Hu as [Hv Hrest].
    cbn [_deep_merge].
    assert (Hassigned :
      snd (_deep_merge (dict_set key value base) rest st) = st
      /\ ref_free_dict (fst (_deep_merge (dict_set key value base) rest st))
         = true).
    { apply IHr; [exact Hrest|]. apply ref_free_dict_set; assumption. }
    destruct value as [| | | | |u|cell]; try exact Hassigned.
    destruct (dict_get key base) as [[| | | | |b|cell]|] eqn:Hget;
      try exact Hassigned.
    + pose proof (ref_free_dict_get key base _ Hb Hget) as Hbf.
      destruct (IHv u eq_refl b st Hv Hbf) as [Hs Hf].
      destruct (_deep_merge b u st) as [b' st']. simpl in Hs, Hf. subst st'.
      apply IHr; [exact Hrest|]. apply ref_free_dict_set; assumption.
    + pose proof (ref_free_dict_get key base _ Hb Hget) as Hbf.
      discriminate Hbf.
Qed.

(** One turn of the loop of [_deep_merge]. *)
Definition merge_entry (key : string) (value : pyval) (base : dict)
    (st : gmap string pyval) : dict * gmap string pyval :=
  _deep_merge base (DCons key value DNil) st.

Lemma _deep_merge_cons (key : string) (value : pyval) (rest base : dict)
    (st : gmap string pyval) :
  _deep_merge base (DCons key value rest) st
  = _deep_merge (fst (merge_entry key value base st)) rest
      (snd (merge_entry key value base st)).
Proof.
  unfold merge_entry. cbn [_deep_merge].
  destruct value as [| | | | |u|cell]; try reflexivity.
  destruct (dict_get key base) as [[| | | | |b|cell]|]; try reflexivity.
  all: try (destruct (_deep_merge b u st) as [b' st']; reflexivity).
  all: destruct (st !! cell) as [[| | | | |b|cell']|]; try reflexivity.
  all: destruct (_deep_merge b u st) as [b' st']; reflexivity.
Qed.

(** The entry of another key is not touched. *)
Lemma merge_entry_other (key key' : string) (value : pyval) (base : dict)
    (st : gmap string pyval) :
  key' <> key ->
  dict_get key' (fst (merge_entry key value base st)) = dict_get key' base.
Proof.
  intros Hne. unfold merge_entry. cbn [_deep_merge].
  destruct value as [| | | | |u|cell];
    try (simpl; apply dict_get_set_ne; exact Hne).
  destruct (dict_get key base) as [[| | | | |b|cell]|];
    try (simpl; apply dict_get_set_ne; exact Hne).
  - destruct (_deep_merge b u st) as [b' st']. simpl.
    apply dict_get_set_ne; exact Hne.
  - destruct (st !! cell) as [[| | | | |b|cell']|];
      try (simpl; apply dict_get_set_ne; exact Hne).
    destruct (_deep_merge b u st) as [b' st']. reflexivity.
Qed.

Lemma not_in_keys (key : string) (keys : list string) :
  existsb (String.eqb key) keys = false ->
  forall k, In k keys -> key <> k.
Proof.
  intros H k Hin ->.
  assert (existsb (String.eqb k) keys = true).
  { apply existsb_exists. exists k. split; [exact Hin|apply String.eqb_refl]. }
  congruence.
Qed.

(** A key the update does not mention keeps its entry. *)
Lemma _deep_merge_other (key : string) (update : dict) :
  existsb (String.eqb key) (dict_keys update) = false ->
  forall base st,
    dict_get key (fst (_deep_merge base update st)) = dict_get key base.
Proof.
  induction update as [|k v rest IH]; intros Hk base st; [reflexivity|].
  simpl in Hk. apply orb_false_elim in Hk. destruct Hk as [Hne Hk].
  rewrite _deep_merge_cons, (IH Hk).
  apply merge_entry_other. apply String.eqb_neq. exact Hne.
Qed.

Lemma merge_entry_ref_free (key : string) (value : pyval) (base : dict)
    (st : gmap string pyval) :
  ref_free value = true -> ref_free_dict base = true ->
  snd (merge_entry key value base st) = st
  /\ ref_free_dict (fst (merge_entry key value base st)) = true.
Proof.
  intros Hv Hb. apply _deep_merge_ref_free; [|exact Hb].
  simpl. rewrite Hv. reflexivity.
Qed.

(** A value without references reads the same under every store. *)
Lemma get_path_ref_free (keys : list string) :
  forall v st st',
    ref_free v = true -> get_path st v keys = get_path st' v keys.
Proof.
  induction keys as [|k ks IH]; intros v st st' Hv; [reflexivity|].
  cbn [get_path]. unfold subscript.
  destruct v as [| | | | |d|cell]; try reflexivity; [|discriminate Hv].
  cbn [deref]. destruct (dict_get k d) as [x|] eqn:Hx; [|reflexivity].
  apply IH. eapply ref_free_dict_get; eassumption.
Qed.

Lemma get_path_dict (st : gmap string pyval) (d : dict) (k : string)
    (ks : list string) :
  get_path st (VDict d) (k :: ks)
  = match dict_get k d with
    | Some x => get_path st x ks
    | None => Raise (KeyError k)
    end.
Proof.
  cbn [get_path]. unfold subscript. cbn [deref].
  destruct (dict_get k d); reflexivity.
Qed.

(** Reading below a scalar, or a dangling reference, fails. *)
Lemma get_path_needs_dict (v : pyval) (k : string) (ks : list string)
    (x : pyval) :
  get_path ∅ v (k :: ks) = Ok x -> exists u, v = VDict u.
Proof.
  cbn [get_path]. unfold subscript.
  destruct v as [| | | | |d|cell]; cbn [deref]; try discriminate.
  eauto.
Qed.

(** Merging a document into a dictionary without references puts each of
    its leaves where the document has it. *)
Lemma _deep_merge_sets_path :
  forall update,
    plain_dict update = true ->
    forall base st keys v,
      ref_free_dict base = true ->
      keys <> [] ->
      get_path ∅ (VDict update) keys = Ok v ->
      is_dict v = false ->
      forall st',
        get_path st' (VDict (fst (_deep_merge base update st))) keys = Ok v.
Proof.
  apply (dict_pyval_ind
           (fun x => forall u, x = VDict u ->
              plain_dict u = true ->
              forall base st keys v,
                ref_free_dict base = true ->
                keys <> [] ->
                get_path ∅ (VDict u) keys = Ok v ->
                is_dict v = false ->
                forall st',
                  get_path st' (VDict (fst (_deep_merge base u st))) keys
                  = Ok v)
           (fun update =>
              plain_dict update = true ->
              forall base st keys v,
                ref_free_dict base = true ->
                keys <> [] ->
                get_path ∅ (VDict update) keys = Ok v ->
                is_dict v = false ->
                forall st',
                  get_path st' (VDict (fst (_deep_merge base update st))) keys
                  = Ok v));
    try discriminate.
  - intros d IH u [= <-]. exact IH.
  - intros _ base st [|k ks] v _ Hne Hpath; [congruence|].
    rewrite get_path_dict in Hpath. discriminate Hpath.
  - intros key value IHv rest IHr Hplain base st [|k ks] v Hb Hne Hpath Hleaf
      st'; [congruence|].
    simpl in Hplain. apply andb_prop in Hplain. destruct Hplain as [Hp Hpr].
    apply andb_prop in Hp. destruct Hp as [Hk Hpv].
    apply negb_true_iff in Hk.
    destruct (merge_entry_ref_free key value base st
                (plain_ref_free value Hpv) Hb) as [Hst Hfree].
    rewrite get_path_dict in Hpath. cbn [dict_get] in Hpath.
    rewrite _deep_merge_cons.
    destruct (String.eqb k key) eqn:E.
    + apply String.eqb_eq in E. subst k.
      rewrite get_path_dict, (_deep_merge_other key rest Hk).
      unfold merge_entry. cbn [_deep_merge].
      destruct value as [| | | | |u|cell];
        try (cbn [fst]; rewrite dict_get_set_eq;
             destruct ks as [|k2 ks'];
             [exact Hpath
             |apply get_path_needs_dict in Hpath;
              destruct Hpath as [u Hu]; discriminate Hu]);
        try discriminate Hpv.
      destruct ks as [|k2 ks'].
      { cbn [get_path] in Hpath. injection Hpath as <-. discriminate Hleaf. }
      destruct (dict_get key base) as [[| | | | |b|cell]|] eqn:Hget;
        try (cbn [fst]; rewrite dict_get_set_eq;
             rewrite (get_path_ref_free (k2 :: ks') (VDict u) st' ∅
                        (plain_ref_free _ Hpv));
             exact Hpath).
      * pose proof (ref_free_dict_get key base _ Hb Hget) as Hbf.
        pose proof (IHv u eq_refl Hpv b st (k2 :: ks') v Hbf
                      ltac:(discriminate) Hpath Hleaf st') as Hin.
        destruct (_deep_merge b u st) as [b' st1]. cbn [fst] in *.
        rewrite dict_get_set_eq. exact Hin.
      * pose proof (ref_free_dict_get key base _ Hb Hget) as Hbf.
        discriminate Hbf.
    + rewrite <- get_path_dict in Hpath.
      apply IHr; assumption.
Qed.

(** *** The instance's dictionary and the shared cells *)

Lemma top_level_get (key : string) (base : dict) (x : pyval) :
  top_level base -> dict_get key base = Some x ->
  x = VRef key \/ ref_free x = true.
Proof.
  induction base as [|k v rest IH]; simpl; [discriminate|].
  intros [Hv Hrest]. destruct (String.eqb key k) eqn:E.
  - apply String.eqb_eq in E. subst k. intros [= <-]. exact Hv.
  - apply IH, Hrest.
Qed.

Lemma top_level_dict_set (key : string) (value : pyval) (base : dict) :
  ref_free value = true -> top_level base ->
  top_level (dict_set key value base).
Proof.
  intros Hv. induction base as [|k v rest IH]; simpl.
  - auto.
  - intros [Hk Hrest]. destruct (String.eqb key k); simpl; auto.
Qed.

Lemma cells_ref_free_insert (cell : string) (v : pyval)
    (st : gmap string pyval) :
  ref_free v = true -> cells_ref_free st ->
  cells_ref_free (<[cell := v]> st).
Proof.
  intros Hv Hst c x. destruct (decide (cell = c)) as [->|Hne].
  - rewrite lookup_insert_eq. intros [= <-]. exact Hv.
  - rewrite lookup_insert_ne by exact Hne. apply Hst.
Qed.

(** What one turn of the loop does at the top of an instance's dictionary:
    a section held by reference is merged into in its cell, and every other
    cell is left as it was. *)
Lemma merge_entry_top (key : string) (value : pyval) (base : dict)
    (st : gmap string pyval) :
  ref_free value = true -> top_level base -> cells_ref_free st ->
  top_level (fst (merge_entry key value base st))
  /\ cells_ref_free (snd (merge_entry key value base st))
  /\ (forall key', key' <> key ->
        snd (merge_entry key value base st) !! key' = st !! key').
Proof.
  intros Hv Hb Hst. unfold merge_entry. cbn [_deep_merge].
  assert (Hassigned :
    top_level (dict_set key value base) /\ cells_ref_free st
    /\ (forall key' : string, key' <> key -> st !! key' = st !! key')).
  { split; [apply top_level_dict_set; assumption|auto]. }
  destruct value as [| | | | |u|cell]; try exact Hassigned.
  destruct (dict_get key base) as [[| | | | |b|cell]|] eqn:Hget;
    try exact Hassigned.
  - destruct (top_level_get key base _ Hb Hget) as [Hx|Hbf];
      [discriminate Hx|].
    destruct (_deep_merge_ref_free u b st Hv Hbf) as [Hs Hf].
    destruct (_deep_merge b u st) as [b' st']. simpl in Hs, Hf. subst st'.
    simpl. split; [apply top_level_dict_set; assumption|auto].
  - destruct (top_level_get key base _ Hb Hget) as [Hx|Hbf];
      [|discriminate Hbf].
    injection Hx as ->.
    destruct (st !! key) as [[| | | | |b|cell']|] eqn:Hcell;
      try exact Hassigned.
    pose proof (Hst key _ Hcell) as Hbf.
    destruct (_deep_merge_ref_free u b st Hv Hbf) as [Hs Hf].
    destruct (_deep_merge b u st) as [b' st']. simpl in Hs, Hf. subst st'.
    simpl. split; [exact Hb|]. split.
    + apply cells_ref_free_insert; assumption.
    + intros key' Hne. apply lookup_insert_ne. congruence.
Qed.

Lemma _deep_merge_top :
  forall update base st,
    ref_free_dict update = true -> top_level base -> cells_ref_free st ->
    top_level (fst (_deep_merge base update st))
    /\ cells_ref_free (snd (_deep_merge base update st))
    /\ (forall key',
          existsb (String.eqb key') (dict_keys update) = false ->
          snd (_deep_merge base update st) !! key' = st !! key').
Proof.
  induction update as [|key value rest IH]; intros base st Hu Hb Hst.
  - simpl. auto.
  - simpl in Hu. apply andb_prop in Hu. destruct Hu as [Hv Hrest].
    rewrite _deep_merge_cons.
    destruct (merge_entry_top key value base st Hv Hb Hst)
      as (Hb1 & Hst1 & Hframe1).
    destruct (IH _ _ Hrest Hb1 Hst1) as (Hb2 & Hst2 & Hframe2).
    split; [exact Hb2|]. split; [exact Hst2|].
    intros key' Hk. simpl in Hk. apply orb_false_elim in Hk.
    destruct Hk as [Hne Hk].
    rewrite (Hframe2 key' Hk). apply Hframe1.
    apply String.eqb_neq. exact Hne.
Qed.

(** A section held by reference, whose cell holds a dictionary, is merged
    into in that cell. *)
Lemma merge_entry_shared (s : string) (u b base : dict)
    (st : gmap string pyval) :
  dict_get s base = Some (VRef s) -> st !! s = Some (VDict b) ->
  ref_free_dict u = true -> ref_free_dict b = true ->
  merge_entry s (VDict u) base st
  = (base, <[s := VDict (fst (_deep_merge b u st))]> st).
Proof.
  intros Hget Hcell Hu Hb. unfold merge_entry. cbn [_deep_merge].
  rewrite Hget, Hcell.
  destruct (_deep_merge_ref_free u b st Hu Hb) as [Hs _].
  destruct (_deep_merge b u st) as [b' st']. simpl in Hs. subst st'.
  reflexivity.
Qed.

(** Reading through a reference reads the dictionary of its cell. *)
Lemma get_path_ref (st : gmap string pyval) (s : string) (d : dict)
    (ks : list string) :
  ks <> [] -> st !! s = Some (VDict d) ->
  get_path st (VRef s) ks = get_path st (VDict d) ks.
Proof.
  intros Hne Hcell. destruct ks as [|k ks]; [congruence|].
  cbn [get_path]. unfold subscript. cbn [deref]. rewrite Hcell. reflexivity.
Qed.

(** A leaf the document has below a section held by reference ends up in
    the cell of that section, which the instance still refers to. *)
Lemma _deep_merge_shared :
  forall update,
    plain_dict update = true ->
    forall base st s ks v,
      top_level base -> cells_ref_free st ->
      dict_get s base = Some (VRef s) ->
      (exists b, st !! s = Some (VDict b)) ->
      ks <> [] ->
      get_path ∅ (VDict update) (s :: ks) = Ok v ->
      is_dict v = false ->
      dict_get s (fst (_deep_merge base update st)) = Some (VRef s)
      /\ get_path (snd (_deep_merge base update st)) (VRef s) ks = Ok v.
Proof.
  induction update as [|key value rest IH];
    intros Hplain base st s ks v Hb Hst Hget [b Hcell] Hne Hpath Hleaf.
  - rewrite get_path_dict in Hpath. discriminate Hpath.
  - simpl in Hplain. apply andb_prop in Hplain. destruct Hplain as [Hp Hpr].
    apply andb_prop in Hp. destruct Hp as [Hk Hpv].
    apply negb_true_iff in Hk.
    pose proof (plain_ref_free value Hpv) as Hvf.
    destruct (merge_entry_top key value base st Hvf Hb Hst)
      as (Hb1 & Hst1 & Hframe1).
    rewrite get_path_dict in Hpath. cbn [dict_get] in Hpath.
    rewrite _deep_merge_cons.
    destruct (String.eqb s key) eqn:E.
    + apply String.eqb_eq in E. subst key.
      destruct ks as [|k2 ks']; [congruence|].
      destruct (get_path_needs_dict _ _ _ _ Hpath) as [u ->].
      pose proof (Hst s _ Hcell) as Hbf.
      rewrite (merge_entry_shared s u b base st Hget Hcell Hvf Hbf) in *.
      cbn [fst snd] in *.
      destruct (_deep_merge_top rest base _
                  (plain_ref_free (VDict rest) Hpr) Hb1 Hst1)
        as (_ & _ & Hframe).
      split.
      * rewrite (_deep_merge_other s rest Hk). exact Hget.
      * rewrite (get_path_ref _ s (fst (_deep_merge b u st)));
          [|discriminate|].
        -- apply _deep_merge_sets_path; assumption || discriminate.
        -- rewrite (Hframe s Hk). apply lookup_insert_eq.
    + rewrite <- get_path_dict in Hpath.
      apply String.eqb_neq in E.
      apply IH; try assumption.
      * rewrite merge_entry_other by exact E. exact Hget.
      * exists b. rewrite (Hframe1 s E). exact Hcell.
Qed.

(** A cell that holds a dictionary still holds one after a turn of the
    loop. *)
Lemma merge_entry_cell (key : string) (value : pyval) (base : dict)
    (st : gmap string pyval) (c : string) :
  ref_free value = true -> top_level base -> cells_ref_free st ->
  (exists b, st !! c = Some (VDict b)) ->
  exists b', snd (merge_entry key value base st) !! c = Some (VDict b').
Proof.
  intros Hv Hb Hst Hc. unfold merge_entry. cbn [_deep_merge].
  destruct value as [| | | | |u|cell]; try exact Hc.
  destruct (dict_get key base) as [[| | | | |b|cell]|] eqn:Hget;
    try exact Hc.
  - destruct (top_level_get key base _ Hb Hget) as [Hx|Hbf];
      [discriminate Hx|].
    destruct (_deep_merge_ref_free u b st Hv Hbf) as [Hs _].
    destruct (_deep_merge b u st) as [b' st']. simpl in Hs. subst st'.
    exact Hc.
  - destruct (st !! cell) as [[| | | | |b|cell']|] eqn:Hcell; try exact Hc.
    pose proof (Hst cell _ Hcell) as Hbf.
    destruct (_deep_merge_ref_free u b st Hv Hbf) as [Hs _].
    destruct (_deep_merge b u st) as [b' st']. simpl in Hs. subst st'.
    simpl. destruct (decide (cell = c)) as [->|Hne].
    + exists b'. apply lookup_insert_eq.
    + rewrite lookup_insert_ne by exact Hne. exact Hc.
Qed.

Lemma _deep_merge_cell (c : string) :
  forall update base st,
    ref_free_dict update = true -> top_level base -> cells_ref_free st ->
    (exists b, st !! c = Some (VDict b)) ->
    exists b', snd (_deep_merge base update st) !! c = Some (VDict b').
Proof.
  induction update as [|key value rest IH]; intros base st Hu Hb Hst Hc.
  - exact Hc.
  - simpl in Hu. apply andb_prop in Hu. destruct Hu as [Hv Hrest].
    rewrite _deep_merge_cons.
    destruct (merge_entry_top key value base st Hv Hb Hst)
      as (Hb1 & Hst1 & _).
    apply IH; try assumption.
    apply merge_entry_cell; assumption.
Qed.

(** A value that is neither a dictionary nor a reference cannot be
    subscripted. *)
Definition scalar (x : pyval) : bool :=
  match x with VDict _ | VRef _ => false | _ => true end.

Lemma subscript_scalar (st : gmap string pyval) (x : pyval) (k : string) :
  scalar x = true ->
  subscript st x k = Raise (TypeError "object is not subscriptable by a string").
Proof.
  destruct x; try discriminate; reflexivity.
Qed.

(** After a document is merged in, a section that was held by reference
    still is, unless the document put a scalar in its place. *)
Lemma _deep_merge_section :
  forall update,
    plain_dict update = true ->
    forall base st s,
      top_level base -> cells_ref_free st ->
      dict_get s base = Some (VRef s) ->
      (exists b, st !! s = Some (VDict b)) ->
      dict_get s (fst (_deep_merge base update st)) = Some (VRef s)
      \/ exists x, dict_get s (fst (_deep_merge base update st)) = Some x
                   /\ scalar x = true.
Proof.
  induction update as [|key value rest IH];
    intros Hplain base st s Hb Hst Hget [b Hcell].
  - left. exact Hget.
  - simpl in Hplain. apply andb_prop in Hplain. destruct Hplain as [Hp Hpr].
    apply andb_prop in Hp. destruct Hp as [Hk Hpv].
    apply negb_true_iff in Hk.
    pose proof (plain_ref_free value Hpv) as Hvf.
    destruct (merge_entry_top key value base st Hvf Hb Hst)
      as (Hb1 & Hst1 & Hframe1).
    rewrite _deep_merge_cons.
    destruct (String.eqb s key) eqn:E.
    + apply String.eqb_eq in E. subst key.
      rewrite (_deep_merge_other s rest Hk).
      destruct (scalar value) eqn:Hscalar.
      * right. exists value. split; [|exact Hscalar].
        unfold merge_entry. cbn [_deep_merge].
        destruct value; try discriminate; cbn [fst]; apply dict_get_set_eq.
      * left. destruct value as [| | | | |u|cell]; try discriminate.
        rewrite (merge_entry_shared s u b base st Hget Hcell Hvf
                   (Hst s _ Hcell)).
        exact Hget.
    + apply String.eqb_neq in E.
      apply IH; try assumption.
      * rewrite merge_entry_other by exact E. exact Hget.
      * exists b. rewrite (Hframe1 s E). exact Hcell.
Qed.

(** *** The defaults *)

(** The shared cells as every construction finds and leaves them: each
    holds a value without references, and the cell of each section holds a
    dictionary. *)
Definition shared_defaults (st : gmap string pyval) : Prop :=
  cells_ref_free st
  /\ forall s, In s required_sections -> exists b, st !! s = Some (VDict b).

Lemma initial_store_shared : shared_defaults initial_store.
Proof.
  split.
  - intros cell v H. unfold initial_store in H.
    repeat (apply lookup_insert_Some in H;
            destruct H as [[_ <-]|[_ H]]; [reflexivity|]).
    rewrite lookup_empty in H. discriminate H.
  - intros s Hs. simpl in Hs.
    repeat (destruct Hs as [<-|Hs]; [eexists; reflexivity|]).
    destruct Hs.
Qed.

Lemma DEFAULT_CONFIG_top_level : top_level DEFAULT_CONFIG.
Proof. simpl. repeat split; left; reflexivity. Qed.

Lemma DEFAULT_CONFIG_section (s : string) :
  In s required_sections -> dict_get s DEFAULT_CONFIG = Some (VRef s).
Proof.
  intros Hs. simpl in Hs.
  repeat (destruct Hs as [<-|Hs]; [reflexivity|]).
  destruct Hs.
Qed.

(** [__init__] with a file that exists and holds an object. *)
Lemma __init___merges (read_json : string -> option (result pyval))
    (config_file : string) (file_config : dict) (st : gmap string pyval) :
  truthy config_file = true ->
  read_json config_file = Some (Ok (VDict file_config)) ->
  __init__ read_json (Some config_file) st
  = (and_then
       (validate_config (fst (_deep_merge DEFAULT_CONFIG file_config st))
          (snd (_deep_merge DEFAULT_CONFIG file_config st)))
       (fun _ => Ok (fst (_deep_merge DEFAULT_CONFIG file_config st))),
     snd (_deep_merge DEFAULT_CONFIG file_config st)).
Proof.
  intros Ht Hr. unfold __init__, _load_from_file, path_exists, copy.
  rewrite Ht, Hr. cbn [andb].
  destruct (_deep_merge DEFAULT_CONFIG file_config st) as [config st1].
  cbn [fst snd]. destruct (validate_config config st1) as [[]|e]; reflexivity.
Qed.

(** [__init__] without a file. *)
Lemma __init___defaults (read_json : string -> option (result pyval))
    (st : gmap string pyval) :
  __init__ read_json None st
  = (and_then (validate_config DEFAULT_CONFIG st)
       (fun _ => Ok DEFAULT_CONFIG), st).
Proof.
  unfold __init__, copy.
  destruct (validate_config DEFAULT_CONFIG st) as [[]|e]; reflexivity.
Qed.

(** Validation reads the sections only; where the instance still holds a
    section by reference it reads what [DEFAULT_CONFIG] reads. *)
Lemma subscript_section (config : dict) (st : gmap string pyval)
    (s : string) :
  In s required_sections ->
  (dict_get s config = Some (VRef s)
   \/ exists x, dict_get s config = Some x /\ scalar x = true) ->
  subscript st (VDict config) s = subscript st (VDict DEFAULT_CONFIG) s
  \/ exists x, subscript st (VDict config) s = Ok x /\ scalar x = true.
Proof.
  intros Hs [Hget|(x & Hget & Hx)]; unfold subscript; cbn [deref].
  - left. rewrite Hget, (DEFAULT_CONFIG_section s Hs). reflexivity.
  - right. exists x. rewrite Hget. auto.
Qed.

Ltac raises H :=
  cbn [and_then] in H;
  repeat match type of H with
         | Raise _ = Ok _ => discriminate H
         | and_then ?r _ = _ => destruct r; cbn [and_then] in H
         | (if ?b then _ else _) = _ => destruct b
         end.

Ltac section_read H config st s :=
  let x := fresh "x" in
  let Hx := fresh "Hx" in
  let Hs := fresh "Hs" in
  match goal with
  | Hsec : forall s, In s required_sections -> _ |- _ =>
      destruct (subscript_section config st s ltac:(simpl; auto 10)
                  (Hsec s ltac:(simpl; auto 10))) as [Hs|(x & Hs & Hx)];
      rewrite Hs in H;
      [|cbn [and_then] in H; rewrite (subscript_scalar st x _ Hx) in H;
        raises H]
  end.

Lemma validate_config_defaults (config : dict) (st : gmap string pyval) :
  (forall s, In s required_sections ->
     dict_get s config = Some (VRef s)
     \/ exists x, dict_get s config = Some x /\ scalar x = true) ->
  validate_config config st = Ok tt ->
  validate_config DEFAULT_CONFIG st = Ok tt.
Proof.
  intros Hsec H. unfold validate_config in *.
  destruct (check_sections required_sections config) as [[]|e];
    [|discriminate H].
  change (check_sections required_sections DEFAULT_CONFIG) with (Ok tt).
  cbn [and_then] in H |- *.
  section_read H config st "selenium".
  section_read H config st "ocr".
  section_read H config st "preprocessing".
  exact H.
Qed.

(** C10. A configuration file that gives a value nested inside a section
    writes it into the dictionary that [DEFAULT_CONFIG] itself refers to,
    because [__init__] copies [DEFAULT_CONFIG] one level deep only.  After
    [Config(config_file)] has run -- whether or not its validation went
    through -- the class-level defaults read the file's value at that key;
    every later [Config()] is built from them and reads the file's value
    too, and it is constructed whenever the first one was. *)
Theorem nested_override_is_shared_with_defaults
    (read_json : string -> option (result pyval)) (config_file : string)
    (file_config : dict) (st : gmap string pyval) (section : string)
    (keys : list string) (v : pyval) :
  shared_defaults st ->
  truthy config_file = true ->
  read_json config_file = Some (Ok (VDict file_config)) ->
  plain_dict file_config = true ->
  In section required_sections ->
  keys <> [] ->
  get_path ∅ (VDict file_config) (section :: keys) = Ok v ->
  is_dict v = false ->
  let first := __init__ read_json (Some config_file) st in
  let second := __init__ read_json None (snd first) in
  get_path (snd first) (VDict DEFAULT_CONFIG) (section :: keys) = Ok v
  /\ (forall config2,
        fst second = Ok config2 ->
        get_path (snd second) (VDict config2) (section :: keys) = Ok v)
  /\ (is_ok (fst first) = true -> is_ok (fst second) = true)
  /\ shared_defaults (snd first).
Proof.
  intros [Hcells Hdicts] Ht Hr Hplain Hsec Hne Hpath Hleaf first second.
  subst second first.
  rewrite (__init___merges read_json config_file file_config st Ht Hr).
  rewrite __init___defaults. cbn [fst snd].
  pose proof (plain_ref_free (VDict file_config) Hplain) as Hfree.
  destruct (_deep_merge_shared file_config Hplain DEFAULT_CONFIG st section
              keys v DEFAULT_CONFIG_top_level Hcells
              (DEFAULT_CONFIG_section _ Hsec) (Hdicts _ Hsec) Hne Hpath Hleaf)
    as [_ Hread].
  destruct (_deep_merge_top file_config DEFAULT_CONFIG st Hfree
              DEFAULT_CONFIG_top_level Hcells) as (_ & Hcells1 & _).
  assert (Hdefault :
    get_path (snd (_deep_merge DEFAULT_CONFIG file_config st))
      (VDict DEFAULT_CONFIG) (section :: keys) = Ok v).
  { rewrite get_path_dict, (DEFAULT_CONFIG_section _ Hsec). exact Hread. }
  split; [exact Hdefault|]. split; [|split].
  - intros config2.
    destruct (validate_config DEFAULT_CONFIG _) as [[]|e]; cbn [and_then];
      [|discriminate].
    intros [= <-]. exact Hdefault.
  - destruct (validate_config (fst _) _) as [[]|e] eqn:Hvalid;
      [|discriminate].
    intros _. erewrite validate_config_defaults; [reflexivity| |exact Hvalid].
    intros s Hs. apply _deep_merge_section; auto.
    + exact DEFAULT_CONFIG_top_level.
    + apply DEFAULT_CONFIG_section, Hs.
  - split; [exact Hcells1|].
    intros s Hs. apply _deep_merge_cell; auto.
    exact DEFAULT_CONFIG_top_level.
Qed.

(** *** A file that raises the confidence threshold *)

Definition threshold_file : dict :=
  dict_of_list
    [("ocr", VDict (dict_of_list [("confidence_threshold", num 85)]))].

Definition one_file (name : string) (document : pyval) (f : string)
    : option (result pyval) :=
  if String.eqb f name then Some (Ok document) else None.

Definition after_threshold_file : result dict * store :=
  __init__ (one_file "config.json" (VDict threshold_file))
    (Some "config.json") initial_store.

Example default_threshold :
  get DEFAULT_CONFIG initial_store "ocr.confidence_threshold" VNone = num 60.
Proof. vm_compute. reflexivity. Qed.

Example threshold_file_accepted :
  is_ok (fst after_threshold_file) = true.
Proof. vm_compute. reflexivity. Qed.

Lemma nested_override_is_shared_with_defaults_witness :
  let first := after_threshold_file in
  let second :=
    __init__ (one_file "config.json" (VDict threshold_file)) None (snd first) in
  get_path (snd first) (VDict DEFAULT_CONFIG) ["ocr"; "confidence_threshold"]
  = Ok (num 85)
  /\ (forall config2,
        fst second = Ok config2 ->
        get_path (snd second) (VDict config2) ["ocr"; "confidence_threshold"]
        = Ok (num 85))
  /\ (is_ok (fst first) = true -> is_ok (fst second) = true)
  /\ shared_defaults (snd first).
Proof.
  apply (nested_override_is_shared_with_defaults
           (one_file "config.json" (VDict threshold_file)) "config.json"
           threshold_file initial_store "ocr" ["confidence_threshold"]
           (num 85)).
  - exact initial_store_shared.
  - reflexivity.
  - reflexivity.
  - reflexivity.
  - simpl. auto.
  - discriminate.
  - reflexivity.
  - reflexivity.
Defined.

(** *** A file that asks for the [enhance] step *)

Definition six_steps : list pyval :=
  [VStr "grayscale"; VStr "denoise"; VStr "threshold"; VStr "morphology";
   VStr "skew_correction"; VStr "enhance"].

Definition six_steps_file : dict :=
  dict_of_list [("preprocessing", VDict (dict_of_list [("steps", VList six_steps)]))].

(** C2. [validate_config] does not recognise the step name [enhance]: its
    [valid_steps] holds five names only.  A step list that reaches [enhance]
    through recognised names fails the step-name check with
    [ValueError "Invalid preprocessing step: enhance"], and so does the
    construction of a [Config] from a file whose steps are the six names
    grayscale, denoise, threshold, morphology, skew_correction, enhance. *)
Theorem enhance_step_is_rejected :
  in_valid_steps (VStr "enhance") = false
  /\ (forall before after,
        forallb in_valid_steps before = true ->
        check_steps (before ++ VStr "enhance" :: after)
        = Raise (ValueError "Invalid preprocessing step: enhance"))
  /\ fst (__init__ (one_file "config.json" (VDict six_steps_file))
            (Some "config.json") initial_store)
     = Raise (ValueError "Invalid preprocessing step: enhance").
Proof.
  split; [reflexivity|]. split.
  - induction before as [|step before IH]; intros after Hvalid.
    + reflexivity.
    + cbn [forallb] in Hvalid. apply andb_prop in Hvalid.
      destruct Hvalid as [Hstep Hbefore].
      cbn [app check_steps]. rewrite Hstep. cbn [negb].
      apply IH, Hbefore.
  - vm_compute. reflexivity.
Qed.

(** *** Config.set *)

(** The loop of [Config.set] on a dictionary held by value, then the final
    assignment.  A key that is missing gets a new empty dictionary; the
    walk goes on into the dictionary found under the key, in its cell when
    the entry is a reference; anything else under the key (a number, a
    string, a list, [None]) cannot carry the next key and a [TypeError]
    is raised, whose message is not modelled.  [keys] is never empty for
    a key that [split] produced. *)
Fixpoint set_dict (d : dict) (keys : list string) (value : pyval)
    (st : store) {struct keys} : result unit * (dict * store) :=
  match keys with
  | [] => (Raise (Exception "list index out of range"), (d, st))
  | [k] => (Ok tt, (dict_set k value d, st))
  | k :: rest =>
      let d1 :=
        match dict_get k d with
        | Some _ => d
        | None => dict_set k (VDict DNil) d
        end in
      match dict_get k d1 with
      | Some (VDict child) =>
          let '(r, (child', st')) := set_dict child rest value st in
          (r, (dict_set k (VDict child') d1, st'))
      | Some (VRef cell) =>
          match st !! cell with
          | Some (VDict child) =>
              let '(r, (child', st')) := set_dict child rest value st in
              (r, (d1, <[cell := VDict child']> st'))
          | _ =>
              (Raise (TypeError "object does not support this key"), (d1, st))
          end
      | _ => (Raise (TypeError "object does not support this key"), (d1, st))
      end
  end.

(** Config.set *)
Definition set (config : dict) (st : store) (key : string) (value : pyval)
    : result unit * (dict * store) :=
  set_dict config (split_dots key) value st.

Lemma set_dict_step (d : dict) (k k2 : string) (l : list string)
    (value : pyval) (st : gmap string pyval) :
  set_dict d (k :: k2 :: l) value st
  = let d1 :=
      match dict_get k d with
      | Some _ => d
      | None => dict_set k (VDict DNil) d
      end in
    match dict_get k d1 with
    | Some (VDict child) =>
        let '(r, (child', st')) := set_dict child (k2 :: l) value st in
        (r, (dict_set k (VDict child') d1, st'))
    | Some (VRef cell) =>
        match st !! cell with
        | Some (VDict child) =>
            let '(r, (child', st')) := set_dict child (k2 :: l) value st in
            (r, (d1, <[cell := VDict child']> st'))
        | _ => (Raise (TypeError "object does not support this key"), (d1, st))
        end
    | _ => (Raise (TypeError "object does not support this key"), (d1, st))
    end.
Proof. reflexivity. Qed.

Lemma dict_set_same (key : string) (value : pyval) (d : dict) :
  dict_get key d = Some value -> dict_set key value d = d.
Proof.
  induction d as [|k v rest IH]; simpl; [discriminate|].
  destruct (String.eqb key k).
  - intros [= ->]. reflexivity.
  - intros H. rewrite (IH H). reflexivity.
Qed.

Lemma split_dots_not_nil (s : string) : split_dots s <> [].
Proof.
  induction s as [|c s IH]; cbn [split_dots]; [discriminate|].
  destruct (Ascii.eqb c "."); [discriminate|].
  destruct (split_dots s); discriminate.
Qed.

(** Below a key that was just created nothing is in the way. *)
Lemma set_dict_fresh (value : pyval) (st : gmap string pyval) :
  forall keys, keys <> [] -> fst (set_dict DNil keys value st) = Ok tt.
Proof.
  induction keys as [|k [|k2 l] IH]; intros Hne; [congruence|reflexivity|].
  rewrite set_dict_step. cbn [dict_get dict_set]. rewrite String.eqb_refl.
  specialize (IH ltac:(discriminate)).
  destruct (set_dict DNil (k2 :: l) value st) as [r [child' st']].
  exact IH.
Qed.

(** A failed walk has changed nothing. *)
Lemma set_dict_clean (value : pyval) (st : gmap string pyval) :
  forall keys d e,
    fst (set_dict d keys value st) = Raise e ->
    snd (set_dict d keys value st) = (d, st)
    /\ (keys <> [] -> exists msg, e = TypeError msg).
Proof.
  induction keys as [|k [|k2 l] IH]; intros d e.
  - intros _. split; [reflexivity|congruence].
  - discriminate.
  - rewrite set_dict_step. cbv zeta.
    destruct (dict_get k d) as [x|] eqn:Hget.
    + rewrite Hget.
      destruct x as [| | | | |child|cell]; cbn [fst snd];
        try (intros [= <-]; split; [reflexivity|eauto]).
      * specialize (IH child).
        destruct (set_dict child (k2 :: l) value st) as [r [child' st']].
        cbn [fst snd] in *. intros ->.
        destruct (IH e eq_refl) as [[= -> ->] Hmsg].
        rewrite (dict_set_same k (VDict child) d Hget).
        split; [reflexivity|]. intros _. apply Hmsg. discriminate.
      * destruct (st !! cell) as [[| | | | |child|cell']|] eqn:Hcell;
          cbn [fst snd]; try (intros [= <-]; split; [reflexivity|eauto]).
        specialize (IH child).
        destruct (set_dict child (k2 :: l) value st) as [r [child' st']].
        cbn [fst snd] in *. intros ->.
        destruct (IH e eq_refl) as [[= -> ->] Hmsg].
        rewrite (insert_id st cell (VDict child) Hcell).
        split; [reflexivity|]. intros _. apply Hmsg. discriminate.
    + rewrite dict_get_set_eq.
      pose proof (set_dict_fresh value st (k2 :: l) ltac:(discriminate))
        as Hfresh.
      destruct (set_dict DNil (k2 :: l) value st) as [r [child' st']].
      cbn [fst] in *. congruence.
Qed.

(** Inside a dictionary without references the walk stays inside it, and
    when it goes through the value is under the key. *)
Lemma set_dict_ref_free (value : pyval) (st : gmap string pyval) :
  ref_free value = true ->
  forall keys d,
    ref_free_dict d = true ->
    snd (snd (set_dict d keys value st)) = st
    /\ ref_free_dict (fst (snd (set_dict d keys value st))) = true
    /\ (fst (set_dict d keys value st) = Ok tt ->
        forall st0,
          get_path st0 (VDict (fst (snd (set_dict d keys value st)))) keys
          = Ok value).
Proof.
  intros Hv.
  induction keys as [|k [|k2 l] IH]; intros d Hd.
  - cbn. repeat split; [exact Hd|discriminate].
  - cbn [set_dict fst snd]. split; [reflexivity|].
    split; [apply ref_free_dict_set; assumption|].
    intros _ st0. rewrite get_path_dict, dict_get_set_eq. reflexivity.
  - rewrite set_dict_step. cbv zeta.
    set (d1 := match dict_get k d with
               | Some _ => d
               | None => dict_set k (VDict DNil) d
               end).
    assert (Hd1 : ref_free_dict d1 = true).
    { subst d1. destruct (dict_get k d); [exact Hd|].
      apply ref_free_dict_set; [reflexivity|exact Hd]. }
    destruct (dict_get k d1) as [x|] eqn:Hget;
      [|cbn; repeat split; [exact Hd1|discriminate]].
    pose proof (ref_free_dict_get k d1 x Hd1 Hget) as Hx.
    destruct x as [| | | | |child|cell];
      try (cbn; repeat split; [exact Hd1|discriminate]);
      [|discriminate Hx].
    destruct (IH child Hx) as (Hst & Hfree & Hread).
    destruct (set_dict child (k2 :: l) value st) as [r [child' st']].
    cbn [fst snd] in *. split; [exact Hst|].
    split; [apply ref_free_dict_set; assumption|].
    intros Hr st0. rewrite get_path_dict, dict_get_set_eq.
    apply Hread, Hr.
Qed.

(** The walk from the top of an instance's dictionary. *)
Lemma set_dict_top (value : pyval) (st : gmap string pyval) (keys : list string)
    (d : dict) :
  ref_free value = true -> top_level d -> cells_ref_free st ->
  top_level (fst (snd (set_dict d keys value st)))
  /\ cells_ref_free (snd (snd (set_dict d keys value st)))
  /\ (fst (set_dict d keys value st) = Ok tt ->
      get_path (snd (snd (set_dict d keys value st)))
        (VDict (fst (snd (set_dict d keys value st)))) keys
      = Ok value).
Proof.
  intros Hv Hd Hst.
  destruct keys as [|k [|k2 l]].
  - cbn. repeat split; [exact Hd|exact Hst|discriminate].
  - cbn [set_dict fst snd]. split; [apply top_level_dict_set; assumption|].
    split; [exact Hst|].
    intros _. rewrite get_path_dict, dict_get_set_eq. reflexivity.
  - rewrite set_dict_step. cbv zeta.
    set (d1 := match dict_get k d with
               | Some _ => d
               | None => dict_set k (VDict DNil) d
               end).
    assert (Hd1 : top_level d1).
    { subst d1. destruct (dict_get k d); [exact Hd|].
      apply top_level_dict_set; [reflexivity|exact Hd]. }
    destruct (dict_get k d1) as [x|] eqn:Hget;
      [|cbn; repeat split; [exact Hd1|exact Hst|discriminate]].
    destruct x as [| | | | |child|cell];
      try (cbn; repeat split; [exact Hd1|exact Hst|discriminate]).
    + destruct (top_level_get k d1 _ Hd1 Hget) as [Hx|Hx];
        [discriminate Hx|].
      destruct (set_dict_ref_free value st Hv (k2 :: l) child Hx)
        as (Hst' & Hfree & Hread).
      destruct (set_dict child (k2 :: l) value st) as [r [child' st']].
      cbn [fst snd] in *. subst st'.
      split; [apply top_level_dict_set; assumption|]. split; [exact Hst|].
      intros Hr. rewrite get_path_dict, dict_get_set_eq. apply Hread, Hr.
    + destruct (st !! cell) as [[| | | | |child|cell']|] eqn:Hcell;
        try (cbn; repeat split; [exact Hd1|exact Hst|discriminate]).
      destruct (set_dict_ref_free value st Hv (k2 :: l) child
                  (Hst cell _ Hcell)) as (Hst' & Hfree & Hread).
      destruct (set_dict child (k2 :: l) value st) as [r [child' st']].
      cbn [fst snd] in *. subst st'.
      split; [exact Hd1|].
      split; [apply cells_ref_free_insert; assumption|].
      intros Hr. rewrite get_path_dict, Hget.
      rewrite (get_path_ref _ cell child'); [|discriminate|].
      * apply Hread, Hr.
      * apply lookup_insert_eq.
Qed.

(** X10. [get] after [set]: when [config.set(key, value)] goes through,
    [config.get(key, default)] returns [value], whatever the default. *)
Theorem get_after_set (config : dict) (st : gmap string pyval) (key : string)
    (value default : pyval) :
  ref_free value = true -> top_level config -> cells_ref_free st ->
  fst (set config st key value) = Ok tt ->
  get (fst (snd (set config st key value)))
    (snd (snd (set config st key value))) key default
  = value.
Proof.
  intros Hv Hconfig Hst Hok. unfold get, set in *.
  destruct (set_dict_top value st (split_dots key) config Hv Hconfig Hst)
    as (_ & _ & Hread).
  rewrite (Hread Hok). reflexivity.
Qed.

(** X11. [set] fails only with a [TypeError], raised when the walk
    meets something that is not a dictionary under one of the keys but
    the last; it has then changed nothing, neither in the instance nor in
    the shared defaults. *)
Theorem set_failure_changes_nothing (config : dict) (st : gmap string pyval)
    (key : string) (value : pyval) (e : exn) :
  fst (set config st key value) = Raise e ->
  (exists msg, e = TypeError msg)
  /\ snd (set config st key value) = (config, st).
Proof.
  intros Hfail. unfold set in *.
  destruct (set_dict_clean value st (split_dots key) config e Hfail)
    as [Hsame Hmsg].
  split; [|exact Hsame].
  apply Hmsg, split_dots_not_nil.
Qed.

(** X12. [set] on a key below a section writes into the dictionary
    [DEFAULT_CONFIG] itself refers to: on an instance built from the
    defaults the instance's own dictionary is left as it is, the class-level
    defaults read the new value, and so does every [Config()] constructed
    afterwards. *)
Theorem set_writes_into_defaults
    (read_json : string -> option (result pyval)) (st : gmap string pyval)
    (key section : string) (keys : list string) (value default : pyval) :
  shared_defaults st ->
  ref_free value = true ->
  In section required_sections ->
  split_dots key = section :: keys -> keys <> [] ->
  fst (set DEFAULT_CONFIG st key value) = Ok tt ->
  let st' := snd (snd (set DEFAULT_CONFIG st key value)) in
  fst (snd (set DEFAULT_CONFIG st key value)) = DEFAULT_CONFIG
  /\ get DEFAULT_CONFIG st' key default = value
  /\ (forall config2,
        fst (__init__ read_json None st') = Ok config2 ->
        get config2 (snd (__init__ read_json None st')) key default = value).
Proof.
  intros [Hcells Hdicts] Hv Hsec Hsplit Hne Hok st'. subst st'.
  destruct (set_dict_top value st (split_dots key) DEFAULT_CONFIG Hv
              DEFAULT_CONFIG_top_level Hcells) as (_ & _ & Hread).
  specialize (Hread Hok).
  assert (Hsame : fst (snd (set DEFAULT_CONFIG st key value))
                  = DEFAULT_CONFIG).
  { unfold set in *. rewrite Hsplit in *.
    destruct keys as [|k2 l]; [congruence|].
    rewrite set_dict_step in *. cbv zeta in *.
    rewrite (DEFAULT_CONFIG_section section Hsec) in *.
    rewrite (DEFAULT_CONFIG_section section Hsec) in *.
    destruct (Hdicts section Hsec) as [child Hcell].
    rewrite Hcell in *.
    destruct (set_dict child (k2 :: l) value st) as [r [child' st']].
    reflexivity. }
  unfold set in Hread, Hsame. rewrite Hsame in Hread.
  split; [exact Hsame|]. split.
  - unfold get, set. rewrite Hread. reflexivity.
  - intros config2. rewrite __init___defaults. cbn [fst snd].
    destruct (validate_config DEFAULT_CONFIG _) as [[]|e']; cbn [and_then];
      [|discriminate].
    intros [= <-]. unfold get, set. rewrite Hread. reflexivity.
Qed.

(** *** Setting the resolution on a fresh instance *)

Lemma get_after_set_witness :
  get (fst (snd (set DEFAULT_CONFIG initial_store "ocr.dpi" (num 150))))
    (snd (snd (set DEFAULT_CONFIG initial_store "ocr.dpi" (num 150))))
    "ocr.dpi" VNone
  = num 150.
Proof.
  apply (get_after_set DEFAULT_CONFIG initial_store "ocr.dpi" (num 150) VNone).
  - reflexivity.
  - exact DEFAULT_CONFIG_top_level.
  - exact (proj1 initial_store_shared).
  - vm_compute. reflexivity.
Defined.

Lemma set_failure_changes_nothing_witness :
  (exists msg, TypeError "object does not support this key" = TypeError msg)
  /\ snd (set DEFAULT_CONFIG initial_store "ocr.dpi.unit" (VStr "dpi"))
     = (DEFAULT_CONFIG, initial_store).
Proof.
  apply (set_failure_changes_nothing DEFAULT_CONFIG initial_store
           "ocr.dpi.unit" (VStr "dpi")
           (TypeError "object does not support this key")).
  vm_compute. reflexivity.
Defined.

Lemma set_writes_into_defaults_witness :
  let st' := snd (snd (set DEFAULT_CONFIG initial_store "ocr.dpi" (num 150))) in
  fst (snd (set DEFAULT_CONFIG initial_store "ocr.dpi" (num 150)))
  = DEFAULT_CONFIG
  /\ get DEFAULT_CONFIG st' "ocr.dpi" VNone = num 150
  /\ (forall config2,
        fst (__init__ (fun _ => None) None st') = Ok config2 ->
        get config2 (snd (__init__ (fun _ => None) None st')) "ocr.dpi" VNone
        = num 150).
Proof.
  apply (set_writes_into_defaults (fun _ => None) initial_store "ocr.dpi"
           "ocr" ["dpi"] (num 150) VNone).
  - exact initial_store_shared.
  - reflexivity.
  - simpl. auto.
  - reflexivity.
  - discriminate.
  - vm_compute. reflexivity.
Defined.

Example later_instance_reads_150 :
  let st' := snd (snd (set DEFAULT_CONFIG initial_store "ocr.dpi" (num 150))) in
  is_ok (fst (__init__ (fun _ => None) None st')) = true
  /\ get DEFAULT_CONFIG initial_store "ocr.dpi" VNone = num 300.
Proof. vm_compute. split; reflexivity. Qed.

(** *** What an instance reads after a file was merged in *)

(** What is read under a key depends on the entry of that key and on the
    cell of that name only. *)
Lemma get_path_entry (base base' : dict) (st st' : gmap string pyval)
    (k : string) (ks : list string) :
  top_level base -> cells_ref_free st ->
  dict_get k base' = dict_get k base -> st' !! k = st !! k ->
  get_path st' (VDict base') (k :: ks) = get_path st (VDict base) (k :: ks).
Proof.
  intros Hb Hst Hentry Hcell. rewrite !get_path_dict, Hentry.
  destruct (dict_get k base) as [e|] eqn:He; [|reflexivity].
  destruct (top_level_get k base e Hb He) as [->|Hfree].
  - destruct ks as [|k2 l]; [reflexivity|].
    cbn [get_path]. unfold subscript. cbn [deref]. rewrite Hcell.
    destruct (st !! k) as [x|] eqn:Hx; [|reflexivity].
    destruct x as [| | | | |d|cell]; try reflexivity.
    destruct (dict_get k2 d) as [y|] eqn:Hy; [|reflexivity].
    apply get_path_ref_free.
    eapply ref_free_dict_get; [|exact Hy]. exact (Hst k _ Hx).
  - apply get_path_ref_free, Hfree.
Qed.

(** One turn of the loop puts the leaves of its value under its key. *)
Lemma merge_entry_reads_leaf (key : string) (value : pyval) (base : dict)
    (st : gmap string pyval) (ks : list string) (v : pyval) :
  plain value = true -> top_level base -> cells_ref_free st ->
  get_path ∅ value ks = Ok v -> is_dict v = false ->
  get_path (snd (merge_entry key value base st))
    (VDict (fst (merge_entry key value base st))) (key :: ks)
  = Ok v.
Proof.
  intros Hpv Hb Hst Hpath Hleaf.
  pose proof (plain_ref_free value Hpv) as Hvf.
  assert (Hassigned :
    get_path st (VDict (dict_set key value base)) (key :: ks) = Ok v).
  { rewrite get_path_dict, dict_get_set_eq.
    rewrite (get_path_ref_free ks value st ∅ Hvf). exact Hpath. }
  unfold merge_entry. cbn [_deep_merge].
  destruct value as [| | | | |u|cell]; try exact Hassigned.
  destruct ks as [|k2 l].
  { cbn [get_path] in Hpath. injection Hpath as <-. discriminate Hleaf. }
  destruct (dict_get key base) as [[| | | | |b|cell]|] eqn:Hget;
    try exact Hassigned.
  - destruct (top_level_get key base _ Hb Hget) as [Hx|Hbf];
      [discriminate Hx|].
    destruct (_deep_merge_ref_free u b st Hvf Hbf) as [Hs _].
    pose proof (_deep_merge_sets_path u Hpv b st (k2 :: l) v Hbf
                  ltac:(discriminate) Hpath Hleaf st) as Hread.
    destruct (_deep_merge b u st) as [b' st']. cbn [fst snd] in *. subst st'.
    rewrite get_path_dict, dict_get_set_eq. exact Hread.
  - destruct (top_level_get key base _ Hb Hget) as [Hx|Hbf];
      [|discriminate Hbf].
    injection Hx as ->.
    destruct (st !! key) as [[| | | | |b|cell']|] eqn:Hcell;
      try exact Hassigned.
    pose proof (Hst key _ Hcell) as Hbf.
    destruct (_deep_merge_ref_free u b st Hvf Hbf) as [Hs _].
    pose proof (_deep_merge_sets_path u Hpv b st (k2 :: l) v Hbf
                  ltac:(discriminate) Hpath Hleaf
                  (<[key := VDict (fst (_deep_merge b u st))]> st)) as Hread.
    destruct (_deep_merge b u st) as [b' st']. cbn [fst snd] in *. subst st'.
    rewrite get_path_dict, Hget.
    rewrite (get_path_ref _ key b'); [exact Hread|discriminate|].
    apply lookup_insert_eq.
Qed.

(** After a document is merged into an instance's dictionary, every
    leaf of the document is read where the document has it. *)
Lemma _deep_merge_reads_leaf :
  forall update,
    plain_dict update = true ->
    forall base st k ks v,
      top_level base -> cells_ref_free st ->
      get_path ∅ (VDict update) (k :: ks) = Ok v ->
      is_dict v = false ->
      get_path (snd (_deep_merge base update st))
        (VDict (fst (_deep_merge base update st))) (k :: ks)
      = Ok v.
Proof.
  induction update as [|key value rest IH];
    intros Hplain base st k ks v Hb Hst Hpath Hleaf.
  - rewrite get_path_dict in Hpath. discriminate Hpath.
  - simpl in Hplain. apply andb_prop in Hplain. destruct Hplain as [Hp Hpr].
    apply andb_prop in Hp. destruct Hp as [Hk Hpv].
    apply negb_true_iff in Hk.
    pose proof (plain_ref_free value Hpv) as Hvf.
    destruct (merge_entry_top key value base st Hvf Hb Hst)
      as (Hb1 & Hst1 & Hframe1).
    rewrite get_path_dict in Hpath. cbn [dict_get] in Hpath.
    rewrite _deep_merge_cons.
    destruct (String.eqb k key) eqn:E.
    + apply String.eqb_eq in E. subst k.
      destruct (_deep_merge_top rest _ _ (plain_ref_free (VDict rest) Hpr)
                  Hb1 Hst1) as (_ & _ & Hframe).
      rewrite (get_path_entry (fst (merge_entry key value base st)) _
                 (snd (merge_entry key value base st)) _ key ks Hb1 Hst1).
      * apply merge_entry_reads_leaf; assumption.
      * apply _deep_merge_other, Hk.
      * apply Hframe, Hk.
    + rewrite <- get_path_dict in Hpath.
      apply IH; assumption.
Qed.

(** X13. A value the configuration file gives is the value the instance
    reads: for every key whose dotted path leads to a leaf of the file
    (anything but a dictionary), [Config(config_file).get(key, default)]
    returns the file's value, at the top level, inside a section of the
    defaults or inside a section the file adds. *)
Theorem file_values_are_read
    (read_json : string -> option (result pyval)) (config_file : string)
    (file_config : dict) (st : gmap string pyval) (key : string)
    (v default : pyval) (config1 : dict) :
  cells_ref_free st ->
  truthy config_file = true ->
  read_json config_file = Some (Ok (VDict file_config)) ->
  plain_dict file_config = true ->
  get_path ∅ (VDict file_config) (split_dots key) = Ok v ->
  is_dict v = false ->
  fst (__init__ read_json (Some config_file) st) = Ok config1 ->
  get config1 (snd (__init__ read_json (Some config_file) st)) key default
  = v.
Proof.
  intros Hcells Ht Hr Hplain Hpath Hleaf.
  rewrite (__init___merges read_json config_file file_config st Ht Hr).
  cbn [fst snd].
  destruct (validate_config _ _) as [[]|e]; cbn [and_then]; [|discriminate].
  intros [= <-]. unfold get.
  destruct (split_dots key) as [|k ks] eqn:Hkeys.
  - exfalso. exact (split_dots_not_nil key Hkeys).
  - rewrite (_deep_merge_reads_leaf file_config Hplain DEFAULT_CONFIG st k ks
               v DEFAULT_CONFIG_top_level Hcells Hpath Hleaf).
    reflexivity.
Qed.

(** X14. What the configuration file does not mention at its top level
    is read as before: for a key whose first component is no top-level key
    of the file, [Config(config_file).get(key, default)] returns what the
    defaults gave for it before the file was loaded. *)
Theorem file_leaves_other_sections
    (read_json : string -> option (result pyval)) (config_file : string)
    (file_config : dict) (st : gmap string pyval) (key k : string)
    (ks : list string) (default : pyval) (config1 : dict) :
  cells_ref_free st ->
  truthy config_file = true ->
  read_json config_file = Some (Ok (VDict file_config)) ->
  plain_dict file_config = true ->
  split_dots key = k :: ks ->
  existsb (String.eqb k) (dict_keys file_config) = false ->
  fst (__init__ read_json (Some config_file) st) = Ok config1 ->
  get config1 (snd (__init__ read_json (Some config_file) st)) key default
  = get DEFAULT_CONFIG st key default.
Proof.
  intros Hcells Ht Hr Hplain Hkeys Hk.
  rewrite (__init___merges read_json config_file file_config st Ht Hr).
  cbn [fst snd].
  destruct (validate_config _ _) as [[]|e]; cbn [and_then]; [|discriminate].
  intros [= <-]. unfold get. rewrite Hkeys.
  destruct (_deep_merge_top file_config DEFAULT_CONFIG st
              (plain_ref_free (VDict file_config) Hplain)
              DEFAULT_CONFIG_top_level Hcells) as (_ & _ & Hframe).
  rewrite (get_path_entry DEFAULT_CONFIG _ st _ k ks
             DEFAULT_CONFIG_top_level Hcells
             (_deep_merge_other k file_config Hk DEFAULT_CONFIG st)
             (Hframe k Hk)).
  reflexivity.
Qed.

(** The file of the threshold example, read back. *)
Lemma file_values_are_read_witness :
  get DEFAULT_CONFIG (snd after_threshold_file) "ocr.confidence_threshold"
    VNone
  = num 85.
Proof.
  apply (file_values_are_read (one_file "config.json" (VDict threshold_file))
           "config.json" threshold_file initial_store
           "ocr.confidence_threshold" (num 85) VNone DEFAULT_CONFIG).
  - exact (proj1 initial_store_shared).
  - reflexivity.
  - reflexivity.
  - reflexivity.
  - reflexivity.
  - reflexivity.
  - vm_compute. reflexivity.
Defined.

Lemma file_leaves_other_sections_witness :
  get DEFAULT_CONFIG (snd after_threshold_file) "selenium.timeout" VNone
  = get DEFAULT_CONFIG initial_store "selenium.timeout" VNone.
Proof.
  apply (file_leaves_other_sections
           (one_file "config.json" (VDict threshold_file)) "config.json"
           threshold_file initial_store "selenium.timeout" "selenium"
           ["timeout"] VNone DEFAULT_CONFIG).
  - exact (proj1 initial_store_shared).
  - reflexivity.
  - reflexivity.
  - reflexivity.
  - reflexivity.
  - reflexivity.
  - vm_compute. reflexivity.
Defined.

(** *** What [validate_config] accepts *)

Lemma check_sections_spec (config : dict) (sections : list string) :
  (check_sections sections config = Ok tt
   /\ forall s, In s sections -> dict_get s config <> None)
  \/ exists s,
       In s sections /\ dict_get s config = None
       /\ check_sections sections config
          = Raise (ValueError
                     ("Missing required configuration section: " ++ s)).
Proof.
  induction sections as [|section rest IH]; cbn [check_sections].
  - left. split; [reflexivity|]. intros s [].
  - destruct (dict_get section config) as [x|] eqn:Hget.
    + destruct IH as [[Hok Hall]|(s & Hin & Hs & Hraise)].
      * left. split; [exact Hok|].
        intros s [<-|Hin]; [congruence|auto].
      * right. exists s. split; [right; exact Hin|]. split; assumption.
    + right. exists section. split; [left; reflexivity|]. split; [exact Hget|].
      reflexivity.
Qed.






(** X16. When a required section is missing, [validate_config] raises
    [ValueError] naming a missing section (the first one in the order
    tesseract, preprocessing, selenium, ocr, extraction), before it looks at
    any value. *)
Theorem validate_config_missing_section (config : dict)
    (st : gmap string pyval) (section : string) :
  In section required_sections ->
  dict_get section config = None ->
  exists s,
    In s required_sections /\ dict_get s config = None
    /\ validate_config config st
       = Raise (ValueError ("Missing required configuration section: " ++ s)).
Proof.
  intros Hin Hmissing. unfold validate_config.
  destruct (check_sections_spec config required_sections)
    as [[_ Hall]|(s & Hs & Hnone & ->)].
  - destruct (Hall section Hin Hmissing).
  - exists s. split; [exact Hs|]. split; [exact Hnone|reflexivity].
Qed.


Lemma validate_config_missing_section_witness :
  exists s,
    In s required_sections /\ dict_get s DNil = None
    /\ validate_config DNil initial_store
       = Raise (ValueError ("Missing required configuration section: " ++ s)).
Proof.
  apply (validate_config_missing_section DNil initial_store "ocr").
  - simpl. auto.
  - reflexivity.
Defined.

End Config.

(** ** utils.py: helpers used across the package *)

Module Utils.

(** *** Strings, character by character *)

(** Every character of [s] satisfies [p]. *)
Fixpoint every (p : ascii -> bool) (s : string) : bool :=
  match s with
  | EmptyString => true
  | String c s' => p c && every p s'
  end.

Fixpoint map_chars (f : ascii -> ascii) (s : string) : string :=
  match s with
  | EmptyString => EmptyString
  | String c s' => String (f c) (map_chars f s')
  end.

(** [s.lstrip(chars)], [s.rstrip(chars)] and [s.strip(chars)] for the set of
    characters [p]. *)
Fixpoint lstrip_chars (p : ascii -> bool) (s : string) : string :=
  match s with
  | String c s' => if p c then lstrip_chars p s' else s
  | EmptyString => EmptyString
  end.

Fixpoint rstrip_chars (p : ascii -> bool) (s : string) : string :=
  match s with
  | String c s' =>
      match rstrip_chars p s' with
      | EmptyString => if p c then EmptyString else String c EmptyString
      | r => String c r
      end
  | EmptyString => EmptyString
  end.

Definition strip_chars (p : ascii -> bool) (s : string) : string :=
  rstrip_chars p (lstrip_chars p s).

Definition first_char (s : string) : option ascii :=
  match s with
  | String c _ => Some c
  | EmptyString => None
  end.

Fixpoint last_char (s : string) : option ascii :=
  match s with
  | EmptyString => None
  | String c EmptyString => Some c
  | String _ s' => last_char s'
  end.

(** *** safe_filename *)

Definition double_quote : ascii := ascii_of_nat 34.

(** The characters the regular expression replaces: angle brackets,
    colon, double quote, slash, backslash, bar, question mark and star. *)
Definition invalid_characters : list ascii :=
  ["<"; ">"; ":"; double_quote; "/"; "\"; "|"; "?"; "*"]%char.

Definition is_invalid (c : ascii) : bool :=
  existsb (Ascii.eqb c) invalid_characters.

(** The characters of [strip('. ')]. *)
Definition dot_or_space (c : ascii) : bool :=
  Ascii.eqb c "." || Ascii.eqb c " ".

(** utils.safe_filename *)
Definition safe_filename (filename : string) : string :=
  let safe_name :=
    map_chars (fun c => if is_invalid c then "_"%char else c) filename in
  let safe_name := strip_chars dot_or_space safe_name in
  if negb (truthy safe_name) then "unnamed" else safe_name.

(** A name as the file system takes it: not empty, none of the invalid
    characters, no dot or space at either end. *)
Definition is_safe (name : string) : Prop :=
  name <> EmptyString
  /\ every (fun c => negb (is_invalid c)) name = true
  /\ (forall c, first_char name = Some c -> dot_or_space c = false)
  /\ (forall c, last_char name = Some c -> dot_or_space c = false).

Lemma every_lstrip_chars (p q : ascii -> bool) (s : string) :
  every q s = true -> every q (lstrip_chars p s) = true.
Proof.
  induction s as [|c s IH]; cbn [lstrip_chars every]; [auto|].
  intros H. destruct (p c); [|exact H].
  apply andb_prop in H. apply IH, H.
Qed.

Lemma every_rstrip_chars (p q : ascii -> bool) (s : string) :
  every q s = true -> every q (rstrip_chars p s) = true.
Proof.
  induction s as [|c s IH]; cbn [rstrip_chars every]; [auto|].
  intros H. apply andb_prop in H. destruct H as [Hc Hs].
  specialize (IH Hs). destruct (rstrip_chars p s) as [|d r].
  - destruct (p c); cbn [every]; [reflexivity|]. rewrite Hc. reflexivity.
  - cbn [every] in *. rewrite Hc. exact IH.
Qed.

Lemma first_char_lstrip_chars (p : ascii -> bool) (s : string) (c : ascii) :
  first_char (lstrip_chars p s) = Some c -> p c = false.
Proof.
  induction s as [|d s IH]; cbn [lstrip_chars]; [discriminate|].
  destruct (p d) eqn:E; [exact IH|].
  cbn [first_char]. intros [= <-]. exact E.
Qed.

Lemma first_char_rstrip_chars (p : ascii -> bool) (s : string) (c : ascii) :
  first_char (rstrip_chars p s) = Some c -> first_char s = Some c.
Proof.
  destruct s as [|d s]; cbn [rstrip_chars]; [auto|].
  destruct (rstrip_chars p s) as [|e r]; [|auto].
  destruct (p d); [discriminate|auto].
Qed.

Lemma last_char_rstrip_chars (p : ascii -> bool) (s : string) (c : ascii) :
  last_char (rstrip_chars p s) = Some c -> p c = false.
Proof.
  induction s as [|d s IH]; cbn [rstrip_chars]; [discriminate|].
  destruct (rstrip_chars p s) as [|e r].
  - destruct (p d) eqn:E; [discriminate|].
    cbn [last_char]. intros [= <-]. exact E.
  - exact IH.
Qed.

(** A string with no character of [p] at either end is its own strip. *)
Lemma lstrip_chars_fixed (p : ascii -> bool) (s : string) :
  (forall c, first_char s = Some c -> p c = false) ->
  lstrip_chars p s = s.
Proof.
  destruct s as [|d s]; [reflexivity|].
  intros H. cbn [lstrip_chars]. rewrite (H d eq_refl). reflexivity.
Qed.

Lemma rstrip_chars_fixed (p : ascii -> bool) (s : string) :
  (forall c, last_char s = Some c -> p c = false) ->
  rstrip_chars p s = s.
Proof.
  induction s as [|d s IH]; [reflexivity|].
  intros H. cbn [rstrip_chars].
  destruct s as [|e s].
  - cbn [rstrip_chars]. rewrite (H d eq_refl). reflexivity.
  - rewrite IH; [reflexivity|]. intros c Hc. apply H. exact Hc.
Qed.

Lemma map_chars_fixed (f : ascii -> ascii) (q : ascii -> bool) (s : string) :
  (forall c, q c = true -> f c = c) ->
  every q s = true -> map_chars f s = s.
Proof.
  intros Hf. induction s as [|c s IH]; cbn [every map_chars]; [reflexivity|].
  intros H. apply andb_prop in H. destruct H as [Hc Hs].
  rewrite (Hf c Hc), (IH Hs). reflexivity.
Qed.

Lemma every_map_chars (f : ascii -> ascii) (q : ascii -> bool) (s : string) :
  (forall c, q (f c) = true) -> every q (map_chars f s) = true.
Proof.
  intros Hf. induction s as [|c s IH]; cbn [every map_chars]; [reflexivity|].
  rewrite (Hf c), IH. reflexivity.
Qed.

Lemma replaced_is_valid (c : ascii) :
  negb (is_invalid (if is_invalid c then "_"%char else c)) = true.
Proof. destruct (is_invalid c) eqn:E; [reflexivity|]. rewrite E. reflexivity. Qed.

Lemma safe_filename_is_safe (filename : string) :
  is_safe (safe_filename filename).
Proof.
  unfold safe_filename.
  set (replaced := map_chars _ filename).
  assert (Hvalid : every (fun c => negb (is_invalid c)) replaced = true).
  { apply every_map_chars. exact replaced_is_valid. }
  destruct (strip_chars dot_or_space replaced) as [|c s] eqn:E.
  - cbn [truthy negb]. repeat split; try discriminate.
    + intros c [= <-]. reflexivity.
    + intros c [= <-]. reflexivity.
  - cbn [truthy negb]. rewrite <- E. unfold strip_chars. split; [|split; [|split]].
    + unfold strip_chars in E. rewrite E. discriminate.
    + apply every_rstrip_chars, every_lstrip_chars, Hvalid.
    + intros d Hd. apply first_char_rstrip_chars in Hd.
      eapply first_char_lstrip_chars. exact Hd.
    + intros d Hd. eapply last_char_rstrip_chars. exact Hd.
Qed.

Lemma safe_filename_of_safe (name : string) :
  is_safe name -> safe_filename name = name.
Proof.
  intros (Hne & Hvalid & Hfirst & Hlast). unfold safe_filename.
  rewrite (map_chars_fixed _ (fun c => negb (is_invalid c)) name);
    [|intros c Hc; apply negb_true_iff in Hc; rewrite Hc; reflexivity
     |exact Hvalid].
  unfold strip_chars.
  rewrite (lstrip_chars_fixed _ _ Hfirst), (rstrip_chars_fixed _ _ Hlast).
  destruct name; [congruence|reflexivity].
Qed.

(** X1. Whatever the input, [safe_filename] returns a name that is not
    empty, holds none of the characters it replaces (angle brackets, colon,
    double quote, slash, backslash, bar, question mark, star), and neither
    starts nor ends with a dot or a space. *)
Theorem safe_filename_safe (filename : string) :
  let name := safe_filename filename in
  name <> EmptyString
  /\ every (fun c => negb (is_invalid c)) name = true
  /\ (forall c, first_char name = Some c -> dot_or_space c = false)
  /\ (forall c, last_char name = Some c -> dot_or_space c = false).
Proof.
  intros name. subst name.
  destruct (safe_filename_is_safe filename) as (Hne & Hvalid & Hfirst & Hlast).
  split; [exact Hne|]. split; [exact Hvalid|]. split; assumption.
Qed.

(** X2. [safe_filename] is idempotent: a name it has produced is returned
    unchanged. *)
Theorem safe_filename_idempotent (filename : string) :
  safe_filename (safe_filename filename) = safe_filename filename.
Proof. apply safe_filename_of_safe, safe_filename_is_safe. Qed.

(** *** retry_operation *)

(** What a run of [retry_operation] does to the outside: it calls [func]
    and it sleeps. *)
Inductive event : Type :=
| Called
| Slept (seconds : Q).

Definition calls (trace : list event) : nat :=
  length (List.filter (fun e => match e with Called => true | _ => false end)
            trace).

Fixpoint slept (trace : list event) : list Q :=
  match trace with
  | [] => []
  | Called :: rest => slept rest
  | Slept seconds :: rest => seconds :: slept rest
  end.

Section Retry.

(** The value [func] returns and the world it acts on. *)
Variable A : Type.
Variable U : Type.

Variable func : U -> result A * U.

(** [isinstance(e, exceptions)] for the tuple [exceptions]. *)
Variable caught : exn -> bool.

(** [time.sleep], which refuses a negative length. *)
Variable time_sleep : Q -> U -> result unit * U.

(** The world with the record of what was done to it. *)
Definition world : Type := U * list event.

(** [delay * (2 ** attempt)] *)
Definition backoff (delay : Q) (attempt : nat) : Q :=
  (delay * inject_Z (2 ^ Z.of_nat attempt))%Q.

(** The [for attempt in range(max_attempts)] loop with the [raise] after
    it; [remaining] counts the iterations left. *)
Fixpoint retry_loop (remaining attempt : nat) (max_attempts : Z) (delay : Q)
    (last_exception : option exn) (w : world) : result A * world :=
  match remaining with
  | O =>
      match last_exception with
      | Some e => (Raise e, w)
      | None =>
          (Raise (TypeError "exceptions must derive from BaseException"), w)
      end
  | S remaining' =>
      let '(u, trace) := w in
      match func u with
      | (Ok a, u1) => (Ok a, (u1, trace ++ [Called]))
      | (Raise e, u1) =>
          if caught e then
            if Z.ltb (Z.of_nat attempt) (max_attempts - 1) then
              match time_sleep (backoff delay attempt) u1 with
              | (Ok _, u2) =>
                  retry_loop remaining' (S attempt) max_attempts delay
                    (Some e)
                    (u2, trace ++ [Called; Slept (backoff delay attempt)])
              | (Raise e', u2) => (Raise e', (u2, trace ++ [Called]))
              end
            else
              retry_loop remaining' (S attempt) max_attempts delay (Some e)
                (u1, trace ++ [Called])
          else (Raise e, (u1, trace ++ [Called]))
      end
  end.

(** utils.retry_operation *)
Definition retry_operation (max_attempts : Z) (delay : Q) (u : U)
    : result A * world :=
  retry_loop (Z.to_nat max_attempts) 0 max_attempts delay None (u, []).

Lemma calls_app (t1 t2 : list event) :
  calls (t1 ++ t2) = calls t1 + calls t2.
Proof. unfold calls. rewrite List.filter_app, length_app. reflexivity. Qed.

Lemma slept_app (t1 t2 : list event) :
  slept (t1 ++ t2) = slept t1 ++ slept t2.
Proof.
  induction t1 as [|[|q] t1 IH]; cbn [slept app]; [reflexivity|exact IH|].
  rewrite IH. reflexivity.
Qed.

(** The record of a run that made [n] calls, the first of them numbered
    [attempt]: each call but the last is followed by its sleep, and the
    last call ends the record. *)
Definition schedule (delay : Q) (attempt n : nat) : list event :=
  match n with
  | O => []
  | S retries =>
      flat_map (fun i => [Called; Slept (backoff delay i)])
        (seq attempt retries)
      ++ [Called]
  end.

(** The world in which the call [k] calls later is made, when each call
    before it fails and is followed by its sleep: [func] leaves the world
    to [time_sleep], which leaves it to the next call. *)
Fixpoint world_before_call (delay : Q) (attempt : nat) (u : U) (k : nat)
    : U :=
  match k with
  | O => u
  | S k' =>
      world_before_call delay (S attempt)
        (snd (time_sleep (backoff delay attempt) (snd (func u)))) k'
  end.

Lemma schedule_step (delay : Q) (attempt n : nat) :
  schedule delay attempt (S (S n))
  = Called :: Slept (backoff delay attempt) :: schedule delay (S attempt) (S n).
Proof. reflexivity. Qed.

Lemma backoff_not_negative (delay : Q) (attempt : nat) :
  (0 <= delay)%Q -> (0 <= backoff delay attempt)%Q.
Proof.
  intros Hdelay. unfold backoff. apply Qmult_le_0_compat; [exact Hdelay|].
  change 0%Q with (inject_Z 0). rewrite <- Zle_Qle.
  apply Z.pow_nonneg. lia.
Qed.

(** The loop, from any iteration on: the record it adds is a schedule. *)
Lemma retry_loop_schedule (max_attempts : Z) (delay : Q) :
  forall remaining attempt last_exception u trace,
    Z.of_nat (attempt + remaining) = Z.max 0 max_attempts ->
    exists n,
      snd (snd (retry_loop remaining attempt max_attempts delay
                  last_exception (u, trace)))
      = trace ++ schedule delay attempt n
      /\ n <= remaining
      /\ (remaining <> 0 -> n <> 0).
Proof.
  induction remaining as [|remaining IH];
    intros attempt last_exception u trace Hsum.
  - exists 0. cbn [retry_loop schedule]. rewrite app_nil_r.
    destruct last_exception; cbn; (split; [reflexivity|]);
      (split; [lia|congruence]).
  - cbn [retry_loop].
    destruct (func u) as [[a|e] u1].
    + exists 1. cbn. repeat split; lia || discriminate.
    + destruct (caught e).
      * destruct (Z.ltb (Z.of_nat attempt) (max_attempts - 1)) eqn:Hlt.
        -- destruct (time_sleep (backoff delay attempt) u1) as [[[]|e'] u2].
           ++ destruct (IH (S attempt) (Some e) u2
                          (trace ++ [Called; Slept (backoff delay attempt)])
                          ltac:(lia))
                as (n & Htrace & Hcalls & Hrun).
              apply Z.ltb_lt in Hlt.
              assert (Hrem : remaining <> 0) by lia.
              specialize (Hrun Hrem).
              destruct n as [|n]; [congruence|].
              exists (S (S n)). rewrite Htrace, <- app_assoc, schedule_step.
              split; [reflexivity|]. split; [lia|discriminate].
           ++ exists 1. cbn. repeat split; lia || discriminate.
        -- apply Z.ltb_ge in Hlt.
           assert (Hrem : remaining = 0) by lia. subst remaining.
           exists 1. cbn. repeat split; lia || discriminate.
      * exists 1. cbn. repeat split; lia || discriminate.
Qed.

Lemma calls_schedule (delay : Q) (n : nat) :
  forall attempt, calls (schedule delay attempt n) = n.
Proof.
  destruct n as [|n]; [reflexivity|].
  induction n as [|n IH]; intros attempt; [reflexivity|].
  rewrite schedule_step.
  change (calls (Called :: Slept (backoff delay attempt)
                 :: schedule delay (S attempt) (S n)))
    with (S (calls (schedule delay (S attempt) (S n)))).
  rewrite IH. reflexivity.
Qed.

Lemma slept_schedule (delay : Q) (n : nat) :
  forall attempt,
    slept (schedule delay attempt n)
    = map (backoff delay) (seq attempt (pred n)).
Proof.
  destruct n as [|n]; [reflexivity|].
  induction n as [|n IH]; intros attempt; [reflexivity|].
  rewrite schedule_step. cbn [slept pred seq map].
  rewrite IH. reflexivity.
Qed.

(** The loop when every call fails with a caught exception and no sleep
    of a length that is not negative fails: it runs to the end, and its
    outcome and the world it leaves are those of the last call. *)
Lemma retry_loop_exhausted (max_attempts : Z) (delay : Q) :
  (forall u, exists e, fst (func u) = Raise e /\ caught e = true) ->
  (forall seconds u, (0 <= seconds)%Q -> fst (time_sleep seconds u) = Ok tt) ->
  (0 <= delay)%Q ->
  forall remaining attempt last_exception u trace,
    Z.of_nat (attempt + S remaining) = Z.max 0 max_attempts ->
    let run :=
      retry_loop (S remaining) attempt max_attempts delay last_exception
        (u, trace) in
    let last := world_before_call delay attempt u remaining in
    fst run = fst (func last)
    /\ fst (snd run) = snd (func last)
    /\ snd (snd run) = trace ++ schedule delay attempt (S remaining).
Proof.
  intros Hfails Hsleeps Hdelay.
  induction remaining as [|remaining IH];
    intros attempt last_exception u trace Hsum; cbv zeta.
  - cbn [retry_loop world_before_call].
    destruct (Hfails u) as (e & He & Hcaught).
    destruct (func u) as [r u1]. cbn [fst snd] in *. subst r.
    rewrite Hcaught.
    replace (Z.ltb (Z.of_nat attempt) (max_attempts - 1)) with false
      by (symmetry; apply Z.ltb_ge; lia).
    repeat split.
  - cbn [world_before_call].
    change (retry_loop (S (S remaining)) attempt max_attempts delay
              last_exception (u, trace))
      with (match func u with
            | (Ok a, u1) => (Ok a, (u1, trace ++ [Called]))
            | (Raise e, u1) =>
                if caught e then
                  if Z.ltb (Z.of_nat attempt) (max_attempts - 1) then
                    match time_sleep (backoff delay attempt) u1 with
                    | (Ok _, u2) =>
                        retry_loop (S remaining) (S attempt) max_attempts
                          delay (Some e)
                          (u2,
                           trace ++ [Called; Slept (backoff delay attempt)])
                    | (Raise e', u2) => (Raise e', (u2, trace ++ [Called]))
                    end
                  else
                    retry_loop (S remaining) (S attempt) max_attempts delay
                      (Some e) (u1, trace ++ [Called])
                else (Raise e, (u1, trace ++ [Called]))
            end).
    destruct (Hfails u) as (e & He & Hcaught).
    destruct (func u) as [r u1]. cbn [fst snd] in *. subst r.
    rewrite Hcaught.
    replace (Z.ltb (Z.of_nat attempt) (max_attempts - 1)) with true
      by (symmetry; apply Z.ltb_lt; lia).
    pose proof (Hsleeps (backoff delay attempt) u1
                  (backoff_not_negative delay attempt Hdelay)) as Hs.
    destruct (time_sleep (backoff delay attempt) u1) as [r u2].
    cbn [fst snd] in *. subst r.
    destruct (IH (S attempt) (Some e) u2
                (trace ++ [Called; Slept (backoff delay attempt)])
                ltac:(lia)) as (Hres & Hworld & Htrace).
    split; [exact Hres|]. split; [exact Hworld|].
    rewrite Htrace, <- app_assoc, schedule_step. reflexivity.
Qed.

(** X3. However [func] behaves, [retry_operation] calls it at most
    [max_attempts] times, and it sleeps exactly once between two
    consecutive calls and never after the last one: the record of the run
    is a call, the sleep of [delay] seconds, a call, the sleep of twice
    that, and so on, the sleep before the call number [i + 1] lasting
    [delay * 2 ** i] seconds, and it ends with a call. *)
Theorem retry_operation_backoff (max_attempts : Z) (delay : Q) (u : U) :
  let trace := snd (snd (retry_operation max_attempts delay u)) in
  (Z.of_nat (calls trace) <= Z.max 0 max_attempts)%Z
  /\ trace = schedule delay 0 (calls trace)
  /\ slept trace = map (backoff delay) (seq 0 (pred (calls trace))).
Proof.
  intros trace. subst trace. unfold retry_operation.
  destruct (retry_loop_schedule max_attempts delay (Z.to_nat max_attempts) 0
              None u []) as (n & Htrace & Hcalls & _); [lia|].
  rewrite Htrace. cbn [app]. rewrite calls_schedule, slept_schedule.
  split; [lia|]. split; reflexivity.
Qed.

(** X4. When every call of [func] fails with an exception of the caught
    classes, [max_attempts] is positive and [delay] is not negative (so
    that no sleep is refused), [retry_operation] calls [func] exactly
    [max_attempts] times, each call but the last followed by its sleep, and
    then raises the exception the last of these calls raised, leaving the
    world as that call left it. *)
Theorem retry_operation_exhausted (max_attempts : Z) (delay : Q) (u : U) :
  (forall u, exists e, fst (func u) = Raise e /\ caught e = true) ->
  (forall seconds u, (0 <= seconds)%Q -> fst (time_sleep seconds u) = Ok tt) ->
  (0 <= delay)%Q ->
  (0 < max_attempts)%Z ->
  let run := retry_operation max_attempts delay u in
  let last :=
    world_before_call delay 0 u (Z.to_nat max_attempts - 1) in
  Z.of_nat (calls (snd (snd run))) = max_attempts
  /\ snd (snd run) = schedule delay 0 (Z.to_nat max_attempts)
  /\ (exists e, fst (func last) = Raise e /\ fst run = Raise e)
  /\ fst (snd run) = snd (func last).
Proof.
  intros Hfails Hsleeps Hdelay Hpos run last. subst run last.
  unfold retry_operation.
  destruct (Z.to_nat max_attempts) as [|remaining] eqn:Hn; [lia|].
  destruct (retry_loop_exhausted max_attempts delay Hfails Hsleeps Hdelay
              remaining 0 None u []) as (Hres & Hworld & Htrace); [lia|].
  replace (S remaining - 1) with remaining by lia.
  rewrite Htrace, Hres, Hworld. cbn [app]. rewrite calls_schedule.
  split; [lia|]. split; [reflexivity|]. split; [|reflexivity].
  destruct (Hfails (world_before_call delay 0 u remaining)) as (e & He & _).
  exists e. split; exact He.
Qed.

(** X5. With [max_attempts] zero or negative the loop body never runs:
    [func] is not called, nothing is slept, and the final
    [raise last_exception] raises [None], which Python turns into a
    [TypeError]. *)
Theorem retry_operation_no_attempt (max_attempts : Z) (delay : Q) (u : U) :
  (max_attempts <= 0)%Z ->
  retry_operation max_attempts delay u
  = (Raise (TypeError "exceptions must derive from BaseException"), (u, [])).
Proof.
  intros Hle. unfold retry_operation.
  replace (Z.to_nat max_attempts) with 0%nat by lia.
  reflexivity.
Qed.

End Retry.

(** A service that is always down, retried three times from one second. *)
Definition always_down (u : nat) : result unit * nat :=
  (Raise (OSError "connection refused"), S u).

Definition sleep_ok (seconds : Q) (u : nat) : result unit * nat := (Ok tt, u).

(** A service that is down in a different way each time it is tried. *)
Definition down_again (u : nat) : result unit * nat :=
  (Raise (OSError (match u with
                   | 0 => "connection refused"
                   | 1 => "connection reset"
                   | _ => "timed out"
                   end)),
   S u).

(** [time.sleep], which refuses a negative length. *)
Definition sleep_checked (seconds : Q) (u : nat) : result unit * nat :=
  if Qle_bool 0 seconds then (Ok tt, u)
  else (Raise (ValueError "sleep length must be non-negative"), u).

Lemma sleep_checked_ok (seconds : Q) (u : nat) :
  (0 <= seconds)%Q -> fst (sleep_checked seconds u) = Ok tt.
Proof.
  intros H. unfold sleep_checked. apply Qle_bool_iff in H. rewrite H.
  reflexivity.
Qed.

Example retry_down_again :
  retry_operation unit nat down_again (fun _ => true) sleep_checked 3 1 0
  = (Raise (OSError "timed out"),
     (3, [Called; Slept (1 * inject_Z 1); Called; Slept (1 * inject_Z 2);
          Called])).
Proof. reflexivity. Qed.

(** A negative delay: the first sleep is refused, after one call. *)
Example retry_negative_delay :
  retry_operation unit nat down_again (fun _ => true) sleep_checked 3 (-1) 0
  = (Raise (ValueError "sleep length must be non-negative"), (1, [Called])).
Proof. reflexivity. Qed.

Lemma retry_operation_exhausted_witness :
  let run :=
    retry_operation unit nat down_again (fun _ => true) sleep_checked 3 1 0 in
  let last :=
    world_before_call unit nat down_again sleep_checked 1 0 0
      (Z.to_nat 3 - 1) in
  Z.of_nat (calls (snd (snd run))) = 3%Z
  /\ snd (snd run) = schedule 1 0 (Z.to_nat 3)
  /\ (exists e, fst (down_again last) = Raise e /\ fst run = Raise e)
  /\ fst (snd run) = snd (down_again last).
Proof.
  apply (retry_operation_exhausted unit nat down_again (fun _ => true)
           sleep_checked 3 1 0).
  - intros u. eexists. split; reflexivity.
  - exact sleep_checked_ok.
  - discriminate.
  - lia.
Defined.

Lemma retry_operation_no_attempt_witness :
  retry_operation unit nat always_down (fun _ => true) sleep_ok 0 1 0
  = (Raise (TypeError "exceptions must derive from BaseException"), (0%nat, [])).
Proof.
  apply (retry_operation_no_attempt unit nat always_down (fun _ => true)
           sleep_ok 0 1 0).
  lia.
Defined.

Example retry_three_times :
  snd (snd (retry_operation unit nat always_down (fun _ => true) sleep_ok 3 1 0))
  = [Called; Slept (1 * inject_Z 1); Called; Slept (1 * inject_Z 2); Called].
Proof. reflexivity. Qed.

(** *** normalize_confidence_score *)

(** utils.normalize_confidence_score, on exact numbers. *)
Definition normalize_confidence_score (confidence min_score max_score : Q)
    : Q :=
  if Qeq_bool max_score min_score then 1%Q
  else
    let normalized :=
      ((confidence - min_score) / (max_score - min_score))%Q in
    Qmax 0 (Qmin 1 normalized).

(** OCRHandler.get_normalized_confidence *)
Definition get_normalized_confidence (h : Ocr.handler) : Q :=
  normalize_confidence_score (Ocr.last_confidence h) 0 100.

(** X6. The normalized score always lies between 0 and 1, whatever the
    score and the bounds (equal or inverted bounds included); between
    bounds in order it is the position of the score in the interval, and
    the handler's normalized confidence is its confidence divided by 100
    when that lies between 0 and 100. *)
Theorem normalize_confidence_score_range (confidence min_score max_score : Q) :
  let r := normalize_confidence_score confidence min_score max_score in
  (0 <= r /\ r <= 1)%Q
  /\ ((min_score < max_score)%Q ->
      (min_score <= confidence)%Q -> (confidence <= max_score)%Q ->
      (r == (confidence - min_score) / (max_score - min_score))%Q)
  /\ (forall h,
        (0 <= Ocr.last_confidence h)%Q -> (Ocr.last_confidence h <= 100)%Q ->
        (get_normalized_confidence h == Ocr.last_confidence h / 100)%Q).
Proof.
  assert (Hposition : forall c lo hi,
            (lo < hi)%Q -> (lo <= c)%Q -> (c <= hi)%Q ->
            (normalize_confidence_score c lo hi == (c - lo) / (hi - lo))%Q).
  { intros c lo hi Hlt Hlo Hhi. unfold normalize_confidence_score.
    destruct (Qeq_bool hi lo) eqn:E.
    - apply Qeq_bool_iff in E. rewrite E in Hlt.
      exfalso. exact (Qlt_irrefl _ Hlt).
    - assert (Hd : (0 < hi - lo)%Q).
      { rewrite <- (Qplus_opp_r lo). apply Qplus_lt_l. exact Hlt. }
      assert (H0 : (0 <= (c - lo) / (hi - lo))%Q).
      { apply Qle_shift_div_l; [exact Hd|]. rewrite Qmult_0_l.
        rewrite <- (Qplus_opp_r lo). apply Qplus_le_l. exact Hlo. }
      assert (H1 : ((c - lo) / (hi - lo) <= 1)%Q).
      { apply Qle_shift_div_r; [exact Hd|]. rewrite Qmult_1_l.
        apply Qplus_le_l. exact Hhi. }
      rewrite (Q.min_r _ _ H1). apply Q.max_r. exact H0. }
  intros r. subst r. split; [|split].
  - unfold normalize_confidence_score.
    destruct (Qeq_bool max_score min_score); [split; discriminate|].
    split.
    + apply Q.le_max_l.
    + apply Q.max_lub; [discriminate|apply Q.le_min_l].
  - apply Hposition.
  - intros h Hlo Hhi. unfold get_normalized_confidence.
    rewrite (Hposition _ 0%Q 100%Q ltac:(reflexivity) Hlo Hhi).
    unfold Qminus. rewrite !Qplus_0_r. reflexivity.
Qed.

(** *** clean_text *)

Lemma lstrip_as_chars (s : string) : lstrip s = lstrip_chars isspace s.
Proof.
  induction s as [|c s IH]; cbn [lstrip lstrip_chars]; [reflexivity|].
  rewrite IH. reflexivity.
Qed.

Lemma rstrip_as_chars (s : string) : rstrip s = rstrip_chars isspace s.
Proof.
  induction s as [|c s IH]; cbn [rstrip rstrip_chars]; [reflexivity|].
  rewrite IH. reflexivity.
Qed.

Lemma every_strip (q : ascii -> bool) (s : string) :
  every q s = true -> every q (strip s) = true.
Proof.
  intros H. unfold strip. rewrite rstrip_as_chars, lstrip_as_chars.
  apply every_rstrip_chars, every_lstrip_chars, H.
Qed.

Lemma every_filter_chars (p q : ascii -> bool) (s : string) :
  every q s = true -> every q (Ocr.filter_chars p s) = true.
Proof.
  induction s as [|c s IH]; cbn [every Ocr.filter_chars]; [auto|].
  intros H. apply andb_prop in H. destruct H as [Hc Hs].
  destruct (p c); [|exact (IH Hs)].
  cbn [every]. rewrite Hc. exact (IH Hs).
Qed.

Lemma every_filtered (p : ascii -> bool) (s : string) :
  every p (Ocr.filter_chars p s) = true.
Proof.
  induction s as [|c s IH]; cbn [every Ocr.filter_chars]; [reflexivity|].
  destruct (p c) eqn:E; [|exact IH].
  cbn [every]. rewrite E. exact IH.
Qed.

Lemma every_collapse_whitespace (q : ascii -> bool) (s : string) :
  q " "%char = true ->
  every q s = true -> every q (Ocr.collapse_whitespace s) = true.
Proof.
  intros Hspace.
  induction s as [|c s IH]; cbn [every Ocr.collapse_whitespace]; [auto|].
  intros H. apply andb_prop in H. destruct H as [Hc Hs].
  destruct (isspace c); cbn [every].
  - rewrite Hspace, lstrip_as_chars. apply every_lstrip_chars, IH, Hs.
  - rewrite Hc. exact (IH Hs).
Qed.

Lemma every_and (p q : ascii -> bool) (s : string) :
  every p s = true -> every q s = true ->
  every (fun c => p c && q c) s = true.
Proof.
  induction s as [|c s IH]; cbn [every]; [reflexivity|].
  intros Hp Hq. apply andb_prop in Hp. apply andb_prop in Hq.
  destruct Hp as [-> Hp], Hq as [-> Hq]. exact (IH Hp Hq).
Qed.

Lemma clean_text_printable (s : string) :
  every Ocr.isprintable (Ocr.clean_text s) = true.
Proof.
  unfold Ocr.clean_text. destruct (negb (truthy s)); [reflexivity|].
  apply every_filter_chars, every_strip.
  apply every_collapse_whitespace; [reflexivity|].
  apply every_filtered.
Qed.

Lemma clean_text_no_artifact (s : string) :
  every (fun c => negb (Ocr.is_artifact c)) (Ocr.clean_text s) = true.
Proof.
  unfold Ocr.clean_text. destruct (negb (truthy s)); [reflexivity|].
  apply (every_filtered (fun c => negb (Ocr.is_artifact c))).
Qed.

(** X7. The text [clean_text] returns holds printable characters only,
    and none of the six it treats as OCR artifacts: bar, backslash, slash,
    underscore, tilde and backquote. *)
Theorem clean_text_characters (s : string) :
  every (fun c => Ocr.isprintable c && negb (Ocr.is_artifact c))
    (Ocr.clean_text s) = true.
Proof.
  apply every_and.
  - apply clean_text_printable.
  - apply clean_text_no_artifact.
Qed.

(** A printable character other than the space is not whitespace. *)
Lemma printable_not_space (c : ascii) :
  Ocr.isprintable c && negb (Ascii.eqb c " ") = true -> isspace c = false.
Proof.
  destruct c as [[] [] [] [] [] [] [] []]; vm_compute; congruence.
Qed.

Lemma strip_fixed (s : string) :
  every (fun c => negb (isspace c)) s = true -> strip s = s.
Proof.
  intros H. unfold strip. rewrite rstrip_as_chars, lstrip_as_chars.
  assert (Hfirst : forall c, first_char s = Some c -> isspace c = false).
  { destruct s as [|d s]; [discriminate|]. intros c [= <-].
    cbn [every] in H. apply andb_prop in H. destruct H as [H _].
    apply negb_true_iff. exact H. }
  rewrite (lstrip_chars_fixed _ _ Hfirst).
  apply rstrip_chars_fixed.
  induction s as [|d s IH]; [discriminate|].
  cbn [every] in H. apply andb_prop in H. destruct H as [Hd Hs].
  destruct s as [|e s].
  - intros c [= <-]. apply negb_true_iff. exact Hd.
  - intros c Hc. apply IH; [exact Hs| |exact Hc].
    intros c' [= <-]. cbn [every] in Hs. apply andb_prop in Hs.
    destruct Hs as [He _]. apply negb_true_iff. exact He.
Qed.

Lemma every_impl (p q : ascii -> bool) (s : string) :
  (forall c, p c = true -> q c = true) ->
  every p s = true -> every q s = true.
Proof.
  intros Hpq. induction s as [|c s IH]; cbn [every]; [auto|].
  intros H. apply andb_prop in H. destruct H as [Hc Hs].
  rewrite (Hpq c Hc). exact (IH Hs).
Qed.

End Utils.

(** ** ocr.py: what a recognized text is made of *)

Module Recognition.

Import Utils.

Section Recognized.

Variable Image : Type.
Variable image_to_data : Image -> string -> result Ocr.tess_data.
Variable nfkd_ascii : string -> string.

Abbreviation recognize_text := (Ocr.recognize_text Image image_to_data nfkd_ascii).
Abbreviation recognize_with_multiple_configs :=
  (Ocr.recognize_with_multiple_configs Image image_to_data nfkd_ascii).
Abbreviation attempt := (Ocr.attempt Image image_to_data nfkd_ascii).
Abbreviation attempts := (Ocr.attempts Image image_to_data nfkd_ascii).

(** The characters a recognized text is made of: printable, not one of
    the artifacts, not a space. *)
Definition recognizable (c : ascii) : bool :=
  Ocr.isprintable c && negb (Ocr.is_artifact c) && negb (Ascii.eqb c " ").

Lemma _clean_ocr_result_characters (s : string) :
  every recognizable (Ocr._clean_ocr_result nfkd_ascii s) = true.
Proof.
  unfold Ocr._clean_ocr_result. destruct (negb (truthy s)); [reflexivity|].
  unfold recognizable. apply every_and.
  - apply every_filter_chars, every_and.
    + apply clean_text_printable.
    + apply clean_text_no_artifact.
  - apply (every_filtered (fun c => negb (Ascii.eqb c " "))).
Qed.

Lemma recognizable_not_space (c : ascii) :
  recognizable c = true -> negb (isspace c) = true.
Proof.
  unfold recognizable. intros H. apply negb_true_iff, printable_not_space.
  destruct (Ocr.isprintable c); [|discriminate H].
  destruct (Ocr.is_artifact c); [discriminate H|exact H].
Qed.

Lemma attempt_characters (image : Image) (config : string) :
  every recognizable (fst (attempt image config)) = true.
Proof.
  unfold Ocr.attempt.
  destruct (image_to_data image config) as [data|e]; [|reflexivity].
  destruct (Ocr.tokens data) as [[text_parts confidences]|e]; [|reflexivity].
  apply _clean_ocr_result_characters.
Qed.

(** X8. The text [recognize_text] returns holds only printable
    characters, none of them a space or one of the artifacts; so
    stripping it changes nothing, and it is blank only when it is
    empty. *)
Theorem recognize_text_characters (image : Image)
    (custom_config : option string) (h : Ocr.handler) :
  let t := fst (recognize_text image custom_config h) in
  every recognizable t = true
  /\ strip t = t
  /\ truthy (strip t) = truthy t.
Proof.
  intros t. subst t. rewrite Ocr.recognize_text_attempt. cbn [fst].
  pose proof (attempt_characters image (Ocr.config_of custom_config h)) as H.
  assert (Hstrip : strip (fst (attempt image (Ocr.config_of custom_config h)))
                   = fst (attempt image (Ocr.config_of custom_config h))).
  { apply strip_fixed. eapply every_impl; [|exact H].
    exact recognizable_not_space. }
  split; [exact H|]. split; [exact Hstrip|]. rewrite Hstrip. reflexivity.
Qed.

Lemma recognize_text_default_config (image : Image)
    (custom_config : option string) (h : Ocr.handler) :
  Ocr.default_config (snd (recognize_text image custom_config h))
  = Ocr.default_config h.
Proof. rewrite Ocr.recognize_text_attempt. reflexivity. Qed.

Lemma try_configs_default_config (image : Image) (cfgs : list string) :
  forall best_text best_confidence h,
    Ocr.default_config
      (snd (Ocr.try_configs Image image_to_data nfkd_ascii image cfgs
              best_text best_confidence h))
    = Ocr.default_config h.
Proof.
  induction cfgs as [|config rest IH]; intros bt bc h; [reflexivity|].
  cbn [Ocr.try_configs].
  pose proof (recognize_text_default_config image (Some config) h) as Hd.
  destruct (recognize_text image (Some config) h) as [t h1].
  cbn [snd] in Hd.
  destruct (Ocr.Qgt_bool _ bc && _); rewrite IH; exact Hd.
Qed.

(** X9. [recognize_with_multiple_configs] leaves the handler holding
    the pair it returns (the best attempt, not the last one tried) and its
    default configuration untouched.  The pair is either the empty text
    with confidence 0, or the text of one of the six attempts, not empty,
    free of spaces and artifacts, with a confidence above 0. *)
Theorem recognize_with_multiple_configs_state (image : Image)
    (h : Ocr.handler) :
  let run := recognize_with_multiple_configs image h in
  let best_text := fst (fst run) in
  let best_confidence := snd (fst run) in
  Ocr.last_result (snd run) = best_text
  /\ Ocr.get_confidence (snd run) = best_confidence
  /\ Ocr.default_config (snd run) = Ocr.default_config h
  /\ every recognizable best_text = true
  /\ ((best_text = EmptyString /\ best_confidence = 0%Q)
      \/ (best_text <> EmptyString /\ (0 < best_confidence)%Q
          /\ In (best_text, best_confidence) (attempts image))).
Proof.
  intros run best_text best_confidence.
  subst best_text best_confidence run.
  unfold Ocr.recognize_with_multiple_configs.
  pose proof (Ocr.try_configs_scan Image image_to_data nfkd_ascii image
                Ocr.configs Ocr.configs_not_empty EmptyString 0%Q h) as Hscan.
  pose proof (try_configs_default_config image Ocr.configs EmptyString 0%Q h)
    as Hdefault.
  destruct (Ocr.try_configs Image image_to_data nfkd_ascii image Ocr.configs
              EmptyString 0%Q h) as [[bt bc] h1].
  cbn [fst snd] in *. unfold Ocr.get_confidence. cbn [Ocr.last_result
    Ocr.last_confidence Ocr.default_config].
  split; [reflexivity|]. split; [reflexivity|]. split; [exact Hdefault|].
  fold (attempts image) in Hscan.
  pose proof (Ocr.scan_earliest_maximum (attempts image) (EmptyString, 0%Q))
    as Hsel.
  cbv zeta in Hsel. rewrite <- Hscan in Hsel. cbn [fst snd] in Hsel.
  destruct Hsel as [[Hr _]|(pre & post & Hl & Ht & Hlt & _)].
  - injection Hr as -> ->. split; [reflexivity|]. left. split; reflexivity.
  - assert (Hin : In (bt, bc) (attempts image)).
    { rewrite Hl. apply in_or_app. right. left. reflexivity. }
    split.
    + unfold Ocr.attempts in Hin. apply in_map_iff in Hin.
      destruct Hin as (config & Heq & _).
      pose proof (attempt_characters image config) as Hc.
      rewrite Heq in Hc. exact Hc.
    + right. split; [|split; [exact Hlt|exact Hin]].
      intros ->. discriminate Ht.
Qed.

(** *** The range of the recorded confidence *)

Lemma Qsum_positive (l : list Q) :
  l <> [] -> (forall x, In x l -> (0 < x)%Q) -> (0 < Ocr.Qsum l)%Q.
Proof.
  induction l as [|x [|y rest] IH]; intros Hne Hall; [congruence| |].
  - unfold Ocr.Qsum. cbn [fold_right]. rewrite Qplus_0_r.
    apply Hall. left. reflexivity.
  - change (Ocr.Qsum (x :: y :: rest)) with (x + Ocr.Qsum (y :: rest))%Q.
    rewrite <- (Qplus_0_r 0). apply Qplus_lt_le_compat.
    + apply Hall. left. reflexivity.
    + apply Qlt_le_weak, IH; [discriminate|].
      intros z Hz. apply Hall. right. exact Hz.
Qed.

Lemma Qsum_bounded (bound : Q) (l : list Q) :
  (forall x, In x l -> (x <= bound)%Q) ->
  (Ocr.Qsum l <= bound * inject_Z (Z.of_nat (length l)))%Q.
Proof.
  induction l as [|x rest IH]; intros Hall.
  - unfold Ocr.Qsum. cbn. rewrite Qmult_0_r. apply Qle_refl.
  - change (Ocr.Qsum (x :: rest)) with (x + Ocr.Qsum rest)%Q.
    cbn [length]. rewrite Nat2Z.inj_succ, <- Z.add_1_l, inject_Z_plus.
    rewrite Qmult_plus_distr_r, Qmult_1_r.
    apply Qplus_le_compat.
    + apply Hall. left. reflexivity.
    + apply IH. intros z Hz. apply Hall. right. exact Hz.
Qed.

Lemma mean_range (bound : Q) (l : list Q) :
  (0 <= bound)%Q ->
  (forall x, In x l -> (0 < x)%Q /\ (x <= bound)%Q) ->
  (0 <= Ocr.mean l)%Q /\ (Ocr.mean l <= bound)%Q.
Proof.
  intros Hbound Hall. destruct l as [|x rest].
  - cbn [Ocr.mean]. split; [apply Qle_refl|exact Hbound].
  - unfold Ocr.mean.
    set (l := x :: rest) in *.
    assert (Hn : (0 < inject_Z (Z.of_nat (length l)))%Q).
    { change 0%Q with (inject_Z 0). rewrite <- Zlt_Qlt. subst l. cbn [length].
      lia. }
    split.
    + apply Qle_shift_div_l; [exact Hn|]. rewrite Qmult_0_l.
      apply Qlt_le_weak, Qsum_positive; [discriminate|].
      intros z Hz. apply Hall, Hz.
    + apply Qle_shift_div_r; [exact Hn|]. apply Qsum_bounded.
      intros z Hz. apply Hall, Hz.
Qed.

(** Every confidence the loop collects is one the engine reported. *)
Lemma collect_reported (words : list string) (confs : list Q) :
  forall i text_parts confidences text_parts' confidences',
    Ocr.collect words i confs text_parts confidences
    = Ok (text_parts', confidences') ->
    forall c, In c confidences' -> In c confidences \/ In c confs.
Proof.
  induction words as [|word rest IH];
    intros i tp cs tp' cs' Hrun c Hc; cbn [Ocr.collect] in Hrun.
  - injection Hrun as <- <-. left. exact Hc.
  - destruct (truthy (strip word)).
    + destruct (nth_error confs i) as [x|] eqn:Hx; [|discriminate Hrun].
      destruct (IH _ _ _ _ _ Hrun c Hc) as [Hin|Hin]; [|right; exact Hin].
      apply in_app_or in Hin. destruct Hin as [Hin|[<-|[]]].
      * left. exact Hin.
      * right. eapply nth_error_In. exact Hx.
    + exact (IH _ _ _ _ _ Hrun c Hc).
Qed.

(** X24. The confidence [recognize_text] records is never negative,
    even when the engine reports negative confidences for some tokens, and
    never above a bound that holds for every confidence the engine
    reported. *)
Theorem recorded_confidence_range (image : Image)
    (custom_config : option string) (h : Ocr.handler) :
  let recorded :=
    Ocr.get_confidence (snd (recognize_text image custom_config h)) in
  (0 <= recorded)%Q
  /\ forall bound data,
       (0 <= bound)%Q ->
       image_to_data image (Ocr.config_of custom_config h) = Ok data ->
       (forall c, In c (Ocr.conf data) -> (c <= bound)%Q) ->
       (recorded <= bound)%Q.
Proof.
  intros recorded. subst recorded. rewrite Ocr.recognize_text_attempt.
  unfold Ocr.get_confidence. cbn [snd Ocr.last_confidence].
  unfold Ocr.attempt.
  destruct (image_to_data image (Ocr.config_of custom_config h))
    as [data|e]; [|split; [apply Qle_refl|intros; discriminate]].
  destruct (Ocr.tokens data) as [[text_parts confidences]|e] eqn:Htokens;
    cbn [snd]; [|split; [apply Qle_refl|intros; assumption]].
  assert (Hpositive : forall x,
            In x (List.filter Ocr.positive confidences) ->
            (0 < x)%Q /\ In x (Ocr.conf data)).
  { intros x Hx. apply filter_In in Hx. destruct Hx as [Hin Hpos].
    split; [apply Ocr.Qgt_bool_true; exact Hpos|].
    destruct (collect_reported _ _ _ _ _ _ _ Htokens x Hin) as [[]|H].
    exact H. }
  split.
  - destruct (List.filter Ocr.positive confidences) as [|x rest] eqn:Hf;
      [apply Qle_refl|].
    rewrite <- Hf in *.
    assert (Hbig : exists bound,
              forall y, In y (List.filter Ocr.positive confidences) ->
                (y <= bound)%Q /\ (0 <= bound)%Q).
    { clear. induction (List.filter Ocr.positive confidences) as [|y l IH].
      - exists 0%Q. intros y [].
      - destruct IH as [b Hb]. exists (Qmax (Qmax 0 y) b).
        intros z [<-|Hz].
        + split.
          * eapply Qle_trans; [apply Q.le_max_r|apply Q.le_max_l].
          * eapply Qle_trans; [apply Q.le_max_l|apply Q.le_max_l].
        + split.
          * eapply Qle_trans; [apply (Hb z Hz)|apply Q.le_max_r].
          * eapply Qle_trans; [apply Q.le_max_l|apply Q.le_max_l]. }
    destruct Hbig as [bound Hbig].
    apply (mean_range bound).
    + apply (Hbig x). rewrite Hf. left. reflexivity.
    + intros y Hy. split; [apply Hpositive, Hy|apply Hbig, Hy].
  - intros bound data' Hbound [= <-] Hall.
    apply (mean_range bound); [exact Hbound|].
    intros y Hy. destruct (Hpositive y Hy) as [Hpos Hin].
    split; [exact Hpos|apply Hall, Hin].
Qed.

End Recognized.

End Recognition.

(** ** solver.py: the most common sources *)

Module Statistics.

(** [sources[source] = sources.get(source, 0) + 1] on a dictionary that
    keeps its keys in the order they were first inserted. *)
Fixpoint bump (src : string) (sources : list (string * nat))
    : list (string * nat) :=
  match sources with
  | [] => [(src, 1)]
  | (k, n) :: rest =>
      if String.eqb k src then (k, S n) :: rest else (k, n) :: bump src rest
  end.

(** The loop over [processing_history]. *)
Definition tally (history : list Solver.processing_record)
    : list (string * nat) :=
  fold_left (fun sources record => bump (Solver.source record) sources)
    history [].

(** [sorted(items, key=lambda x: x[1], reverse=True)]: a stable sort,
    highest count first; items of equal count keep their order. *)
Fixpoint insert_by_count (x : string * nat) (l : list (string * nat))
    : list (string * nat) :=
  match l with
  | [] => [x]
  | y :: rest =>
      if Nat.ltb (snd x) (snd y) then y :: insert_by_count x rest
      else x :: y :: rest
  end.

Definition sorted_by_count (l : list (string * nat)) : list (string * nat) :=
  fold_right insert_by_count [] l.

(** CAPTCHASolver._get_common_sources: the dictionary it returns, as the
    list of its items in order. *)
Definition _get_common_sources (history : list Solver.processing_record)
    : list (string * nat) :=
  firstn 10 (sorted_by_count (tally history)).

(** The number of records of the history that came from [src]. *)
Definition records_from (src : string)
    (history : list Solver.processing_record) : nat :=
  length (List.filter (fun record => String.eqb (Solver.source record) src)
            history).

(** The count a dictionary holds for [src], 0 when it has none. *)
Fixpoint count_in (src : string) (sources : list (string * nat)) : nat :=
  match sources with
  | [] => 0
  | (k, n) :: rest => if String.eqb k src then n else count_in src rest
  end.

(** Highest count first. *)
Fixpoint descending (l : list (string * nat)) : Prop :=
  match l with
  | [] => True
  | x :: rest => (forall y, In y rest -> snd y <= snd x) /\ descending rest
  end.

Lemma count_in_bump (src s : string) (sources : list (string * nat)) :
  count_in s (bump src sources)
  = if String.eqb src s then S (count_in s sources) else count_in s sources.
Proof.
  induction sources as [|[k n] rest IH]; cbn [bump count_in].
  - reflexivity.
  - destruct (String.eqb k src) eqn:Eks; cbn [count_in].
    + apply String.eqb_eq in Eks. subst k.
      destruct (String.eqb src s); reflexivity.
    + destruct (String.eqb k s) eqn:Es; [|exact IH].
      apply String.eqb_eq in Es. subst k. rewrite String.eqb_sym, Eks.
      reflexivity.
Qed.

Lemma keys_bump (src : string) (sources : list (string * nat)) :
  map fst (bump src sources)
  = if existsb (String.eqb src) (map fst sources) then map fst sources
    else map fst sources ++ [src].
Proof.
  induction sources as [|[k n] rest IH]; cbn [bump map existsb fst app].
  - reflexivity.
  - rewrite (String.eqb_sym src k).
    destruct (String.eqb k src); cbn [map fst orb]; [reflexivity|].
    rewrite IH. destruct (existsb _ _); reflexivity.
Qed.

Lemma NoDup_snoc (l : list string) (x : string) :
  List.NoDup l -> ~ In x l -> List.NoDup (l ++ [x]).
Proof.
  induction 1 as [|y l Hy Hl IH]; cbn [app]; intros Hx.
  - constructor; [intros []|constructor].
  - constructor.
    + intros Hin. apply in_app_or in Hin. destruct Hin as [Hin|[<-|[]]].
      * exact (Hy Hin).
      * apply Hx. left. reflexivity.
    + apply IH. intros Hin. apply Hx. right. exact Hin.
Qed.

Lemma NoDup_bump (src : string) (sources : list (string * nat)) :
  List.NoDup (map fst sources) -> List.NoDup (map fst (bump src sources)).
Proof.
  intros H. rewrite keys_bump.
  destruct (existsb (String.eqb src) (map fst sources)) eqn:E; [exact H|].
  apply NoDup_snoc; [exact H|].
  intros Hin.
  assert (existsb (String.eqb src) (map fst sources) = true); [|congruence].
  apply existsb_exists. exists src. split; [exact Hin|apply String.eqb_refl].
Qed.

Lemma positive_bump (src : string) (sources : list (string * nat)) :
  Forall (fun item => 1 <= snd item) sources ->
  Forall (fun item => 1 <= snd item) (bump src sources).
Proof.
  induction sources as [|[k n] rest IH]; cbn [bump]; intros H.
  - repeat constructor.
  - inversion H as [|? ? Hn Hrest]. subst.
    destruct (String.eqb k src).
    + constructor; [cbn [snd] in *; lia|exact Hrest].
    + constructor; [exact Hn|exact (IH Hrest)].
Qed.

(** What the loop has counted, from any dictionary on. *)
Lemma tally_from (history : list Solver.processing_record) :
  forall sources,
    List.NoDup (map fst sources) ->
    Forall (fun item => 1 <= snd item) sources ->
    let counted :=
      fold_left (fun sources record => bump (Solver.source record) sources)
        history sources in
    List.NoDup (map fst counted)
    /\ Forall (fun item => 1 <= snd item) counted
    /\ forall s, count_in s counted = count_in s sources + records_from s history.
Proof.
  induction history as [|record rest IH]; intros sources Hnd Hpos; cbn [fold_left].
  - split; [exact Hnd|]. split; [exact Hpos|]. intros s. cbn. lia.
  - destruct (IH (bump (Solver.source record) sources)
                (NoDup_bump _ _ Hnd) (positive_bump _ _ Hpos))
      as (Hnd' & Hpos' & Hcount).
    split; [exact Hnd'|]. split; [exact Hpos'|].
    intros s. rewrite Hcount, count_in_bump.
    unfold records_from. cbn [List.filter].
    destruct (String.eqb (Solver.source record) s); cbn [length]; lia.
Qed.

Lemma count_in_member (sources : list (string * nat)) (src : string)
    (n : nat) :
  List.NoDup (map fst sources) -> In (src, n) sources -> count_in src sources = n.
Proof.
  induction sources as [|[k m] rest IH]; cbn [map fst count_in];
    intros Hnd Hin; [destruct Hin|].
  inversion Hnd as [|? ? Hk Hrest]. subst.
  destruct Hin as [[= -> ->]|Hin].
  - rewrite String.eqb_refl. reflexivity.
  - destruct (String.eqb k src) eqn:E; [|exact (IH Hrest Hin)].
    apply String.eqb_eq in E. subst k. exfalso. apply Hk.
    apply in_map_iff. exists (src, n). split; [reflexivity|exact Hin].
Qed.

Lemma count_in_absent (sources : list (string * nat)) (src : string) :
  ~ In src (map fst sources) -> count_in src sources = 0.
Proof.
  induction sources as [|[k m] rest IH]; cbn [map fst count_in];
    [reflexivity|].
  intros Hnot. destruct (String.eqb k src) eqn:E.
  - apply String.eqb_eq in E. subst k. exfalso. apply Hnot. left. reflexivity.
  - apply IH. intros Hin. apply Hnot. right. exact Hin.
Qed.

Lemma insert_by_count_perm (x : string * nat) (l : list (string * nat)) :
  Permutation (insert_by_count x l) (x :: l).
Proof.
  induction l as [|y rest IH]; cbn [insert_by_count]; [reflexivity|].
  destruct (Nat.ltb (snd x) (snd y)); [|reflexivity].
  rewrite IH. apply perm_swap.
Qed.

Lemma sorted_by_count_perm (l : list (string * nat)) :
  Permutation (sorted_by_count l) l.
Proof.
  induction l as [|x rest IH]; cbn [sorted_by_count fold_right]; [reflexivity|].
  rewrite insert_by_count_perm. constructor. exact IH.
Qed.

Lemma insert_by_count_descending (x : string * nat)
    (l : list (string * nat)) :
  descending l -> descending (insert_by_count x l).
Proof.
  induction l as [|y rest IH]; cbn [insert_by_count descending].
  - intros _. split; [intros y []|exact I].
  - intros [Hy Hrest]. destruct (Nat.ltb (snd x) (snd y)) eqn:E.
    + apply Nat.ltb_lt in E. cbn [descending]. split; [|exact (IH Hrest)].
      intros z Hz.
      apply (Permutation_in _ (insert_by_count_perm x rest)) in Hz.
      destruct Hz as [<-|Hz]; [lia|exact (Hy z Hz)].
    + apply Nat.ltb_ge in E. cbn [descending]. split; [|split; assumption].
      intros z [<-|Hz]; [exact E|].
      specialize (Hy z Hz). lia.
Qed.

Lemma sorted_by_count_descending (l : list (string * nat)) :
  descending (sorted_by_count l).
Proof.
  induction l as [|x rest IH]; cbn [sorted_by_count fold_right]; [exact I|].
  apply insert_by_count_descending, IH.
Qed.

Lemma in_first {A} (n : nat) (l : list A) (x : A) :
  In x (firstn n l) -> In x l.
Proof.
  intros H. rewrite <- (firstn_skipn n l). apply in_or_app. left. exact H.
Qed.

Lemma in_rest {A} (n : nat) (l : list A) (x : A) :
  In x (skipn n l) -> In x l.
Proof.
  intros H. rewrite <- (firstn_skipn n l). apply in_or_app. right. exact H.
Qed.

Lemma descending_split (l : list (string * nat)) (n : nat) :
  descending l ->
  descending (firstn n l)
  /\ forall x y, In x (firstn n l) -> In y (skipn n l) -> snd y <= snd x.
Proof.
  revert n. induction l as [|z rest IH]; intros n Hl.
  - rewrite firstn_nil, skipn_nil. split; [exact I|]. intros x y [].
  - destruct n as [|n]; cbn [firstn skipn].
    + split; [exact I|]. intros x y [].
    + destruct Hl as [Hz Hrest]. destruct (IH n Hrest) as [Hfirst Hcross].
      split.
      * cbn [descending]. split; [|exact Hfirst].
        intros y Hy. apply Hz. apply (in_first n rest y Hy).
      * intros x y [<-|Hx] Hy.
        -- apply Hz. apply (in_rest n rest y Hy).
        -- exact (Hcross x y Hx Hy).
Qed.

(** X17. [_get_common_sources] returns at most ten sources, each once,
    highest count first, and the count it gives for a source is the number
    of records of the history that came from it (at least one). *)
Theorem common_sources_counts (history : list Solver.processing_record) :
  let common := _get_common_sources history in
  length common <= 10
  /\ List.NoDup (map fst common)
  /\ descending common
  /\ forall src n,
       In (src, n) common -> n = records_from src history /\ 1 <= n.
Proof.
  intros common. subst common. unfold _get_common_sources.
  destruct (tally_from history [] (List.NoDup_nil _) (List.Forall_nil _))
    as (Hnd & Hpos & Hcount).
  fold (tally history) in Hnd, Hpos, Hcount.
  pose proof (sorted_by_count_perm (tally history)) as Hperm.
  split; [rewrite length_firstn; lia|]. split; [|split].
  - assert (Hsorted : List.NoDup (map fst (sorted_by_count (tally history)))).
    { eapply Permutation_NoDup; [|exact Hnd].
      apply Permutation_map. symmetry. exact Hperm. }
    rewrite <- (firstn_skipn 10 (sorted_by_count (tally history))) in Hsorted.
    rewrite map_app in Hsorted.
    exact (List.NoDup_app_remove_r _ _ Hsorted).
  - apply descending_split, sorted_by_count_descending.
  - intros src n Hin. apply in_first in Hin.
    apply (Permutation_in _ Hperm) in Hin.
    rewrite <- (count_in_member _ _ _ Hnd Hin) at 1.
    rewrite Hcount. cbn [count_in]. split; [reflexivity|].
    exact (proj1 (List.Forall_forall _ _) Hpos (src, n) Hin).
Qed.

(** X18. A source of the history that [_get_common_sources] leaves out
    is outnumbered: ten sources are returned, and each of them has at least
    as many records as the one left out. *)
Theorem common_sources_are_the_top (history : list Solver.processing_record)
    (record : Solver.processing_record) :
  In record history ->
  ~ In (Solver.source record) (map fst (_get_common_sources history)) ->
  length (_get_common_sources history) = 10
  /\ forall src n,
       In (src, n) (_get_common_sources history) ->
       records_from (Solver.source record) history <= n.
Proof.
  intros Hrecord Hout. unfold _get_common_sources in *.
  destruct (tally_from history [] (List.NoDup_nil _) (List.Forall_nil _))
    as (Hnd & Hpos & Hcount).
  fold (tally history) in Hnd, Hpos, Hcount.
  pose proof (sorted_by_count_perm (tally history)) as Hperm.
  set (src := Solver.source record) in *.
  assert (Hsome : 1 <= records_from src history).
  { unfold records_from.
    assert (Hin : In record
                    (List.filter
                       (fun r => String.eqb (Solver.source r) src) history)).
    { apply filter_In. split; [exact Hrecord|apply String.eqb_refl]. }
    destruct (List.filter _ history); [destruct Hin|cbn; lia]. }
  assert (Hitem : In (src, records_from src history) (tally history)).
  { destruct (in_dec string_dec src (map fst (tally history))) as [Hk|Hk].
    - apply in_map_iff in Hk. destruct Hk as ([k n] & Hfst & Hin).
      cbn [fst] in Hfst. subst k.
      rewrite <- (count_in_member _ _ _ Hnd Hin) in Hin.
      rewrite Hcount in Hin. exact Hin.
    - pose proof (count_in_absent _ _ Hk) as Hzero.
      rewrite Hcount in Hzero. cbn [count_in] in Hzero. lia. }
  apply (Permutation_in _ (Permutation_sym Hperm)) in Hitem.
  rewrite <- (firstn_skipn 10 (sorted_by_count (tally history))) in Hitem.
  apply in_app_or in Hitem. destruct Hitem as [Hfirst|Hrest].
  { exfalso. apply Hout. apply in_map_iff.
    exists (src, records_from src history). split; [reflexivity|exact Hfirst]. }
  split.
  - rewrite length_firstn.
    assert (10 < length (sorted_by_count (tally history))); [|lia].
    destruct (Nat.lt_ge_cases 10 (length (sorted_by_count (tally history))))
      as [Hlt|Hge]; [exact Hlt|].
    rewrite skipn_all2 in Hrest by exact Hge. destruct Hrest.
  - intros s n Hin.
    destruct (descending_split _ 10
                (sorted_by_count_descending (tally history))) as [_ Hcross].
    exact (Hcross (s, n) (src, records_from src history) Hin Hrest).
Qed.

(** A history of three records from two sources. *)
Definition record_from (src : string) : Solver.processing_record :=
  Solver.mk_record 0 src "d41d8cd9" "HELLO" 90 [].

Definition twelve_sources : list Solver.processing_record :=
  map record_from
    ["a"; "b"; "c"; "d"; "e"; "f"; "g"; "h"; "i"; "j"; "k"; "l"; "l"].

Example common_sources_of_twelve :
  _get_common_sources twelve_sources
  = [("l", 2); ("a", 1); ("b", 1); ("c", 1); ("d", 1); ("e", 1); ("f", 1);
     ("g", 1); ("h", 1); ("i", 1)].
Proof. reflexivity. Qed.

Lemma common_sources_are_the_top_witness :
  length (_get_common_sources twelve_sources) = 10
  /\ forall src n,
       In (src, n) (_get_common_sources twelve_sources) ->
       records_from (Solver.source (record_from "k")) twelve_sources <= n.
Proof.
  apply (common_sources_are_the_top twelve_sources (record_from "k")).
  - simpl. auto 15.
  - rewrite common_sources_of_twelve. simpl.
    intros H. repeat (destruct H as [H|H]; [discriminate H|]). exact H.
Defined.

End Statistics.

(** ** preprocessor.py: the pipeline *)

Module Pipeline.

Section Steps.

Variable Image : Type.
Variable ndarray : Type.

(** [Image.fromarray] and the six steps, as [preprocess] calls them. *)
Variable Image_fromarray : ndarray -> result Image.
Variable convert_to_grayscale : Image -> result Image.
Variable denoise : Image -> result Image.
Variable apply_threshold : Image -> result Image.
Variable morphological_operations : Image -> result Image.
Variable correct_skew : Image -> result Image.
Variable enhance_image : Image -> result Image.

(** The names the chain of [if]/[elif] tests, in its order. *)
Definition known_steps : list string :=
  ["grayscale"; "denoise"; "threshold"; "morphology"; "skew_correction";
   "enhance"].

Definition is_known (step : string) : bool :=
  existsb (String.eqb step) known_steps.

(** One turn of the loop over [self.processing_steps]: the image it
    leaves and the warning it logs, if any. *)
Definition apply_step (step : string) (image : Image)
    : result Image * list string :=
  if String.eqb step "grayscale" then (convert_to_grayscale image, [])
  else if String.eqb step "denoise" then (denoise image, [])
  else if String.eqb step "threshold" then (apply_threshold image, [])
  else if String.eqb step "morphology" then
    (morphological_operations image, [])
  else if String.eqb step "skew_correction" then (correct_skew image, [])
  else if String.eqb step "enhance" then (enhance_image image, [])
  else (Ok image, [("Unknown preprocessing step: " ++ step)%string]).

Fixpoint run_steps (steps : list string) (image : Image)
    : result Image * list string :=
  match steps with
  | [] => (Ok image, [])
  | step :: rest =>
      match apply_step step image with
      | (Ok image', warnings) =>
          let '(r, warnings') := run_steps rest image' in
          (r, warnings ++ warnings')
      | (Raise e, warnings) => (Raise e, warnings)
      end
  end.

(** ImagePreprocessor.preprocess on its current step list: the image it
    returns and the warnings it has logged.  The timer around the body and
    the closing debug message leave no other trace and are left out. *)
Definition preprocess (processing_steps : list string)
    (image : Image + ndarray) : result Image * list string :=
  match image with
  | inl image => run_steps processing_steps image
  | inr array =>
      match Image_fromarray array with
      | Ok image => run_steps processing_steps image
      | Raise e => (Raise e, [])
      end
  end.

(** Running one list of steps, then another on its result. *)
Definition then_steps (first : result Image * list string)
    (steps : list string) : result Image * list string :=
  match first with
  | (Ok image, warnings) =>
      let '(r, warnings') := run_steps steps image in
      (r, warnings ++ warnings')
  | (Raise e, warnings) => (Raise e, warnings)
  end.

Lemma run_steps_app (steps1 steps2 : list string) :
  forall image,
    run_steps (steps1 ++ steps2) image
    = then_steps (run_steps steps1 image) steps2.
Proof.
  induction steps1 as [|step rest IH]; intros image; cbn [app run_steps].
  - cbn [then_steps]. destruct (run_steps steps2 image). reflexivity.
  - destruct (apply_step step image) as [[image'|e] warnings];
      [|reflexivity].
    rewrite IH.
    destruct (run_steps rest image') as [[image''|e] warnings'];
      cbn [then_steps]; [|reflexivity].
    destruct (run_steps steps2 image'') as [r warnings''].
    rewrite app_assoc. reflexivity.
Qed.

Lemma apply_step_unknown (step : string) (image : Image) :
  is_known step = false ->
  apply_step step image
  = (Ok image, [("Unknown preprocessing step: " ++ step)%string]).
Proof.
  unfold is_known, known_steps, apply_step. cbn [existsb].
  destruct (String.eqb step "grayscale"); [discriminate|].
  destruct (String.eqb step "denoise"); [discriminate|].
  destruct (String.eqb step "threshold"); [discriminate|].
  destruct (String.eqb step "morphology"); [discriminate|].
  destruct (String.eqb step "skew_correction"); [discriminate|].
  destruct (String.eqb step "enhance"); [discriminate|].
  reflexivity.
Qed.

Lemma apply_step_known (step : string) (image : Image) :
  is_known step = true -> snd (apply_step step image) = [].
Proof.
  unfold is_known, known_steps, apply_step. cbn [existsb].
  destruct (String.eqb step "grayscale"); [reflexivity|].
  destruct (String.eqb step "denoise"); [reflexivity|].
  destruct (String.eqb step "threshold"); [reflexivity|].
  destruct (String.eqb step "morphology"); [reflexivity|].
  destruct (String.eqb step "skew_correction"); [reflexivity|].
  destruct (String.eqb step "enhance"); [reflexivity|].
  discriminate.
Qed.

Lemma run_steps_known (steps : list string) :
  forall image,
    fst (run_steps steps image)
    = fst (run_steps (List.filter is_known steps) image)
    /\ (is_ok (fst (run_steps steps image)) = true ->
        snd (run_steps steps image)
        = map (fun step => ("Unknown preprocessing step: " ++ step)%string)
            (List.filter (fun step => negb (is_known step)) steps)).
Proof.
  induction steps as [|step rest IH]; intros image;
    cbn [run_steps List.filter]; [split; reflexivity|].
  destruct (is_known step) eqn:E; cbn [negb].
  - cbn [run_steps]. pose proof (apply_step_known step image E) as Hw.
    destruct (apply_step step image) as [[image'|e] warnings];
      cbn [snd] in Hw; subst warnings; [|split; [reflexivity|discriminate]].
    destruct (IH image') as [Hfst Hsnd].
    destruct (run_steps rest image') as [r w].
    destruct (run_steps (List.filter is_known rest) image') as [r' w'].
    cbn [fst snd] in *. split; [exact Hfst|]. intros Hok. exact (Hsnd Hok).
  - rewrite (apply_step_unknown step image E).
    destruct (IH image) as [Hfst Hsnd].
    destruct (run_steps rest image) as [r w]. cbn [fst snd map] in *.
    split; [exact Hfst|]. intros Hok. rewrite (Hsnd Hok). reflexivity.
Qed.

(** X21. Preprocessing with the steps [steps1 ++ steps2] is
    preprocessing with [steps1] and then, if that went through, with
    [steps2] on its result: the same image or the same exception, and the
    same warnings in the same order. *)
Theorem preprocess_composes (steps1 steps2 : list string)
    (image : Image + ndarray) :
  preprocess (steps1 ++ steps2) image
  = then_steps (preprocess steps1 image) steps2.
Proof.
  unfold preprocess. destruct image as [image|array].
  - apply run_steps_app.
  - destruct (Image_fromarray array) as [image|e]; [|reflexivity].
    apply run_steps_app.
Qed.

(** X22. A step name that is none of grayscale, denoise, threshold,
    morphology, skew_correction, enhance is skipped: [preprocess] returns
    what it returns on the list without the unknown names, and when it goes
    through it has logged one warning for each unknown name, in order. *)
Theorem preprocess_skips_unknown_steps (steps : list string)
    (image : Image + ndarray) :
  fst (preprocess steps image)
  = fst (preprocess (List.filter is_known steps) image)
  /\ (is_ok (fst (preprocess steps image)) = true ->
      snd (preprocess steps image)
      = map (fun step => ("Unknown preprocessing step: " ++ step)%string)
          (List.filter (fun step => negb (is_known step)) steps)).
Proof.
  unfold preprocess. destruct image as [image|array].
  - apply run_steps_known.
  - destruct (Image_fromarray array) as [image|e].
    + apply run_steps_known.
    + split; [reflexivity|discriminate].
Qed.

End Steps.

End Pipeline.

(** ** extractor.py: finding the CAPTCHA elements of a page *)

Module Finder.

(** A selector [tag[attribute*=QvalueQ]], where Q is the double quote. *)
Definition contains (tag attribute value : string) : string :=
  (tag ++ "[" ++ attribute ++ "*="
   ++ String Utils.double_quote value
   ++ String Utils.double_quote "]")%string.

Definition default_selectors : list string :=
  [ contains "img" "src" "captcha"; contains "img" "alt" "captcha";
    contains "img" "id" "captcha"; contains "img" "class" "captcha";
    contains "img" "src" "verify"; contains "img" "alt" "verify";
    contains "img" "src" "code"; contains "canvas" "id" "captcha";
    contains "canvas" "class" "captcha";
    ".captcha img"; "#captcha img"; ".verification img";
    "#verification img" ].

Section Soup.

(** The elements of the parsed page; [id] is the identity of the object,
    and [select] is [soup.select]. *)
Variable element : Type.
Variable id : element -> nat.
Variable select : string -> result (list element).

(** [custom_selectors or default_selectors]: an empty list counts as
    none. *)
Definition selectors_of (custom_selectors : option (list string))
    : list string :=
  match custom_selectors with
  | Some (s :: rest) => s :: rest
  | _ => default_selectors
  end.

(** The first loop: the elements of every selector that can be
    evaluated, in order. *)
Fixpoint collect (selectors : list string) : list element :=
  match selectors with
  | [] => []
  | selector :: rest =>
      match select selector with
      | Ok elements => elements ++ collect rest
      | Raise _ => collect rest
      end
  end.

(** The second loop: an element is kept when its identity was not seen
    before. *)
Fixpoint unique (captcha_elements : list element) (seen : gset nat)
    : list element :=
  match captcha_elements with
  | [] => []
  | e :: rest =>
      if decide (id e ∈ seen) then unique rest seen
      else e :: unique rest ({[id e]} ∪ seen)
  end.

(** CAPTCHAExtractor.find_captcha_elements; its two log messages are
    left out. *)
Definition find_captcha_elements (custom_selectors : option (list string))
    : list element :=
  unique (collect (selectors_of custom_selectors)) ∅.

Lemma unique_spec (l : list element) :
  forall seen,
    List.NoDup (map id (unique l seen))
    /\ (forall e, In e (unique l seen) -> In e l /\ id e ∉ seen)
    /\ (forall e, In e l -> id e ∉ seen ->
          In (id e) (map id (unique l seen)))
    /\ sublist (unique l seen) l.
Proof.
  induction l as [|x rest IH]; intros seen; cbn [unique].
  - split; [constructor|]. split; [intros e []|]. split; [intros e []|].
    constructor.
  - destruct (decide (id x ∈ seen)) as [Hseen|Hnew].
    + destruct (IH seen) as (Hnd & Hin & Hall & Hsub).
      split; [exact Hnd|]. split; [|split].
      * intros e He. destruct (Hin e He) as [H1 H2]. split; [right|]; assumption.
      * intros e [<-|He] Hfresh; [contradiction|exact (Hall e He Hfresh)].
      * apply sublist_cons. exact Hsub.
    + destruct (IH ({[id x]} ∪ seen)) as (Hnd & Hin & Hall & Hsub).
      split; [|split; [|split]].
      * cbn [map]. constructor; [|exact Hnd].
        intros Hx. apply in_map_iff in Hx. destruct Hx as (e & Heq & He).
        destruct (Hin e He) as [_ Hfresh]. apply Hfresh.
        rewrite Heq. apply elem_of_union_l, elem_of_singleton. reflexivity.
      * intros e [<-|He]; [split; [left; reflexivity|exact Hnew]|].
        destruct (Hin e He) as [H1 H2]. split; [right; exact H1|].
        intros Hs. apply H2, elem_of_union_r, Hs.
      * intros e He Hfresh. cbn [map].
        destruct (decide (id e = id x)) as [Heq|Hne].
        -- left. symmetry. exact Heq.
        -- right. destruct He as [<-|He]; [congruence|].
           apply (Hall e He). intros Hu. apply elem_of_union in Hu.
           destruct Hu as [Hu|Hu]; [|contradiction].
           apply elem_of_singleton in Hu. contradiction.
      * apply sublist_skip. exact Hsub.
Qed.

(** The selected elements that were not selected before: the element at a
    position of [selected] stays when no earlier position holds the same
    object. *)
Definition first_selected (selected : list element) : list element :=
  map snd
    (List.filter
       (fun p =>
          negb (existsb (Nat.eqb (id (snd p)))
                  (map id (firstn (fst p) selected))))
       (combine (seq 0 (length selected)) selected)).

Lemma unique_first_selected (l : list element) :
  forall (before : list element) (seen : gset nat),
    (forall n, n ∈ seen <-> In n (map id before)) ->
    unique l seen
    = map snd
        (List.filter
           (fun p =>
              negb (existsb (Nat.eqb (id (snd p)))
                      (map id (firstn (fst p) (before ++ l)))))
           (combine (seq (length before) (length l)) l)).
Proof.
  induction l as [|x rest IH]; intros before seen Hseen; [reflexivity|].
  cbn [unique length seq combine List.filter fst snd].
  rewrite firstn_app, Nat.sub_diag, firstn_all. cbn [firstn].
  rewrite app_nil_r.
  assert (Hnext :
    forall seen',
      (forall n, n ∈ seen' <-> In n (map id (before ++ [x]))) ->
      unique rest seen'
      = map snd
          (List.filter
             (fun p =>
                negb (existsb (Nat.eqb (id (snd p)))
                        (map id (firstn (fst p) (before ++ x :: rest)))))
             (combine (seq (S (length before)) (length rest)) rest))).
  { intros seen' Hseen'. rewrite (IH (before ++ [x]) seen' Hseen').
    rewrite length_app, <- app_assoc. cbn [length app].
    replace (length before + 1) with (S (length before)) by lia.
    reflexivity. }
  destruct (decide (id x ∈ seen)) as [Hold|Hnew].
  - replace (existsb (Nat.eqb (id x)) (map id before)) with true.
    + cbn [negb]. apply Hnext. intros n. rewrite map_app, in_app_iff.
      cbn [map In]. rewrite Hseen. split; [tauto|].
      intros [H|[<-|[]]]; [exact H|]. apply Hseen. exact Hold.
    + symmetry. apply existsb_exists. exists (id x).
      split; [apply Hseen, Hold|apply Nat.eqb_refl].
  - replace (existsb (Nat.eqb (id x)) (map id before)) with false.
    + cbn [negb map snd]. f_equal. apply Hnext. intros n.
      rewrite map_app, in_app_iff, elem_of_union, elem_of_singleton.
      cbn [map In]. rewrite Hseen. split.
      * intros [->|H]; [right; left; reflexivity|left; exact H].
      * intros [H|[<-|[]]]; [right; exact H|left; reflexivity].
    + symmetry. apply not_true_is_false. intros Hex.
      apply existsb_exists in Hex. destruct Hex as (n & Hin & Hn).
      apply Nat.eqb_eq in Hn. subst n. apply Hnew, Hseen, Hin.
Qed.

(** X23. [find_captcha_elements] returns every selected element once:
    no two of the elements it returns are the same object, each of them was
    selected by a selector that could be evaluated, every selected object is
    among them, and they come in the order in which they were first
    selected: the result is the list of selected elements without those
    whose object was already selected at an earlier position. *)
Theorem find_captcha_elements_unique
    (custom_selectors : option (list string)) :
  let selected := collect (selectors_of custom_selectors) in
  let found := find_captcha_elements custom_selectors in
  List.NoDup (map id found)
  /\ (forall e, In e found -> In e selected)
  /\ (forall e, In e selected -> In (id e) (map id found))
  /\ sublist found selected
  /\ found = first_selected selected.
Proof.
  intros selected found. subst selected found.
  unfold find_captcha_elements.
  destruct (unique_spec (collect (selectors_of custom_selectors)) ∅)
    as (Hnd & Hin & Hall & Hsub).
  split; [exact Hnd|]. split; [|split; [|split; [exact Hsub|]]].
  - intros e He. exact (proj1 (Hin e He)).
  - intros e He. apply (Hall e He). apply not_elem_of_empty.
  - apply (unique_first_selected _ []). intros n. split.
    + intros Hn. exfalso. exact (not_elem_of_empty n Hn).
    + intros [].
Qed.

End Soup.

(** Two selectors, the second of which cannot be evaluated; the first
    selects the objects 1, 2 and 1 again. *)
Example find_keeps_first_selection :
  find_captcha_elements nat (fun n => n)
    (fun selector =>
       if String.eqb selector "img" then Ok [1; 2; 1]%nat
       else Raise (Exception "invalid selector"))
    (Some ["img"; "img["])
  = [1; 2]%nat.
Proof. vm_compute. reflexivity. Qed.

End Finder.
